(** * EconML [cate_estimator.py]: base classes of the CATE estimators

    A shallow embedding of [econml/cate_estimator.py] and of the part of
    numpy it calls, followed by the properties of its specification.

    - [np]: n-dimensional arrays (shape and row-major data) with [shape],
      [ndim], [full], [repeat], subtraction and [einsum];
    - the object store: estimators and inference objects live in a heap and
      are passed by reference, every call to a collaborator and every
      attribute store is recorded in a trace;
    - one module per class of the source file, with the methods under the
      names they have there. *)

From Stdlib Require Import ZArith Lia Ascii String.
From stdpp Require Import base option list strings gmap.

Set Default Goal Selector "!".

(** ** Scalars

    The entries of an array.  The code never inspects them: it only adds,
    multiplies and subtracts, so the embedding is parametric in them.  *)

Class Scalar (R : Type) := {
  zero : R;
  one : R;
  add : R → R → R;
  mul : R → R → R;
  sub : R → R → R;
  opp : R → R
}.

(** The identities of the negation, by which an effect changes its sign
    with the difference of the treatments.  They hold for the integers and
    for floating-point numbers, the infinities and nan included. *)
Class ScalarNegation (R : Type) `{Scalar R} := {
  sub_antisym : ∀ x y : R, sub x y = opp (sub y x);
  mul_opp_r : ∀ x y : R, mul x (opp y) = opp (mul x y);
  opp_add : ∀ x y : R, opp (add x y) = add (opp x) (opp y);
  opp_zero : opp zero = (zero : R)
}.

(** The identities by which the effect of no change is zero.  They hold in
    exact arithmetic and for finite floating-point numbers; they do not
    hold for an infinity or a nan: [inf - inf] and [inf * 0] are nan. *)
Class ScalarCancellation (R : Type) `{Scalar R} := {
  sub_diag : ∀ x : R, sub x x = zero;
  mul_zero_r : ∀ x : R, mul x zero = zero;
  add_zero_zero : add zero zero = (zero : R)
}.

#[export] Instance Z_scalar : Scalar Z :=
  {| zero := 0%Z; one := 1%Z; add := Z.add; mul := Z.mul; sub := Z.sub; opp := Z.opp |}.

#[export] Instance Z_scalar_negation : ScalarNegation Z.
Proof. split; simpl; intros; lia. Qed.

#[export] Instance Z_scalar_cancellation : ScalarCancellation Z.
Proof. split; simpl; intros; lia. Qed.

(** Floating-point numbers with their special values: the entries of a
    numpy array of floats.  The finite values are taken exact (they are
    integers here): only the arithmetic of the infinities and of nan
    matters where this type is used. *)
Inductive number :=
  | Finite (z : Z)
  | PosInf
  | NegInf
  | NaN.

Definition number_opp (x : number) : number :=
  match x with
  | Finite z => Finite (- z)
  | PosInf => NegInf
  | NegInf => PosInf
  | NaN => NaN
  end.

Definition number_add (x y : number) : number :=
  match x, y with
  | NaN, _ | _, NaN => NaN
  | PosInf, NegInf | NegInf, PosInf => NaN
  | PosInf, _ | _, PosInf => PosInf
  | NegInf, _ | _, NegInf => NegInf
  | Finite a, Finite b => Finite (a + b)
  end.

Definition number_sub (x y : number) : number := number_add x (number_opp y).

(** An infinity times a finite value: nan for 0, else by the signs. *)
Definition infinity_times (positive : bool) (a : Z) : number :=
  match a with
  | Z0 => NaN
  | Zpos _ => if positive then PosInf else NegInf
  | Zneg _ => if positive then NegInf else PosInf
  end.

Definition number_mul (x y : number) : number :=
  match x, y with
  | NaN, _ | _, NaN => NaN
  | Finite a, Finite b => Finite (a * b)
  | Finite a, PosInf | PosInf, Finite a => infinity_times true a
  | Finite a, NegInf | NegInf, Finite a => infinity_times false a
  | PosInf, PosInf | NegInf, NegInf => PosInf
  | PosInf, NegInf | NegInf, PosInf => NegInf
  end.

(** (These are instances where they are needed only: the arrays of the
    examples are arrays of integers.) *)
Definition number_scalar : Scalar number :=
  {| zero := Finite 0; one := Finite 1; add := number_add; mul := number_mul;
     sub := number_sub; opp := number_opp |}.

(** ** Exceptions and results *)

Record exn := Exn { exn_class : string; exn_msg : string }.

Inductive result (A : Type) :=
  | Ok (a : A)
  | Err (e : exn).
Arguments Ok {A} a.
Arguments Err {A} e.

Definition ValueError (msg : string) : exn := Exn "ValueError" msg.
Definition AttributeError (msg : string) : exn := Exn "AttributeError" msg.
Definition IndexError (msg : string) : exn := Exn "IndexError" msg.

Definition rbind {A B} (r : result A) (k : A → result B) : result B :=
  match r with
  | Ok a => k a
  | Err e => Err e
  end.

(** [t[0]] on a tuple. *)
Definition tuple_item0 (t : list nat) : result nat :=
  match t with
  | d :: _ => Ok d
  | [] => Err (IndexError "tuple index out of range")
  end.

(** [s.replace(old, new)] for a one-character [old]. *)
Fixpoint str_replace (old : ascii) (new : string) (s : string) : string :=
  match s with
  | EmptyString => EmptyString
  | String c s' =>
      if Ascii.eqb c old then new +:+ str_replace old new s'
      else String c (str_replace old new s')
  end.

(** ** numpy *)

Module np.

Record ndarray (R : Type) := NDArray { shape : list nat; data : list R }.
Arguments NDArray {R} shape data.
Arguments shape {R} _.
Arguments data {R} _.

Section Arrays.
Context {R : Type} `{Scalar R}.

Definition ndim (a : ndarray R) : nat := length (shape a).

(** Number of entries of an array of shape [sh]. *)
Definition size (sh : list nat) : nat := foldr Nat.mul 1 sh.

(** A Python number is a zero-dimensional array. *)
Definition scalar (x : R) : ndarray R := NDArray [] [x].

(** The data of an array has one entry per index. *)
Definition wf (a : ndarray R) : Prop := length (data a) = size (shape a).

(** All the indices of an array of shape [sh], in row-major order. *)
Fixpoint all_indices (sh : list nat) : list (list nat) :=
  match sh with
  | [] => [[]]
  | d :: ds => flat_map (λ i, map (cons i) (all_indices ds)) (seq 0 d)
  end.

(** Position of the entry of index [idx] in the data. *)
Fixpoint offset (sh idx : list nat) : option nat :=
  match sh, idx with
  | [], [] => Some 0
  | d :: ds, i :: idx' =>
      if decide (i < d) then (λ o, i * size ds + o) <$> offset ds idx'
      else None
  | _, _ => None
  end.

(** [a[idx]] *)
Definition get (a : ndarray R) (idx : list nat) : option R :=
  offset (shape a) idx ≫= λ o, data a !! o.

Definition getd (a : ndarray R) (idx : list nat) : R :=
  default zero (get a idx).

(** The array of shape [sh] whose entry of index [idx] is [f idx]. *)
Definition tabulate (sh : list nat) (f : list nat → R) : ndarray R :=
  NDArray sh (map f (all_indices sh)).

(** [np.full(shape, fill_value)] *)
Definition full (sh : list nat) (fill_value : R) : ndarray R :=
  NDArray sh (replicate (size sh) fill_value).

(** The rows of [a]: its sub-arrays along axis 0. *)
Definition rows (d : nat) (ds : list nat) (l : list R) : list (list R) :=
  map (λ i, take (size ds) (drop (i * size ds) l)) (seq 0 d).

(** [np.repeat(a, repeats, axis=0)]: every row is repeated [repeats] times,
    the copies of a row next to each other.  An array without dimension is
    repeated as the array of its one entry: the result is the vector that
    holds the entry [repeats] times. *)
Definition repeat (a : ndarray R) (repeats : nat) : result (ndarray R) :=
  match shape a with
  | [] => Ok (NDArray [repeats] (concat (replicate repeats (data a))))
  | d :: ds =>
      Ok (NDArray (d * repeats :: ds)
            (flat_map (λ row, concat (replicate repeats row)) (rows d ds (data a))))
  end.

(** *** Broadcasting *)

(** The shape two shapes broadcast to: they are aligned on the right, and
    two sizes fit when they are equal or one of them is 1. *)
Definition broadcast_dim (d1 d2 : nat) : option nat :=
  if decide (d1 = d2) then Some d1
  else if decide (d1 = 1) then Some d2
  else if decide (d2 = 1) then Some d1
  else None.

Fixpoint broadcast_rev (s1 s2 : list nat) : option (list nat) :=
  match s1, s2 with
  | [], _ => Some s2
  | _, [] => Some s1
  | d1 :: s1', d2 :: s2' =>
      d ← broadcast_dim d1 d2; ds ← broadcast_rev s1' s2'; Some (d :: ds)
  end.

Definition broadcast_shapes (s1 s2 : list nat) : option (list nat) :=
  reverse <$> broadcast_rev (reverse s1) (reverse s2).

(** The index of [a] that the index [idx] of the broadcast array reads. *)
Definition broadcast_index (sh idx : list nat) : list nat :=
  zip_with (λ d i, if decide (d = 1) then 0 else i) sh
           (drop (length idx - length sh) idx).

Definition getb (a : ndarray R) (idx : list nat) : R :=
  getd a (broadcast_index (shape a) idx).

(** [a - b] *)
Definition subtract (a b : ndarray R) : result (ndarray R) :=
  match broadcast_shapes (shape a) (shape b) with
  | Some sh => Ok (tabulate sh (λ idx, sub (getb a idx) (getb b idx)))
  | None => Err (ValueError "operands could not be broadcast together")
  end.

(** *** einsum

    [np.einsum(subscripts, *operands)] for subscripts in explicit mode,
    [in1,in2,...->out], each label a letter.  (The strings this module
    builds are all of that form: no implicit mode, no ellipsis.) *)

Definition is_letter (c : ascii) : bool :=
  let n := nat_of_ascii c in
  ((65 <=? n) && (n <=? 90)) || ((97 <=? n) && (n <=? 122)).

Fixpoint split_arrow (s : list ascii) : option (list ascii * list ascii) :=
  match s with
  | [] => None
  | c :: rest =>
      match rest with
      | c' :: out =>
          if Ascii.eqb c "-" && Ascii.eqb c' ">" then Some ([], out)
          else '(l, r) ← split_arrow rest; Some (c :: l, r)
      | [] => None
      end
  end.

Fixpoint split_comma (s : list ascii) : list (list ascii) :=
  match s with
  | [] => [[]]
  | c :: rest =>
      if Ascii.eqb c "," then [] :: split_comma rest
      else match split_comma rest with
           | g :: gs => (c :: g) :: gs
           | [] => [[c]]
           end
  end.

Definition parse_subscripts (s : string)
  : option (list (list ascii) * list ascii) :=
  '(ins, out) ← split_arrow (list_ascii_of_string s);
  let groups := split_comma ins in
  if forallb (forallb is_letter) groups && forallb is_letter out
  then Some (groups, out) else None.

(** Sizes or positions by label. *)
Definition labelled := list (ascii * nat).

Fixpoint label_lookup (l : ascii) (e : labelled) : option nat :=
  match e with
  | [] => None
  | (l', n) :: e' => if Ascii.eqb l l' then Some n else label_lookup l e'
  end.

Fixpoint label_update (l : ascii) (n : nat) (e : labelled) : labelled :=
  match e with
  | [] => []
  | (l', n') :: e' =>
      if Ascii.eqb l l' then (l', n) :: e' else (l', n') :: label_update l n e'
  end.

(** A label that comes twice in one operand takes its diagonal: the two
    axes have the same size. *)
Fixpoint diagonal_ok (lds : labelled) : bool :=
  match lds with
  | [] => true
  | (l, d) :: rest =>
      forallb (λ ld, negb (Ascii.eqb l ld.1) || (d =? ld.2)) rest
      && diagonal_ok rest
  end.

(** The size of every label, in the order the labels first appear; the
    sizes an axis has in different operands broadcast. *)
Fixpoint bind_labels (lds : labelled) (e : labelled) : option labelled :=
  match lds with
  | [] => Some e
  | (l, d) :: rest =>
      match label_lookup l e with
      | None => bind_labels rest (e ++ [(l, d)])
      | Some d' =>
          d'' ← broadcast_dim d' d; bind_labels rest (label_update l d'' e)
      end
  end.

Fixpoint einsum_dims (ins : list (list ascii)) (operands : list (ndarray R))
    (e : labelled) : option labelled :=
  match ins, operands with
  | [], [] => Some e
  | ls :: ins', a :: operands' =>
      if decide (length ls = ndim a) then
        let lds := zip ls (shape a) in
        if diagonal_ok lds then bind_labels lds e ≫= einsum_dims ins' operands'
        else None
      else None
  | _, _ => None
  end.

(** The entry of an operand at the position the labels have in [e]. *)
Definition operand_at (e : labelled) (ls : list ascii) (a : ndarray R) : R :=
  getb a (map (λ l, default 0 (label_lookup l e)) ls).

Fixpoint product (v : R) (vs : list R) : R :=
  match vs with
  | [] => v
  | v' :: vs' => mul v (product v' vs')
  end.

Definition term (ins : list (list ascii)) (operands : list (ndarray R))
    (e : labelled) : R :=
  match zip_with (operand_at e) ins operands with
  | [] => zero
  | v :: vs => product v vs
  end.

Definition sum_list (l : list R) : R := foldr add zero l.

(** The sum over the labels that are not in the output. *)
Fixpoint sum_over (summed : labelled) (f : labelled → R) (e : labelled) : R :=
  match summed with
  | [] => f e
  | (l, d) :: rest =>
      sum_list (map (λ i, sum_over rest f ((l, i) :: e)) (seq 0 d))
  end.

Definition label_in (l : ascii) (ls : list ascii) : bool :=
  existsb (Ascii.eqb l) ls.

Fixpoint distinct (ls : list ascii) : bool :=
  match ls with
  | [] => true
  | l :: ls' => negb (label_in l ls') && distinct ls'
  end.

Definition einsum (subscripts : string) (operands : list (ndarray R))
  : result (ndarray R) :=
  match parse_subscripts subscripts with
  | None => Err (ValueError "invalid subscripts")
  | Some (ins, out) =>
      match einsum_dims ins operands [] with
      | None => Err (ValueError "operands do not match the subscripts")
      | Some dims =>
          if negb (distinct out) then
            Err (ValueError "output subscript included more than once")
          else
            match mapM (λ l, label_lookup l dims) out with
            | None => Err (ValueError "output subscript never appeared in an input")
            | Some out_shape =>
                let summed := filter (λ ld, negb (label_in ld.1 out)) dims in
                Ok (tabulate out_shape
                      (λ idx, sum_over summed (term ins operands) (zip out idx)))
            end
      end
  end.


End Arrays.
End np.

Import np.

(** ** The object store

    Estimators and inference objects are Python objects: they live in a heap
    and are passed by reference.  What this file does not define is taken as
    a parameter: the inference classes (the module [inference]), the body of
    a concrete [fit], [const_marginal_effect], and the transformer of a
    treatment expansion. *)

Definition loc := nat.

(** The inference classes the registries name. *)
Inductive inference_type := BootstrapInference | StatsModelsInference.

(** A dictionary with string keys, in insertion order. *)
Definition dict (V : Type) := list (string * V).

Fixpoint dict_get {V} (k : string) (d : dict V) : option V :=
  match d with
  | [] => None
  | (k', v) :: d' => if String.eqb k k' then Some v else dict_get k d'
  end.

(** [d.update(k=v)]: a key that is present keeps its place. *)
Fixpoint dict_update {V} (k : string) (v : V) (d : dict V) : dict V :=
  match d with
  | [] => [(k, v)]
  | (k', v') :: d' =>
      if String.eqb k k' then (k', v) :: d' else (k', v') :: dict_update k v d'
  end.

(** [[*d]] *)
Definition dict_keys {V} (d : dict V) : list string := d.*1.

(** [repr] of a string without quotes, backslashes or control characters,
    and of a list of such strings. *)
Definition repr_str (s : string) : string := "'" +:+ s +:+ "'".

Fixpoint join (sep : string) (l : list string) : string :=
  match l with
  | [] => ""
  | [s] => s
  | s :: l' => s +:+ sep +:+ join sep l'
  end.

Definition repr_list (l : list string) : string :=
  "[" +:+ join ", " (repr_str <$> l) +:+ "]".

(** Which classes of this file the class of an estimator derives from
    (all of them derive from [BaseCateEstimator]). *)
Record pyclass := PyClass {
  class_name : string;
  treatment_expansion : bool;
  statsmodels_mixin : bool
}.

Class Types := {
  Inference : Type;      (* the state of an inference object *)
  Fitted : Type;         (* what the body of a concrete fit stores on self *)
  Transformer : Type;
  FitArgs : Type         (* the other arguments of fit: X, W, ... *)
}.

(** The attributes of an estimator.  [None] is an attribute that has not
    been assigned; [_inference] may also hold Python's [None]. *)
Record estimator `{Types} := Estimator {
  cls : pyclass;
  _d_y : option (list nat);
  _d_t : option (list nat);
  _d_t_in : option (list nat);
  _inference : option (option loc);
  transformer : option Transformer;
  fitted : Fitted
}.
Arguments Estimator {_} _ _ _ _ _ _ _.

Inductive object `{Types} :=
  | ObjEstimator (e : estimator)
  | ObjInference (i : Inference).
Arguments ObjEstimator {_} e.
Arguments ObjInference {_} i.

(** Arguments of a call: [None] or an array (a number is an array without
    dimension), by position and by keyword. *)
Inductive pyval (R : Type) :=
  | PyNone
  | PyArr (a : ndarray R).
Arguments PyNone {R}.
Arguments PyArr {R} a.

Record call_args (R : Type) := CallArgs {
  positional : list (pyval R);
  keywords : list (string * pyval R)
}.
Arguments CallArgs {R} positional keywords.
Arguments positional {R} _.
Arguments keywords {R} _.

(** The [inference] argument of [fit]. *)
Inductive inference_arg :=
  | ArgNone
  | ArgStr (s : string)
  | ArgObject (l : loc).

(** A method of a collaborator changes the object it is called on and the
    estimator it is given, nothing else; it may raise after it has changed
    them. *)
Class Collaborators (R : Type) `{Types} := {
  construct : inference_type → Inference;
  inference_prefit :
    Inference → estimator → ndarray R → ndarray R → FitArgs →
    Inference * estimator * option exn;
  inference_fit :
    Inference → estimator → ndarray R → ndarray R → FitArgs →
    Inference * estimator * option exn;
  (* the method [name] of the inference object, called with the arguments
     given; the inference object may read the estimator it was fitted with *)
  inference_method :
    string → Inference → estimator → call_args R →
    Inference * result (list (ndarray R));
  fit_body :
    estimator → ndarray R → ndarray R → FitArgs → estimator * option exn;
  const_marginal_effect :
    estimator → option (ndarray R) → result (ndarray R);
  transform : Transformer → ndarray R → result (ndarray R)
}.

Section Store.
Context {R : Type} `{Types}.

(** The value an attribute is given. *)
Inductive attr_value :=
  | AttrShape (d : list nat)
  | AttrRef (r : option loc).

Inductive event :=
  | Construct (c : inference_type) (l : loc)
  | Deepcopy (src dst : loc)
  | SetAttr (self : loc) (name : string) (v : attr_value)
  | CallPrefit (inference self : loc) (Y T : ndarray R) (args : FitArgs)
  | CallFitBody (self : loc) (Y T : ndarray R) (args : FitArgs)
  | CallFit (inference self : loc) (Y T : ndarray R) (args : FitArgs)
  | CallInference (inference : loc) (name : string) (args : call_args R)
  | Warn (msg : string).

Record world := World { heap : gmap loc object; trace : list event }.

(** Computations that read and write the store and may raise. *)
Definition M (A : Type) : Type := world → result A * world.

Definition ret {A} (a : A) : M A := λ w, (Ok a, w).

Definition bind {A B} (m : M A) (k : A → M B) : M B :=
  λ w, match m w with
       | (Ok a, w') => k a w'
       | (Err e, w') => (Err e, w')
       end.

Definition raise {A} (e : exn) : M A := λ w, (Err e, w).

Definition lift {A} (r : result A) : M A := λ w, (r, w).

Definition emit (ev : event) : M unit :=
  λ w, (Ok (), World (heap w) (trace w ++ [ev])).

Definition alloc (o : object) : M loc :=
  λ w, let l := fresh (dom (heap w)) in
       (Ok l, World (<[l := o]> (heap w)) (trace w)).

Definition store (l : loc) (o : object) : M unit :=
  λ w, (Ok (), World (<[l := o]> (heap w)) (trace w)).

Definition bad_reference {A} : M A :=
  raise (Exn "ReferenceError" "no such object").

Definition load (l : loc) : M object :=
  λ w, match heap w !! l with
       | Some o => (Ok o, w)
       | None => bad_reference w
       end.

Definition no_attribute (o : object) (name : string) : exn :=
  let c := match o with
           | ObjEstimator e => class_name (cls e)
           | ObjInference _ => "Inference"
           end in
  AttributeError ("'" +:+ c +:+ "' object has no attribute '" +:+ name +:+ "'").

Definition load_estimator (self : loc) : M estimator :=
  bind (load self) (λ o,
    match o with
    | ObjEstimator e => ret e
    | ObjInference _ => bad_reference
    end).

(** [self.name], for an attribute the instance may not have yet. *)
Definition getattr {A} (self : loc) (name : string)
    (field : estimator → option A) : M A :=
  bind (load_estimator self) (λ e,
    match field e with
    | Some v => ret v
    | None => raise (no_attribute (ObjEstimator e) name)
    end).

(** [self.name = v] *)
Definition setattr (self : loc) (name : string) (v : attr_value)
    (set : estimator → estimator) : M unit :=
  bind (load_estimator self) (λ e,
  bind (store self (ObjEstimator (set e))) (λ _,
  emit (SetAttr self name v))).

Definition set_d_y (v : list nat) (e : estimator) : estimator :=
  Estimator (cls e) (Some v) (_d_t e) (_d_t_in e) (_inference e)
            (transformer e) (fitted e).
Definition set_d_t (v : list nat) (e : estimator) : estimator :=
  Estimator (cls e) (_d_y e) (Some v) (_d_t_in e) (_inference e)
            (transformer e) (fitted e).
Definition set_d_t_in (v : list nat) (e : estimator) : estimator :=
  Estimator (cls e) (_d_y e) (_d_t e) (Some v) (_inference e)
            (transformer e) (fitted e).
Definition set_inference (v : option loc) (e : estimator) : estimator :=
  Estimator (cls e) (_d_y e) (_d_t e) (_d_t_in e) (Some v)
            (transformer e) (fitted e).

(** [copy.deepcopy]: [None] is itself, an object is copied to a new place. *)
Definition deepcopy (x : option loc) : M (option loc) :=
  match x with
  | None => ret None
  | Some l =>
      bind (load l) (λ o,
      bind (alloc o) (λ l',
      bind (emit (Deepcopy l l')) (λ _,
      ret (Some l'))))
  end.

End Store.

Arguments event R {_}.
Arguments world R {_}.
Arguments M R {_} A.

Declare Scope py_scope.
Delimit Scope py_scope with py.
Notation "'let*' x ':=' m 'in' k" := (bind m (λ x, k))
  (at level 10, x pattern, m at level 100, k at level 200) : py_scope.
Notation "m ;; k" := (bind m (λ _, k))
  (at level 100, k at level 200, right associativity) : py_scope.
Open Scope py_scope.

(** The methods of this file that are overridden in it, as the class of an
    estimator resolves them: a call [self.method(...)] goes through this
    table. *)
Record vtable (R : Type) `{Types} := VTable {
  v_get_inference_options : dict inference_type;
  v_prefit : loc → ndarray R → ndarray R → FitArgs → M R unit;
  v_expand_treatments :
    loc → option (ndarray R) → list (ndarray R) →
    M R (option (ndarray R) * list (ndarray R))
}.
Arguments VTable {R _} _ _ _.
Arguments v_get_inference_options {R _} _.
Arguments v_prefit {R _} _.
Arguments v_expand_treatments {R _} _.

(** ** class BaseCateEstimator *)

Module BaseCateEstimator.
Section Methods.
Context {R : Type} `{Scalar R} `{Collaborators R}.

Definition _get_inference_options : dict inference_type :=
  [("bootstrap", BootstrapInference)].

(** [options[inference]()] *)
Definition new_inference (c : inference_type) : M R loc :=
  let* l := alloc (ObjInference (construct c)) in
  emit (Construct c l);;
  ret l.

Definition _get_inference (vt : vtable R) (inference : inference_arg)
  : M R (option loc) :=
  let options := v_get_inference_options vt in
  let* inference :=
    match inference with
    | ArgStr s =>
        match dict_get s options with
        | Some c => let* l := new_inference c in ret (Some l)
        | None =>
            raise (ValueError ("Inference option '" +:+ s +:+
                               "' not recognized; valid values are " +:+
                               repr_list (dict_keys options)))
        end
    | ArgObject l => ret (Some l)
    | ArgNone => ret None
    end in
  (* since inference objects can be stateful, we must copy it before fitting *)
  deepcopy inference.

Definition _prefit (self : loc) (Y T : ndarray R) (args : FitArgs) : M R unit :=
  (let d_y := drop 1 (shape Y) in
   setattr self "_d_y" (AttrShape d_y) (set_d_y d_y));;
  (let d_t := drop 1 (shape T) in
   setattr self "_d_t" (AttrShape d_t) (set_d_t d_t)).

(** [inference.prefit(self, Y, T, *args, **kwargs)] and
    [inference.fit(self, Y, T, *args, **kwargs)] *)
Definition call_inference_hook
    (hook : Inference → estimator → ndarray R → ndarray R → FitArgs →
            Inference * estimator * option exn)
    (name : string) (ev : event R) (inference self : loc) (Y T : ndarray R)
    (args : FitArgs) : M R unit :=
  let* o := load inference in
  match o with
  | ObjInference i =>
      let* e := load_estimator self in
      emit ev;;
      let '(i', e', raised) := hook i e Y T args in
      store inference (ObjInference i');;
      store self (ObjEstimator e');;
      match raised with
      | Some ex => raise ex
      | None => ret ()
      end
  | ObjEstimator _ => raise (no_attribute o name)
  end.

(** [m(self, Y, T, *args, **kwargs)]: the body of the decorated fit. *)
Definition call_fit_body (self : loc) (Y T : ndarray R) (args : FitArgs)
  : M R unit :=
  let* e := load_estimator self in
  emit (CallFitBody self Y T args);;
  let '(e', raised) := fit_body e Y T args in
  store self (ObjEstimator e');;
  match raised with
  | Some ex => raise ex
  | None => ret ()
  end.

(** The method [call] that the decorator [_wrap_fit] returns. *)
Definition _wrap_fit (vt : vtable R) (self : loc) (Y T : ndarray R)
    (args : FitArgs) (inference : inference_arg) : M R loc :=
  let* inference := _get_inference vt inference in
  v_prefit vt self Y T args;;
  match inference with
  | Some l =>
      call_inference_hook inference_prefit "prefit" (CallPrefit l self Y T args)
                          l self Y T args
  | None => ret ()
  end;;
  (* call the wrapped fit method *)
  call_fit_body self Y T args;;
  match inference with
  | Some l =>
      (* NOTE: we call inference fit *after* calling the main fit method *)
      call_inference_hook inference_fit "fit" (CallFit l self Y T args)
                          l self Y T args
  | None => ret ()
  end;;
  setattr self "_inference" (AttrRef inference) (set_inference inference);;
  ret self.

Definition _expand_treatments (self : loc) (X : option (ndarray R))
    (Ts : list (ndarray R)) : M R (option (ndarray R) * list (ndarray R)) :=
  ret (X, Ts).

(** [getattr(self._inference, name)], called with the caller's arguments. *)
Definition call_inference_method (inference : loc) (name : string)
    (self : loc) (args : call_args R) : M R (list (ndarray R)) :=
  let* o := load inference in
  match o with
  | ObjInference i =>
      let* e := load_estimator self in
      emit (CallInference inference name args);;
      let '(i', r) := inference_method name i e args in
      store inference (ObjInference i');;
      lift r
  | ObjEstimator _ => raise (no_attribute o name)
  end.

(** The method [call] that the decorator [_defer_to_inference] returns for
    a method whose [__name__] is [name]. *)
Definition _defer_to_inference (name : string) (self : loc)
    (args : call_args R) : M R (list (ndarray R)) :=
  let* inference := getattr self "_inference" _inference in
  match inference with
  | Some l => call_inference_method l name self args
  | None =>
      raise (AttributeError ("Can't call '" +:+ name +:+
                             "' because 'inference' is None"))
  end.

Definition effect_interval := _defer_to_inference "effect_interval".

Definition marginal_effect_interval :=
  _defer_to_inference "marginal_effect_interval".

End Methods.
End BaseCateEstimator.

(** ** class LinearCateEstimator(BaseCateEstimator) *)

Module LinearCateEstimator.
Section Methods.
Context {R : Type} `{Scalar R} `{Collaborators R}.

(** [self.const_marginal_effect(X)], abstract in this class. *)
Definition call_const_marginal_effect (self : loc) (X : option (ndarray R))
  : M R (ndarray R) :=
  let* e := load_estimator self in
  lift (const_marginal_effect e X).

Definition effect (vt : vtable R) (self : loc) (X : option (ndarray R))
    (T0 T1 : ndarray R) : M R (ndarray R) :=
  let* (X, Ts) := v_expand_treatments vt self X [T0; T1] in
  match Ts with
  | [T0; T1] =>
      let* eff := call_const_marginal_effect self X in
      (* if X is None then the shape of const_marginal_effect will be wrong
         because the number of rows of T was not taken into account *)
      let* eff :=
        match X with
        | None =>
            let* n := lift (tuple_item0 (shape T0)) in
            lift (np.repeat eff n)
        | Some _ => ret eff
        end in
      let* m := lift (tuple_item0 (shape eff)) in
      let* dT := lift (np.subtract T1 T0) in
      let einsum_str := "myt,mt->my" in
      let einsum_str :=
        if decide (ndim dT = 1) then str_replace "t" "" einsum_str
        else einsum_str in
      let einsum_str :=
        (* y is a vector, rather than a 2D array *)
        if decide (ndim eff = ndim dT) then str_replace "y" "" einsum_str
        else einsum_str in
      lift (np.einsum einsum_str [eff; dT])
  | _ => raise (ValueError "wrong number of values to unpack")
  end.

Definition marginal_effect (vt : vtable R) (self : loc) (T : ndarray R)
    (X : option (ndarray R)) : M R (ndarray R) :=
  let* (X, Ts) := v_expand_treatments vt self X [T] in
  match Ts with
  | [T] =>
      let* eff := call_const_marginal_effect self X in
      match X with
      | None =>
          let* n := lift (tuple_item0 (shape T)) in
          lift (np.repeat eff n)
      | Some _ => ret eff
      end
  | _ => raise (ValueError "wrong number of values to unpack")
  end.

Definition const_marginal_effect_interval :=
  BaseCateEstimator._defer_to_inference "const_marginal_effect_interval".

Definition opt_pyval (X : option (ndarray R)) : pyval R :=
  match X with
  | None => PyNone
  | Some a => PyArr a
  end.

(** [tuple(... for eff in effs)] *)
Fixpoint for_each {A B} (f : A → M R B) (l : list A) : M R (list B) :=
  match l with
  | [] => ret []
  | a :: l' =>
      let* b := f a in
      let* bs := for_each f l' in
      ret (b :: bs)
  end.

Definition marginal_effect_interval (self : loc) (T : ndarray R)
    (X : option (ndarray R)) (alpha : ndarray R)
  : M R (list (ndarray R)) :=
  let* effs :=
    const_marginal_effect_interval self
      (CallArgs [] [("X", opt_pyval X); ("alpha", PyArr alpha)]) in
  for_each (λ eff,
      match X with
      | None =>
          let* n := lift (tuple_item0 (shape T)) in
          lift (np.repeat eff n)
      | Some _ => ret eff
      end) effs.

End Methods.
End LinearCateEstimator.

(** ** class TreatmentExpansionMixin(BaseCateEstimator) *)

Module TreatmentExpansionMixin.
Section Methods.
Context {R : Type} `{Scalar R} `{Collaborators R}.

Definition _prefit (self : loc) (Y T : ndarray R) (args : FitArgs) : M R unit :=
  BaseCateEstimator._prefit self Y T args;;
  (* need to store the *original* dimensions of T so that we can expand
     scalar inputs to match; subclasses should overwrite self._d_t with
     post-transformed dimensions of T for generating treatments *)
  let* d_t := getattr self "_d_t" _d_t in
  setattr self "_d_t_in" (AttrShape d_t) (set_d_t_in d_t).

Definition scalar_warning : string :=
  "A scalar was specified but there are multiple treatments; " +:+
  "the same value will be used for each treatment.  Consider specifying" +:+
  "all treatments, or using the const_marginal_effect method.".

(** [self._d_t_in and self._d_t_in[0] > 1] *)
Definition multiple_treatments (d_t_in : list nat) : bool :=
  match d_t_in with
  | [] => false
  | d :: _ => bool_decide (1 < d)
  end.

(** The body of the loop [for T in Ts]. *)
Definition expand_one (self : loc) (n_rows : nat) (T : ndarray R)
  : M R (ndarray R) :=
  let* warns :=
    if decide (ndim T = 0) then
      let* d_t_in := getattr self "_d_t_in" _d_t_in in
      ret (multiple_treatments d_t_in)
    else ret false in
  (if warns then emit (Warn scalar_warning) else ret ());;
  let* T :=
    if decide (ndim T = 0) then
      let* d_t_in := getattr self "_d_t_in" _d_t_in in
      ret (np.full (n_rows :: d_t_in) (getd T []))
    else ret T in
  let* e := load_estimator self in
  let* T :=
    match transformer e with
    | Some tr => lift (transform tr T)
    | None => ret T
    end in
  ret T.

Fixpoint expand_loop (self : loc) (n_rows : nat) (Ts outTs : list (ndarray R))
  : M R (list (ndarray R)) :=
  match Ts with
  | [] => ret outTs
  | T :: Ts' =>
      let* T := expand_one self n_rows T in
      expand_loop self n_rows Ts' (outTs ++ [T])
  end.

Definition _expand_treatments (self : loc) (X : option (ndarray R))
    (Ts : list (ndarray R)) : M R (option (ndarray R) * list (ndarray R)) :=
  let* n_rows :=
    match X with
    | None => ret 1
    | Some x => lift (tuple_item0 (shape x))
    end in
  let* outTs := expand_loop self n_rows Ts [] in
  ret (X, outTs).

(** [effect(self, X=None, T0=0, T1=1)]: the caller's arguments, or the
    defaults, go to the next [effect] of the method resolution order. *)
Definition effect (vt : vtable R) (self : loc) (X : option (ndarray R))
    (T0 T1 : option (ndarray R)) : M R (ndarray R) :=
  LinearCateEstimator.effect vt self X
    (default (np.scalar zero) T0) (default (np.scalar one) T1).

End Methods.
End TreatmentExpansionMixin.

(** ** class StatsModelsCateEstimatorMixin(BaseCateEstimator) *)

Module StatsModelsCateEstimatorMixin.
Section Methods.
Context {R : Type} `{Scalar R} `{Collaborators R}.

Definition _get_inference_options : dict inference_type :=
  (* add statsmodels to parent's options *)
  let options := BaseCateEstimator._get_inference_options in
  dict_update "statsmodels" StatsModelsInference options.

Definition coef__interval :=
  BaseCateEstimator._defer_to_inference "coef__interval".

Definition intercept__interval :=
  BaseCateEstimator._defer_to_inference "intercept__interval".

End Methods.
End StatsModelsCateEstimatorMixin.

(** ** Method resolution and the calls on an estimator *)

Section Calls.
Context {R : Type} `{Scalar R} `{Collaborators R}.

Definition resolve (c : pyclass) : vtable R :=
  VTable
    (if statsmodels_mixin c
     then StatsModelsCateEstimatorMixin._get_inference_options
     else BaseCateEstimator._get_inference_options)
    (if treatment_expansion c
     then TreatmentExpansionMixin._prefit
     else BaseCateEstimator._prefit)
    (if treatment_expansion c
     then TreatmentExpansionMixin._expand_treatments
     else BaseCateEstimator._expand_treatments).

Definition vtable_of (self : loc) : M R (vtable R) :=
  let* e := load_estimator self in
  ret (resolve (cls e)).

(** [self.fit(Y, T, ..., inference=inference)] for a [fit] decorated with
    [@BaseCateEstimator._wrap_fit]. *)
Definition fit (self : loc) (Y T : ndarray R) (args : FitArgs)
    (inference : inference_arg) : M R loc :=
  let* vt := vtable_of self in
  BaseCateEstimator._wrap_fit vt self Y T args inference.

(** [self.effect(X, T0=T0, T1=T1)] on a [LinearCateEstimator]. *)
Definition effect (self : loc) (X : option (ndarray R)) (T0 T1 : ndarray R)
  : M R (ndarray R) :=
  let* vt := vtable_of self in
  LinearCateEstimator.effect vt self X T0 T1.

(** [self.marginal_effect(T, X)] on a [LinearCateEstimator]. *)
Definition marginal_effect (self : loc) (T : ndarray R)
    (X : option (ndarray R)) : M R (ndarray R) :=
  let* vt := vtable_of self in
  LinearCateEstimator.marginal_effect vt self T X.

(** [self._expand_treatments(X, *Ts)] *)
Definition _expand_treatments (self : loc) (X : option (ndarray R))
    (Ts : list (ndarray R)) : M R (option (ndarray R) * list (ndarray R)) :=
  let* vt := vtable_of self in
  v_expand_treatments vt self X Ts.

(** A store in which [self] is an estimator. *)
Definition is_estimator (w : world R) (self : loc) (e : estimator) : Prop :=
  heap w !! self = Some (ObjEstimator e).

Definition is_inference (w : world R) (l : loc) (i : Inference) : Prop :=
  heap w !! l = Some (ObjInference i).

End Calls.

(** ** The contraction of the specification

    [effect[m,y] = Σ_t eff[m,y,t]·dT[m,t]], where the [y] axis is absent
    when [Y] is a vector and the [t] axis is absent when [T] is a vector.
    An axis that may be absent is an [option nat]. *)

Definition axes (d : option nat) : list nat :=
  match d with
  | Some n => [n]
  | None => []
  end.

Section Contraction.
Context {R : Type} `{Scalar R}.

Definition contraction (eff dT : ndarray R) (dt : option nat)
    (m : nat) (y : list nat) : R :=
  match dt with
  | Some d =>
      sum_list (map (λ t, mul (getd eff (m :: y ++ [t])) (getd dT [m; t]))
                    (seq 0 d))
  | None => mul (getd eff (m :: y)) (getd dT [m])
  end.

End Contraction.

(** ** Auxiliary definitions of the statements *)

Section Statements.
Context {R : Type} `{Scalar R} `{Types}.

(** [eff] in [effect] and in [marginal_effect]: the constant marginal
    effect, repeated to the rows of [T] when there is no [X]. *)
Definition repeated (X : option (ndarray R)) (eff0 T : ndarray R)
  : result (ndarray R) :=
  match X with
  | None => rbind (tuple_item0 (shape T)) (np.repeat eff0)
  | Some _ => Ok eff0
  end.

(** A computation that leaves the heap as it is (it may extend the trace). *)
Definition heap_preserving {A} (m : M R A) : Prop :=
  ∀ w r w', m w = (r, w') → heap w' = heap w.

End Statements.

Section RepeatStatements.
Context {R : Type} `{Scalar R}.

(** The index of [a] that the index [i :: idx] of
    [np.repeat(a, n, axis=0)] reads: row [i] of the result is row [i / n]
    of [a], and an array without dimension has its entry at every index. *)
Definition repeat_source (a : ndarray R) (n i : nat) (idx : list nat)
  : list nat :=
  match shape a with
  | [] => []
  | _ :: _ => i / n :: idx
  end.

(** The shape of [np.repeat(a, n, axis=0)]. *)
Definition repeat_shape_of (a : ndarray R) (n : nat) : list nat :=
  match shape a with
  | [] => [n]
  | d :: ds => d * n :: ds
  end.

End RepeatStatements.

Section EffectValue.
Context {R : Type} `{Scalar R} `{Collaborators R}.


(** The subscripts [effect] gives to [np.einsum]. *)
Definition einsum_str (eff dT : ndarray R) : string :=
  let s := "myt,mt->my" in
  let s := if decide (ndim dT = 1) then str_replace "t" "" s else s in
  if decide (ndim eff = ndim dT) then str_replace "y" "" s else s.

(** What [effect] computes from the treatments [_expand_treatments]
    returns. *)
Definition effect_value (e : estimator) (X : option (ndarray R))
    (T0 T1 : ndarray R) : result (ndarray R) :=
  rbind (const_marginal_effect e X) (λ eff0,
  rbind (repeated X eff0 T0) (λ eff,
  rbind (tuple_item0 (shape eff)) (λ _,
  rbind (np.subtract T1 T0) (λ dT,
  np.einsum (einsum_str eff dT) [eff; dT])))).

End EffectValue.

Section ExpansionStatements.
Context {R : Type} `{Scalar R} `{Collaborators R}.

Fixpoint result_mapM {A B} (f : A → result B) (l : list A) : result (list B) :=
  match l with
  | [] => Ok []
  | a :: l' => rbind (f a) (λ b, rbind (result_mapM f l') (λ bs, Ok (b :: bs)))
  end.

(** A treatment without dimension becomes an array of shape
    [(n_rows,) + d_t_in] that holds its value; any other is kept. *)
Definition broadcast_scalar (n_rows : nat) (d_t_in : list nat)
    (T : ndarray R) : ndarray R :=
  if decide (ndim T = 0) then np.full (n_rows :: d_t_in) (getd T []) else T.

(** The transformer, when one is configured. *)
Definition apply_transformer (tr : option Transformer) (T : ndarray R)
  : result (ndarray R) :=
  match tr with
  | Some t => transform t T
  | None => Ok T
  end.

(** The treatment is a scalar and [d_t_in] is not empty with
    [d_t_in[0] > 1]. *)
Definition scalar_for_many (d_t_in : list nat) (T : ndarray R) : Prop :=
  ndim T = 0 ∧ d_t_in ≠ [] ∧ 1 < hd 0 d_t_in.

#[export] Instance scalar_for_many_dec d_t_in T :
  Decision (scalar_for_many d_t_in T).
Proof. unfold scalar_for_many. apply _. Defined.

(** [n_rows] of [_expand_treatments]. *)
Definition n_rows_of (X : option (ndarray R)) : result nat :=
  match X with
  | None => Ok 1
  | Some x => tuple_item0 (shape x)
  end.

(** One warning for each scalar that stands for several treatments. *)
Definition warnings_for (d_t_in : list nat) (Ts : list (ndarray R))
  : list (event R) :=
  flat_map (λ T, if decide (scalar_for_many d_t_in T)
                 then [Warn TreatmentExpansionMixin.scalar_warning] else []) Ts.

End ExpansionStatements.

Section FitStatements.
Context {R : Type} `{Scalar R} `{Collaborators R}.

(** The registry of the class [c]. *)
Definition options_of (c : pyclass) : dict inference_type :=
  v_get_inference_options (resolve c).

(** The estimator after [_prefit], and the attribute stores of [_prefit]. *)
Definition recorded (c : pyclass) (Y T : ndarray R) (e : estimator)
  : estimator :=
  let e := set_d_t (drop 1 (shape T)) (set_d_y (drop 1 (shape Y)) e) in
  if treatment_expansion c then set_d_t_in (drop 1 (shape T)) e else e.

Definition record_events (c : pyclass) (self : loc) (Y T : ndarray R)
  : list (event R) :=
  [SetAttr self "_d_y" (AttrShape (drop 1 (shape Y)));
   SetAttr self "_d_t" (AttrShape (drop 1 (shape T)))] ++
  if treatment_expansion c
  then [SetAttr self "_d_t_in" (AttrShape (drop 1 (shape T)))] else [].

End FitStatements.

Section ResolutionStatements.
Context {R : Type} `{Scalar R} `{Collaborators R}.

(** The events of the resolution of the [inference] argument into the
    object at [l']: a string is looked up and its class instantiated (at
    [src]), an object is taken as it is ([src] is the object), and the
    object at [src] is deep-copied to [l']. *)
Definition resolution_events (options : dict inference_type)
    (inference : inference_arg) (src l' : loc) : list (event R) :=
  match inference with
  | ArgStr s =>
      match dict_get s options with
      | Some c => [Construct c src; Deepcopy src l']
      | None => []
      end
  | ArgObject _ => [Deepcopy src l']
  | ArgNone => []
  end.

(** The calls of a wrapped [fit] after the resolution, in the order of
    [_wrap_fit], for the inference object [x]. *)
Definition fit_events (c : pyclass) (self : loc) (Y T : ndarray R)
    (args : FitArgs) (x : option loc) : list (event R) :=
  record_events c self Y T ++
  (if x is Some l' then [CallPrefit l' self Y T args] else []) ++
  [CallFitBody self Y T args] ++
  (if x is Some l' then [CallFit l' self Y T args] else []) ++
  [SetAttr self "_inference" (AttrRef x)].

End ResolutionStatements.

Section FrameStatements.
Context {R : Type} `{Types}.

(** A computation that, started from a heap that extends [h0], keeps the
    objects of [h0] other than [self] as they are (and forgets no
    object). *)
Definition frames (h0 : gmap loc object) (self : loc) {A} (m : M R A) : Prop :=
  ∀ w r w',
    dom h0 ⊆ dom (heap w) → m w = (r, w') →
    dom (heap w) ⊆ dom (heap w') ∧
    ∀ l, l ∈ dom h0 → l ≠ self → heap w' !! l = heap w !! l.

(** A computation that leaves every estimator as it is. *)
Definition keeps_estimators {A} (m : M R A) : Prop :=
  ∀ w r w' l e,
    m w = (r, w') →
    heap w !! l = Some (ObjEstimator e) → heap w' !! l = Some (ObjEstimator e).

(** The dimensions an estimator has recorded. *)
Definition dims (e : estimator) : option (list nat) * option (list nat) *
                                  option (list nat) :=
  (_d_y e, _d_t e, _d_t_in e).

End FrameStatements.

Section DeferredStatements.
Context {R : Type} `{Scalar R} `{Collaborators R}.

(** The methods of this file that are decorated with
    [_defer_to_inference], under their names. *)
Definition deferred_methods
  : list (string * (loc → call_args R → M R (list (ndarray R)))) :=
  [("effect_interval", BaseCateEstimator.effect_interval);
   ("marginal_effect_interval", BaseCateEstimator.marginal_effect_interval);
   ("const_marginal_effect_interval",
      LinearCateEstimator.const_marginal_effect_interval);
   ("coef__interval", StatsModelsCateEstimatorMixin.coef__interval);
   ("intercept__interval", StatsModelsCateEstimatorMixin.intercept__interval)].

(** The error of a deferred method when [_inference] is [None]. *)
Definition inference_is_None (name : string) : exn :=
  AttributeError ("Can't call '" +:+ name +:+ "' because 'inference' is None").

(** The call of the method [name] of the inference object [i] at [l], for
    the estimator [e]: what it returns, and the store after it. *)
Definition forwarded (name : string) (l : loc) (i : Inference)
    (e : estimator) (args : call_args R) (w : world R)
  : result (list (ndarray R)) * world R :=
  let '(i', r) := inference_method name i e args in
  (r, World (<[l := ObjInference i']> (heap w))
            (trace w ++ [CallInference l name args])).

End DeferredStatements.

(** ** Concrete collaborators

    A small estimator over the integers, for running the embedding: the
    body of its fit stores an array as the constant marginal effect, its
    inference object remembers the outcomes it was fitted on, and its
    transformer adds a constant. *)

Module Demo.

Definition types : Types :=
  {| Inference := list Z;
     Fitted := option (ndarray Z);
     Transformer := Z;
     FitArgs := unit |}.
#[local] Existing Instance types.

Definition set_fitted (theta : ndarray Z) (e : estimator) : estimator :=
  Estimator (cls e) (_d_y e) (_d_t e) (_d_t_in e) (_inference e)
            (transformer e) (Some theta).

Definition collaborators : Collaborators Z :=
  {| construct := λ _, [];
     inference_prefit := λ i e Y T _, (i, e, None);
     inference_fit := λ i e Y T _, (data Y, e, None);
     inference_method := λ name i e args,
       (i, Ok [NDArray [length i] i; NDArray [length i] i]);
     fit_body := λ e Y T _, (set_fitted T e, None);
     const_marginal_effect := λ e X,
       match fitted e with
       | Some theta => Ok theta
       | None => Err (Exn "NotFittedError" "call fit first")
       end;
     transform := λ k T, Ok (NDArray (shape T) (Z.add k <$> data T)) |}.
#[local] Existing Instance collaborators.

Definition dml : pyclass := PyClass "DMLCateEstimator" true true.
Definition linear : pyclass := PyClass "LinearCateEstimator" false false.

Definition new (c : pyclass) : estimator :=
  Estimator c None None None None None None.

(** A fit without further arguments. *)
Definition no_args : @FitArgs types := tt.

Definition Y : ndarray Z := NDArray [3] [1; 2; 3]%Z.
Definition T : ndarray Z := NDArray [3; 2] [1; 2; 3; 4; 5; 6]%Z.

(** Two estimators and an inference object. *)
Definition w0 : world Z :=
  World (<[0 := ObjEstimator (new dml)]>
        (<[1 := ObjEstimator (new linear)]>
        (<[2 := ObjInference [7%Z]]> ∅))) [].

(** A fitted estimator with a constant marginal effect of shape
    [(2, 2, 3)], with and without the treatment expansion. *)
Definition theta : ndarray Z :=
  NDArray [2; 2; 3] [1; 2; 3; 4; 5; 6; 7; 8; 9; 10; 11; 12]%Z.
Definition theta1 : ndarray Z := NDArray [1; 2] [5; 7]%Z.

Definition fitted_estimator (c : pyclass) (theta : ndarray Z)
    (tr : option Z) (inference : option loc) : estimator :=
  Estimator c (Some [2]) (Some [3]) (Some [3]) (Some inference) tr (Some theta).

Definition w_fitted : world Z :=
  World (<[0 := ObjEstimator (fitted_estimator dml theta None None)]>
        (<[1 := ObjEstimator (fitted_estimator linear theta1 None (Some 2))]>
        (<[2 := ObjInference [7%Z]]>
        (<[3 := ObjEstimator (fitted_estimator dml theta (Some 10%Z) None)]> ∅))))
        [].

Definition X : ndarray Z := NDArray [2; 1] [0; 0]%Z.
Definition T0 : ndarray Z := NDArray [2; 3] [0; 0; 0; 0; 0; 0]%Z.
Definition T1 : ndarray Z := NDArray [2; 3] [1; 0; 1; 2; 2; 2]%Z.

(** A fit with the option ['statsmodels']. *)
Definition w_statsmodels : world Z :=
  (fit 0 Y T no_args (ArgStr "statsmodels") w0).2.

(** The inference object [2] given to the fit of one estimator and then to
    the fit of another. *)
Definition w1 : world Z := (fit 0 Y T no_args (ArgObject 2) w0).2.
Definition second_fit : result loc * world Z :=
  fit 1 T Y no_args (ArgObject 2) w1.
Definition w2 : world Z := second_fit.2.

(** A fit without inference. *)
Definition w_plain : world Z := (fit 1 Y T no_args ArgNone w0).2.

(** What [_expand_treatments] makes of the scalar 5 and of [T0] for the
    estimator [3], whose transformer adds 10. *)
Definition expanded : list (ndarray Z) :=
  [NDArray [1; 3] [15; 15; 15]%Z; NDArray [2; 3] [10; 10; 10; 10; 10; 10]%Z].

Definition alpha : ndarray Z := np.scalar 1%Z.

End Demo.

(** The same, except that the body of the fit encodes the treatment and
    overwrites [_d_t] with the dimensions of the encoded treatment, as the
    comment in [TreatmentExpansionMixin._prefit] asks of subclasses. *)

Module Encoding.

#[local] Existing Instance Demo.types.

Definition collaborators : Collaborators Z :=
  {| construct := λ _, [];
     inference_prefit := λ i e Y T _, (i, e, None);
     inference_fit := λ i e Y T _, (data Y, e, None);
     inference_method := λ name i e args,
       (i, Ok [NDArray [length i] i; NDArray [length i] i]);
     fit_body := λ e Y T _, (set_d_t [2] (Demo.set_fitted T e), None);
     const_marginal_effect := λ e X,
       match fitted e with
       | Some theta => Ok theta
       | None => Err (Exn "NotFittedError" "call fit first")
       end;
     transform := λ k T, Ok (NDArray (shape T) (Z.add k <$> data T)) |}.

#[local] Existing Instance collaborators.

(** A treatment with three categories, as a vector. *)
Definition T : ndarray Z := NDArray [3] [1; 2; 3]%Z.

(** A fit of the estimator [0] on this treatment. *)
Definition w_encoded : world Z :=
  (fit 0 Demo.Y T Demo.no_args ArgNone Demo.w0).2.

End Encoding.

Module DemoRuns.
#[local] Existing Instance Demo.types.
#[local] Existing Instance Demo.collaborators.

(** The estimator [0] after its fit with ['statsmodels'], and the
    estimator [1] after a fit without inference. *)
Definition estimator_at (w : world Z) (l : loc) : estimator :=
  match heap w !! l with
  | Some (ObjEstimator e) => e
  | _ => Demo.new Demo.linear
  end.

Definition e_statsmodels : estimator := estimator_at Demo.w_statsmodels 0.
Definition e_plain : estimator := estimator_at Demo.w_plain 1.

End DemoRuns.

(** ** Auxiliary definitions of the further properties *)

Section ScalarStatements.
Context {R : Type} `{Scalar R} `{Collaborators R}.

(** The warnings of two scalar treatments. *)
Definition two_scalar_warnings (dt : option nat) : list (event R) :=
  match dt with
  | Some d =>
      if decide (1 < d)
      then [Warn TreatmentExpansionMixin.scalar_warning;
            Warn TreatmentExpansionMixin.scalar_warning]
      else []
  | None => []
  end.

End ScalarStatements.

Section InferenceStatements.
Context {R : Type} `{Scalar R} `{Collaborators R}.

(** The state the inference object of a fit starts from: the state of the
    object that is given, or that of a new instance of the class the
    registry has for the string. *)
Definition initial_inference (c : pyclass) (inference : inference_arg)
    (w : world R) : option Inference :=
  match inference with
  | ArgNone => None
  | ArgStr s => construct <$> dict_get s (options_of c)
  | ArgObject l =>
      match heap w !! l with
      | Some (ObjInference i) => Some i
      | _ => None
      end
  end.

End InferenceStatements.

Section FailureStatements.
Context {R : Type} `{Scalar R} `{Collaborators R}.

(** The collaborators leave an attribute (or a tuple of attributes) of the
    estimator they are given as it is. *)
Definition hooks_keep {A} (f : estimator → A) : Prop :=
  (∀ e Y T a, f (fit_body e Y T a).1 = f e) ∧
  (∀ i e Y T a, f (inference_prefit i e Y T a).1.2 = f e) ∧
  (∀ i e Y T a, f (inference_fit i e Y T a).1.2 = f e).

(** A computation that keeps a property of the estimator at [self],
    whatever its outcome; and one that keeps it when it raises. *)
Definition keeps_at (self : loc) (P : estimator → Prop) {A} (m : M R A)
  : Prop :=
  ∀ w r w' e, is_estimator w self e → P e → m w = (r, w') →
              ∃ e', is_estimator w' self e' ∧ P e'.

Definition keeps_at_when_raising (self : loc) (P : estimator → Prop) {A}
    (m : M R A) : Prop :=
  ∀ w ex w' e, is_estimator w self e → P e → m w = (Err ex, w') →
               ∃ e', is_estimator w' self e' ∧ P e'.

End FailureStatements.

(** Collaborators whose fit body checks its input, as the fit of a
    concrete estimator does: it raises when [Y] and [T] have different
    numbers of rows. *)

Module Failing.

#[local] Existing Instance Demo.types.

Definition inconsistent : exn :=
  ValueError "Found input variables with inconsistent numbers of samples".

Definition collaborators : Collaborators Z :=
  {| construct := λ _, [];
     inference_prefit := λ i e Y T _, (i, e, None);
     inference_fit := λ i e Y T _, (data Y, e, None);
     inference_method := λ name i e args,
       (i, Ok [NDArray [length i] i; NDArray [length i] i]);
     fit_body := λ e Y T _,
       if decide (take 1 (shape Y) = take 1 (shape T))
       then (Demo.set_fitted T e, None)
       else (e, Some inconsistent);
     const_marginal_effect := λ e X,
       match fitted e with
       | Some theta => Ok theta
       | None => Err (Exn "NotFittedError" "call fit first")
       end;
     transform := λ k T, Ok (NDArray (shape T) (Z.add k <$> data T)) |}.
#[local] Existing Instance collaborators.

(** Outcomes for two samples, while [Demo.T] has three. *)
Definition Y2 : ndarray Z := NDArray [2; 4] [1; 2; 3; 4; 5; 6; 7; 8]%Z.

(** The estimator [1] of [Demo.w_fitted], whose [_inference] is the object
    [2], after a fit on [Y2] and [Demo.T] that raises. *)
Definition failed_fit : result loc * world Z :=
  fit 1 Y2 Demo.T Demo.no_args ArgNone Demo.w_fitted.

Definition e_failed : estimator :=
  Estimator Demo.linear (Some [4]) (Some [2]) (Some [3]) (Some (Some 2)) None
            (Some Demo.theta1).

End Failing.

(** The identities by which effects add up: they hold in every
    commutative ring. *)
Class ScalarAdditive (R : Type) `{Scalar R} := {
  add_interchange :
    ∀ a b c d : R, add (add a b) (add c d) = add (add a c) (add b d);
  mul_add_distr_l : ∀ x a b : R, mul x (add a b) = add (mul x a) (mul x b);
  sub_telescope : ∀ a b c : R, add (sub b a) (sub c b) = sub c a;
  zero_add_zero : add zero zero = (zero : R)
}.

#[export] Instance Z_scalar_additive : ScalarAdditive Z.
Proof. split; simpl; intros; lia. Qed.

Section AdditionStatements.
Context {R : Type} `{Scalar R}.

(** [a + b] on arrays, with numpy's broadcasting. *)
Definition ndarray_add (a b : ndarray R) : result (ndarray R) :=
  match broadcast_shapes (shape a) (shape b) with
  | Some sh => Ok (tabulate sh (λ idx, add (getb a idx) (getb b idx)))
  | None => Err (ValueError "operands could not be broadcast together")
  end.

End AdditionStatements.

Section WarningStatements.
Context {R : Type} `{Scalar R} `{Collaborators R}.

(** A computation whose only effect on the store is to emit the warning of
    the treatment expansion, at most [k] times. *)
Definition warns_at_most (k : nat) {A} (m : M R A) : Prop :=
  ∀ w r w', m w = (r, w') →
    heap w' = heap w ∧
    ∃ n, n ≤ k ∧
         trace w' = trace w ++
           replicate n (Warn TreatmentExpansionMixin.scalar_warning).

End WarningStatements.

Section GrowthStatements.
Context {R : Type} `{Types}.

(** A computation that only adds events at the end of the trace. *)
Definition appends {A} (m : M R A) : Prop :=
  ∀ w r w', m w = (r, w') → ∃ t, trace w' = trace w ++ t.

(** The keys of the registry of a class, in the order of the registry. *)
Definition inference_keys (c : pyclass) : list string :=
  if statsmodels_mixin c then ["bootstrap"; "statsmodels"] else ["bootstrap"].

(** The class a key of a registry stands for. *)
Definition inference_class (s : string) : inference_type :=
  if decide (s = "statsmodels") then StatsModelsInference
  else BootstrapInference.

End GrowthStatements.

(** ** An estimator over floating-point numbers

    A linear estimator whose constant marginal effect is [[1, 1]], and a
    treatment with an infinite entry. *)

Module Floats.

#[local] Existing Instance number_scalar.

Definition types : Types :=
  {| Inference := unit;
     Fitted := option (ndarray number);
     Transformer := unit;
     FitArgs := unit |}.
#[local] Existing Instance types.

Definition collaborators : Collaborators number :=
  {| construct := λ _, tt;
     inference_prefit := λ i e Y T _, (i, e, None);
     inference_fit := λ i e Y T _, (i, e, None);
     inference_method := λ name i e args, (i, Ok []);
     fit_body := λ e Y T _, (e, None);
     const_marginal_effect := λ e X,
       match fitted e with
       | Some theta => Ok theta
       | None => Err (Exn "NotFittedError" "call fit first")
       end;
     transform := λ _ T, Ok T |}.
#[local] Existing Instance collaborators.

Definition theta : ndarray number := NDArray [1; 2] [Finite 1; Finite 1].

Definition fitted_estimator : estimator :=
  Estimator (PyClass "LinearCateEstimator" false false)
            (Some []) (Some [2]) None (Some None) None (Some theta).

Definition w : world number :=
  World (<[0 := ObjEstimator fitted_estimator]> ∅) [].

(** [[[inf, 0]]] *)
Definition T : ndarray number := NDArray [1; 2] [PosInf; Finite 0].

End Floats.

(** The constant marginal effect of an outcome and a treatment that are
    both vectors, when there is no [X]: an array without dimension. *)

Module Collapsed.
#[local] Existing Instance Demo.types.
#[local] Existing Instance Demo.collaborators.

Definition theta : ndarray Z := np.scalar 5%Z.

Definition fitted_estimator : estimator :=
  Estimator Demo.linear (Some []) (Some []) None (Some None) None (Some theta).

Definition w : world Z := World (<[0 := ObjEstimator fitted_estimator]> ∅) [].

Definition T0 : ndarray Z := NDArray [3] [0; 0; 0]%Z.
Definition T1 : ndarray Z := NDArray [3] [1; 2; 3]%Z.

End Collapsed.

(** * Properties *)

(** ** Arrays *)

Section ArrayFacts.
Context {R : Type} `{Scalar R}.
Implicit Types (sh idx : list nat) (a : ndarray R).

Lemma length_flat_map_block {A B} (f : A → list B) (n : nat) (l : list A) :
  (∀ x, length (f x) = n) → length (flat_map f l) = length l * n.
Proof.
  intros Hf. induction l as [|x l IH]; simpl; [done|].
  rewrite length_app, Hf, IH. done.
Qed.

Lemma lookup_flat_map_block {A B} (f : A → list B) (n : nat) (l : list A)
    (i j : nat) (x : A) (y : B) :
  (∀ x, length (f x) = n) →
  l !! i = Some x → f x !! j = Some y →
  flat_map f l !! (i * n + j) = Some y.
Proof.
  intros Hf. revert i. induction l as [|x' l IH]; intros i Hi Hj; [done|].
  simpl. destruct i as [|i]; simpl in *.
  - simplify_eq. by apply lookup_app_l_Some.
  - rewrite lookup_app_r; rewrite Hf; [|lia].
    replace (n + i * n + j - n) with (i * n + j) by lia. by apply IH.
Qed.

Lemma flat_map_block_lookup {A B} (f : A → list B) (n : nat) (l : list A)
    (o : nat) (y : B) :
  (∀ x, length (f x) = n) →
  flat_map f l !! o = Some y →
  ∃ i j x, l !! i = Some x ∧ f x !! j = Some y ∧ o = i * n + j.
Proof.
  intros Hf. revert o. induction l as [|x l IH]; intros o Ho; [done|].
  simpl in Ho. apply lookup_app_Some in Ho as [Ho|[Hle Ho]].
  - exists 0, o, x. done.
  - rewrite Hf in Hle, Ho. destruct (IH _ Ho) as (i & j & x' & ? & ? & ?).
    exists (S i), j, x'. split_and!; [done..|simpl; lia].
Qed.

Lemma length_all_indices sh : length (all_indices sh) = size sh.
Proof.
  induction sh as [|d ds IH]; simpl; [done|].
  rewrite (length_flat_map_block _ (size ds)), length_seq; [done|].
  intros i. by rewrite length_map.
Qed.

(** The index at position [o] of the enumeration is the one of offset [o]. *)
Lemma all_indices_offset sh idx o :
  offset sh idx = Some o → all_indices sh !! o = Some idx.
Proof.
  revert idx o. induction sh as [|d ds IH]; intros [|i idx] o Ho;
    simpl in Ho; simplify_eq; [done|].
  case_decide; [|done].
  destruct (offset ds idx) as [o'|] eqn:Ho'; simplify_eq/=.
  apply (lookup_flat_map_block _ (size ds) _ _ _ i).
  - intros x. by rewrite length_map, length_all_indices.
  - by apply lookup_seq_lt.
  - rewrite list_lookup_fmap, (IH _ _ Ho'). done.
Qed.

Lemma all_indices_lookup sh o idx :
  all_indices sh !! o = Some idx → offset sh idx = Some o.
Proof.
  revert idx o. induction sh as [|d ds IH]; intros idx o Ho; simpl in Ho.
  - destruct o; simplify_eq/=; done.
  - apply (flat_map_block_lookup _ (size ds)) in Ho
      as (i & j & x & Hi & Hj & ->).
    2:{ intros x. by rewrite length_map, length_all_indices. }
    apply lookup_seq in Hi as [-> Hlt]. simpl in *.
    rewrite list_lookup_fmap in Hj.
    destruct (all_indices ds !! j) as [idx'|] eqn:Hj'; simplify_eq/=.
    rewrite decide_True by done. by rewrite (IH _ _ Hj').
Qed.

Lemma offset_lt sh idx o : offset sh idx = Some o → o < size sh.
Proof.
  intros Ho%all_indices_offset%lookup_lt_Some.
  by rewrite length_all_indices in Ho.
Qed.

Lemma offset_valid sh idx : Forall2 lt idx sh → is_Some (offset sh idx).
Proof.
  induction 1 as [|i d idx sh Hlt _ [o Ho]]; simpl; [by eexists|].
  rewrite decide_True, Ho by done. by eexists.
Qed.

Lemma offset_Some_valid sh idx o : offset sh idx = Some o → Forall2 lt idx sh.
Proof.
  revert idx o. induction sh as [|d ds IH]; intros [|i idx] o Ho;
    simpl in Ho; simplify_eq; [constructor|].
  case_decide; [|done].
  destruct (offset ds idx) as [o'|] eqn:Ho'; simplify_eq/=.
  constructor; eauto.
Qed.

Lemma get_tabulate sh (f : list nat → R) idx :
  Forall2 lt idx sh → get (tabulate sh f) idx = Some (f idx).
Proof.
  intros [o Ho]%offset_valid. unfold get, tabulate; simpl.
  rewrite Ho; simpl. rewrite list_lookup_fmap, (all_indices_offset _ _ _ Ho).
  done.
Qed.

Lemma getd_tabulate sh (f : list nat → R) idx :
  Forall2 lt idx sh → getd (tabulate sh f) idx = f idx.
Proof. intros Hv. unfold getd. by rewrite get_tabulate. Qed.

Lemma wf_tabulate sh (f : list nat → R) : wf (tabulate sh f).
Proof. unfold wf, tabulate; simpl. by rewrite length_map, length_all_indices. Qed.

Lemma get_is_Some a idx :
  wf a → Forall2 lt idx (shape a) → is_Some (get a idx).
Proof.
  intros Hwf [o Ho]%offset_valid. unfold get. rewrite Ho; simpl.
  apply lookup_lt_is_Some. rewrite Hwf. by eapply offset_lt.
Qed.

Lemma get_getd a idx :
  wf a → Forall2 lt idx (shape a) → get a idx = Some (getd a idx).
Proof. intros Hwf Hv. unfold getd. by destruct (get_is_Some a idx Hwf Hv) as [x ->]. Qed.

(** Every entry of [np.full(shape, v)] is [v]. *)
Lemma get_full sh (v : R) idx :
  Forall2 lt idx sh → get (full sh v) idx = Some v.
Proof.
  intros [o Ho]%offset_valid. unfold get, full; simpl. rewrite Ho; simpl.
  apply lookup_replicate_2. by eapply offset_lt.
Qed.


Lemma broadcast_index_valid sh idx :
  Forall2 lt idx sh → broadcast_index sh idx = idx.
Proof.
  intros Hv. unfold broadcast_index.
  rewrite (Forall2_length _ _ _ Hv), Nat.sub_diag, drop_0.
  induction Hv as [|i d idx sh Hlt _ IH]; simpl; [done|].
  rewrite IH. case_decide; [|done]. f_equal. lia.
Qed.

Lemma broadcast_dim_diag d : broadcast_dim d d = Some d.
Proof. unfold broadcast_dim. by rewrite decide_True. Qed.

Lemma broadcast_rev_diag sh : broadcast_rev sh sh = Some sh.
Proof.
  induction sh as [|d ds IH]; simpl; [done|].
  rewrite broadcast_dim_diag, IH. done.
Qed.

Lemma broadcast_shapes_diag sh : broadcast_shapes sh sh = Some sh.
Proof.
  unfold broadcast_shapes. rewrite broadcast_rev_diag; simpl.
  by rewrite reverse_involutive.
Qed.

(** The difference of two arrays of the same shape, entry by entry. *)
Lemma subtract_same_shape a b sh :
  shape a = sh → shape b = sh →
  ∃ d, subtract a b = Ok d ∧ shape d = sh ∧ wf d ∧
       ∀ idx, Forall2 lt idx sh → getd d idx = sub (getd a idx) (getd b idx).
Proof.
  intros Ha Hb. unfold subtract. rewrite Ha, Hb, broadcast_shapes_diag.
  eexists; split; [done|]. split; [done|]. split; [apply wf_tabulate|].
  intros idx Hv. rewrite getd_tabulate by done. unfold getb.
  rewrite Ha, Hb, broadcast_index_valid by done. done.
Qed.

End ArrayFacts.
Section EinsumFacts.
Context {R : Type} `{Scalar R}.
Implicit Types (sh idx : list nat) (a : ndarray R).

Lemma getb_valid a sh idx :
  shape a = sh → Forall2 lt idx sh → getb a idx = getd a idx.
Proof. intros <- Hv. unfold getb. by rewrite broadcast_index_valid. Qed.

Lemma einsum_effect (eff dT : ndarray R) (m : nat) (dy dt : option nat) :
  shape eff = m :: axes dy ++ axes dt →
  shape dT = m :: axes dt →
  let s0 := "myt,mt->my" in
  let s1 := if decide (ndim dT = 1) then str_replace "t" "" s0 else s0 in
  let s2 := if decide (ndim eff = ndim dT) then str_replace "y" "" s1 else s1 in
  ∃ r, einsum s2 [eff; dT] = Ok r ∧ shape r = m :: axes dy ∧ wf r ∧
       ∀ i y, i < m → Forall2 lt y (axes dy) →
              get r (i :: y) = Some (contraction eff dT dt i y).
Proof.
  intros Heff HdT. unfold ndim. rewrite Heff, HdT.
  destruct dy as [dy|], dt as [dt|]; simpl;
    unfold einsum; simpl; unfold ndim; rewrite Heff, HdT; simpl;
    rewrite ?broadcast_dim_diag; simpl;
    (eexists; split; [reflexivity|]; split; [reflexivity|];
     split; [apply wf_tabulate|]);
    intros i y Hi Hy; simpl in Hy;
    repeat match goal with
           | Hy : Forall2 _ _ (_ :: _) |- _ =>
               apply Forall2_cons_inv_r in Hy as (? & ? & ? & Hy & ->)
           | Hy : Forall2 _ _ [] |- _ => apply Forall2_nil_inv_r in Hy as ->
           end;
    (rewrite get_tabulate by (repeat constructor; done));
    f_equal; simpl; unfold sum_list; try f_equal;
    try (apply map_ext_in; intros t Ht%in_seq);
    unfold term, operand_at; simpl;
    (rewrite (getb_valid eff _ _ Heff) by (repeat constructor; lia));
    (rewrite (getb_valid dT _ _ HdT) by (repeat constructor; lia));
    done.
Qed.
End EinsumFacts.
Section RepeatFacts.
Context {R : Type} `{Scalar R}.
Implicit Types (sh idx : list nat) (a : ndarray R).

Lemma lookup_concat_replicate {A} (l : list A) (n i j : nat) :
  i < n → j < length l →
  concat (replicate n l) !! (i * length l + j) = l !! j.
Proof.
  revert i. induction n as [|n IH]; intros i Hi Hj; [lia|]. simpl.
  destruct i as [|i]; simpl.
  - by rewrite lookup_app_l.
  - rewrite lookup_app_r by lia.
    replace (length l + i * length l + j - length l) with (i * length l + j) by lia.
    apply IH; lia.
Qed.

Lemma length_concat_replicate {A} (l : list A) (n : nat) :
  length (concat (replicate n l)) = n * length l.
Proof. induction n as [|n IH]; simpl; [done|]. rewrite length_app, IH. done. Qed.

Lemma repeat_shape a (n d : nat) ds :
  shape a = d :: ds →
  ∃ r, np.repeat a n = Ok r ∧ shape r = d * n :: ds.
Proof. intros Ha. unfold np.repeat. rewrite Ha. by eexists. Qed.

(** Repeating an array of one row [n] times gives [n] copies of the row. *)
Lemma repeat_one_row a (n : nat) ds :
  shape a = 1 :: ds → wf a →
  ∃ r, np.repeat a n = Ok r ∧ shape r = n :: ds ∧ wf r ∧
       ∀ i idx, i < n → Forall2 lt idx ds →
                get r (i :: idx) = get a (0 :: idx).
Proof.
  intros Ha Hwf. unfold np.repeat. rewrite Ha.
  unfold wf in Hwf. rewrite Ha in Hwf. simpl in Hwf.
  assert (Hlen : length (data a) = size ds) by lia.
  assert (Hrows : rows 1 ds (data a) = [data a]).
  { unfold rows; simpl. rewrite drop_0, <- Hlen, firstn_all. done. }
  rewrite Hrows; simpl. rewrite app_nil_r, Nat.add_0_r.
  eexists; split; [done|]. split; [done|]. split.
  { unfold wf; simpl. by rewrite length_concat_replicate, Hlen. }
  intros i idx Hi Hv. unfold get; simpl. rewrite Ha; simpl.
  rewrite !decide_True by lia.
  destruct (offset_valid _ _ Hv) as [o Ho]. rewrite Ho; simpl.
  rewrite <- Hlen. apply lookup_concat_replicate; [done|].
  rewrite Hlen. by eapply offset_lt.
Qed.

End RepeatFacts.

Section RepeatEntries.
Context {R : Type} `{Scalar R}.
Implicit Types (sh idx : list nat) (a : ndarray R).

Lemma lookup_flat_map_Forall {A B} (f : A → list B) (N : nat) (l : list A)
    (q j : nat) (x : A) :
  Forall (λ x, length (f x) = N) l → l !! q = Some x → j < N →
  flat_map f l !! (q * N + j) = f x !! j.
Proof.
  intros HF. revert q. induction HF as [|x0 l Hx0 HF IH]; intros q Hq Hj;
    [done|].
  destruct q as [|q]; simpl in *.
  - simplify_eq. by rewrite lookup_app_l by lia.
  - rewrite lookup_app_r by lia.
    replace (N + q * N + j - length (f x0)) with (q * N + j) by lia.
    by apply IH.
Qed.

Lemma rows_lookup (d q : nat) ds (l : list R) :
  q < d →
  rows d ds l !! q = Some (take (size ds) (drop (q * size ds) l)).
Proof.
  intros Hq. unfold rows. rewrite list_lookup_fmap.
  by rewrite lookup_seq_lt by done.
Qed.

Lemma rows_length (d : nat) ds (l : list R) :
  length l = d * size ds →
  Forall (λ row, length row = size ds) (rows d ds l).
Proof.
  intros Hl. unfold rows. apply Forall_fmap, Forall_forall.
  intros i [_ Hi]%elem_of_seq. simpl.
  rewrite length_take, length_drop. nia.
Qed.

(** The entries of [np.repeat(a, n, axis=0)]. *)
Lemma repeat_entries a (n : nat) :
  wf a →
  ∃ r, np.repeat a n = Ok r ∧ shape r = repeat_shape_of a n ∧
       ∀ i idx, Forall2 lt (i :: idx) (shape r) →
                get r (i :: idx) = get a (repeat_source a n i idx).
Proof.
  intros Hwf. unfold np.repeat, repeat_shape_of, repeat_source.
  unfold wf in Hwf. destruct (shape a) as [|d ds] eqn:Ha.
  - eexists; split; [done|]. split; [done|]. simpl.
    intros i idx (Hi & ->%Forall2_nil_inv_r)%Forall2_cons_1.
    unfold get; simpl. rewrite Ha; simpl. rewrite decide_True by done. simpl.
    simpl in Hwf. destruct (data a) as [|x [|? ?]] eqn:Hd; simplify_eq/=.
    change (i * 1 + 0) with (i * length [x] + 0).
    by rewrite lookup_concat_replicate by (simpl; lia).
  - eexists; split; [done|]. split; [done|]. simpl.
    intros i idx (Hi & Hv)%Forall2_cons_1.
    change (length (data a) = d * size ds) in Hwf.
    assert (Hn : 0 < n) by (destruct n; [lia|lia]).
    assert (Hq : i / n < d).
    { apply Nat.Div0.div_lt_upper_bound. lia. }
    unfold get; simpl. rewrite Ha; simpl.
    rewrite !decide_True by done.
    destruct (offset_valid _ _ Hv) as [o Ho]. rewrite Ho; simpl.
    pose proof (offset_lt _ _ _ Ho) as Hlt.
    pose proof (rows_length d ds (data a) Hwf) as Hrows.
    assert (Hblocks : Forall (λ row, length (concat (replicate n row))
                                     = n * size ds) (rows d ds (data a))).
    { eapply Forall_impl; [exact Hrows|]. intros row Hrow. simpl.
      by rewrite length_concat_replicate, Hrow. }
    pose proof (Nat.div_mod_eq i n) as Hdm.
    assert (Hp : i mod n < n) by (apply Nat.mod_upper_bound; lia).
    remember (i / n) as q eqn:Heqq. remember (i mod n) as p eqn:Heqp.
    clear Heqq Heqp.
    replace (i * size ds + o)
      with (q * (n * size ds) + (p * size ds + o)) by nia.
    rewrite (lookup_flat_map_Forall _ (n * size ds) _ _ _ _ Hblocks
               (rows_lookup d q ds (data a) Hq)) by nia.
    set (row := take (size ds) (drop (q * size ds) (data a))).
    assert (Hrow : length row = size ds).
    { unfold row. rewrite length_take, length_drop.
      assert (q * size ds + size ds ≤ d * size ds) by nia. lia. }
    rewrite <- Hrow at 1.
    rewrite lookup_concat_replicate by lia.
    unfold row. rewrite lookup_take_lt by done. by rewrite lookup_drop.
Qed.

(** The entries of [a - b]. *)
Lemma subtract_entries a b d :
  np.subtract a b = Ok d →
  broadcast_shapes (shape a) (shape b) = Some (shape d) ∧
  ∀ idx, Forall2 lt idx (shape d) →
         getd d idx = sub (getb a idx) (getb b idx).
Proof.
  unfold subtract.
  destruct (broadcast_shapes (shape a) (shape b)) as [sh|]; [|done].
  intros [= <-]. split; [done|]. intros idx Hv. simpl in *.
  by rewrite getd_tabulate.
Qed.

End RepeatEntries.

(** ** The store *)

Section StoreFacts.
Context {R : Type} `{Scalar R} `{Collaborators R}.
Implicit Types (w : world R) (self l : loc) (e : estimator).

Lemma bind_Ok {A B} (m : M R A) (k : A → M R B) w a w' :
  m w = (Ok a, w') → bind m k w = k a w'.
Proof. intros Hm. unfold bind. by rewrite Hm. Qed.

Lemma bind_Err {A B} (m : M R A) (k : A → M R B) w ex w' :
  m w = (Err ex, w') → bind m k w = (Err ex, w').
Proof. intros Hm. unfold bind. by rewrite Hm. Qed.

Lemma bind_inv {A B} (m : M R A) (k : A → M R B) w r w' :
  bind m k w = (r, w') →
  (∃ a w1, m w = (Ok a, w1) ∧ k a w1 = (r, w')) ∨
  (∃ ex, m w = (Err ex, w') ∧ r = Err ex).
Proof.
  unfold bind. destruct (m w) as [[a|ex] w1]; intros Hk.
  - left. eauto.
  - right. simplify_eq. eauto.
Qed.

Lemma load_estimator_is w self e :
  is_estimator w self e → load_estimator self w = (Ok e, w).
Proof. intros He. unfold load_estimator, load, bind. by rewrite He. Qed.

Lemma vtable_of_is w self e :
  is_estimator w self e → vtable_of self w = (Ok (resolve (cls e)), w).
Proof.
  intros He. unfold vtable_of. by rewrite (bind_Ok _ _ _ _ _ (load_estimator_is _ _ _ He)).
Qed.

End StoreFacts.

Section HeapPreserving.
Context {R : Type} `{Scalar R} `{Collaborators R}.
Implicit Types (w : world R) (self l : loc) (e : estimator).

Lemma hp_ret {A} (a : A) : heap_preserving (R:=R) (ret a).
Proof. intros w r w' Hm. unfold ret in Hm. by simplify_eq. Qed.

Lemma hp_raise {A} (ex : exn) : heap_preserving (R:=R) (A:=A) (raise ex).
Proof. intros w r w' Hm. unfold raise in Hm. by simplify_eq. Qed.

Lemma hp_lift {A} (x : result A) : heap_preserving (R:=R) (lift x).
Proof. intros w r w' Hm. unfold lift in Hm. by simplify_eq. Qed.

Lemma hp_emit (ev : event R) : heap_preserving (emit ev).
Proof. intros w r w' Hm. unfold emit in Hm. by simplify_eq. Qed.

Lemma hp_bind {A B} (m : M R A) (k : A → M R B) :
  heap_preserving m → (∀ a, heap_preserving (k a)) → heap_preserving (bind m k).
Proof.
  intros Hm Hk w r w' Hb. apply bind_inv in Hb as [(a & w1 & Hm1 & Hm2)|(ex & Hm1 & _)].
  - rewrite (Hk _ _ _ _ Hm2). eauto.
  - eauto.
Qed.

Lemma hp_load l : heap_preserving (R:=R) (load l).
Proof.
  intros w r w' Hm. unfold load, bad_reference, raise in Hm.
  destruct (heap w !! l); by simplify_eq.
Qed.

Lemma hp_load_estimator self : heap_preserving (R:=R) (load_estimator self).
Proof.
  apply hp_bind; [apply hp_load|]. intros [e|i]; [apply hp_ret|apply hp_raise].
Qed.

Lemma hp_getattr {A} self name (field : estimator → option A) :
  heap_preserving (R:=R) (getattr self name field).
Proof.
  apply hp_bind; [apply hp_load_estimator|]. intros e.
  destruct (field e); [apply hp_ret|apply hp_raise].
Qed.

Lemma hp_expand_one self n T :
  heap_preserving (TreatmentExpansionMixin.expand_one self n T).
Proof.
  unfold TreatmentExpansionMixin.expand_one.
  repeat first
    [ apply hp_ret | apply hp_emit | apply hp_lift | apply hp_getattr
    | apply hp_load_estimator | (apply hp_bind; [|intros ?])
    | case_decide | case_match ].
Qed.

Lemma hp_expand_loop self n Ts outTs :
  heap_preserving (TreatmentExpansionMixin.expand_loop self n Ts outTs).
Proof.
  revert outTs. induction Ts as [|T Ts IH]; intros outTs; simpl.
  - apply hp_ret.
  - apply hp_bind; [apply hp_expand_one|]. intros T'. apply IH.
Qed.

Lemma hp_v_expand_treatments c self X Ts :
  heap_preserving (v_expand_treatments (resolve c) self X Ts).
Proof.
  unfold resolve; simpl. destruct (treatment_expansion c).
  - unfold TreatmentExpansionMixin._expand_treatments.
    apply hp_bind; [destruct X; [apply hp_lift|apply hp_ret]|]. intros n.
    apply hp_bind; [apply hp_expand_loop|]. intros ?. apply hp_ret.
  - apply hp_ret.
Qed.

Lemma hp_vtable_of self : heap_preserving (R:=R) (vtable_of self).
Proof. apply hp_bind; [apply hp_load_estimator|]. intros e. apply hp_ret. Qed.

(** [_expand_treatments] writes no attribute and no object. *)
Lemma hp_expand_treatments self X Ts :
  heap_preserving (_expand_treatments self X Ts).
Proof.
  intros w r w' Hm. unfold _expand_treatments in Hm.
  apply bind_inv in Hm as [(vt & w1 & Hm1 & Hm2)|(ex & Hm1 & _)].
  - pose proof (hp_vtable_of _ _ _ _ Hm1) as Hw1.
    unfold vtable_of in Hm1.
    apply bind_inv in Hm1 as [(e & w2 & Hm3 & Hm4)|(ex & Hm3 & ?)]; [|done].
    unfold ret in Hm4. simplify_eq.
    rewrite (hp_v_expand_treatments _ _ _ _ _ _ _ Hm2). done.
  - by eapply hp_vtable_of.
Qed.

Lemma hp_call_const_marginal_effect self X :
  heap_preserving (LinearCateEstimator.call_const_marginal_effect self X).
Proof. apply hp_bind; [apply hp_load_estimator|]. intros e. apply hp_lift. Qed.

End HeapPreserving.
Section ExpandFacts.
Context {R : Type} `{Scalar R} `{Collaborators R}.
Implicit Types (w : world R) (self l : loc) (e : estimator).

(** Without the mixin, [_expand_treatments] is the identity. *)
Lemma expand_treatments_base self X Ts w e :
  is_estimator w self e → treatment_expansion (cls e) = false →
  _expand_treatments self X Ts w = (Ok (X, Ts), w).
Proof.
  intros He Hc. unfold _expand_treatments.
  rewrite (bind_Ok _ _ _ _ _ (vtable_of_is _ _ _ He)).
  unfold resolve; simpl. by rewrite Hc.
Qed.

(** [_expand_treatments] returns the [X] it is given. *)
Lemma expand_treatments_X self X Ts w X' Ts' w' :
  _expand_treatments self X Ts w = (Ok (X', Ts'), w') → X' = X.
Proof.
  unfold _expand_treatments, vtable_of. intros Hm.
  apply bind_inv in Hm as [(vt & w1 & Hm1 & Hm2)|(ex & _ & ?)]; [|done].
  apply bind_inv in Hm1 as [(e & w2 & Hm3 & Hm4)|(ex & _ & ?)]; [|done].
  unfold ret in Hm4. simplify_eq. unfold resolve in Hm2; simpl in Hm2.
  destruct (treatment_expansion (cls e)).
  - unfold TreatmentExpansionMixin._expand_treatments in Hm2.
    apply bind_inv in Hm2 as [(n & w3 & Hm5 & Hm6)|(ex & _ & ?)]; [|done].
    apply bind_inv in Hm6 as [(outTs & w4 & Hm7 & Hm8)|(ex & _ & ?)]; [|done].
    unfold ret in Hm8. by simplify_eq.
  - unfold BaseCateEstimator._expand_treatments, ret in Hm2. by simplify_eq.
Qed.

Lemma is_estimator_heap w w' self e :
  heap w' = heap w → is_estimator w self e → is_estimator w' self e.
Proof. unfold is_estimator. by intros ->. Qed.

End ExpandFacts.


Section EinsumAlgebra.
Context {R : Type} `{Scalar R} `{!ScalarNegation R} `{!ScalarCancellation R}.
Implicit Types (sh idx : list nat) (a : ndarray R).






Lemma tabulate_ext sh (f g : list nat → R) :
  (∀ idx, f idx = g idx) → tabulate sh f = tabulate sh g.
Proof. intros Hfg. unfold tabulate. f_equal. by apply map_ext. Qed.










End EinsumAlgebra.
Section LinearFacts.
Context {R : Type} `{Scalar R} `{Collaborators R}.
Implicit Types (w : world R) (self l : loc) (e : estimator).

(** [effect] after [_expand_treatments]. *)
Lemma effect_expanded self X T0 T1 w e T0' T1' w' :
  is_estimator w self e →
  _expand_treatments self X [T0; T1] w = (Ok (X, [T0'; T1']), w') →
  effect self X T0 T1 w = (effect_value e X T0' T1', w').
Proof.
  intros He Hexp.
  assert (He' : is_estimator w' self e).
  { eapply is_estimator_heap; [|done]. by eapply hp_expand_treatments. }
  unfold _expand_treatments in Hexp. unfold effect.
  rewrite (bind_Ok _ _ _ _ _ (vtable_of_is _ _ _ He)) in Hexp.
  rewrite (bind_Ok _ _ _ _ _ (vtable_of_is _ _ _ He)).
  unfold LinearCateEstimator.effect.
  rewrite (bind_Ok _ _ _ _ _ Hexp).
  unfold LinearCateEstimator.call_const_marginal_effect.
  unfold bind, lift, ret. rewrite (load_estimator_is _ _ _ He').
  unfold effect_value, einsum_str.
  destruct (const_marginal_effect e X) as [eff0|ex]; simpl; [|done].
  destruct X as [x|]; simpl.
  - destruct (tuple_item0 (shape eff0)); simpl; [|done].
    by destruct (subtract T1' T0').
  - destruct (tuple_item0 (shape T0')); simpl; [|done].
    destruct (np.repeat eff0 _) as [eff|]; simpl; [|done].
    destruct (tuple_item0 (shape eff)); simpl; [|done].
    by destruct (subtract T1' T0').
Qed.

Lemma marginal_effect_expanded self X T w e T' w' :
  is_estimator w self e →
  _expand_treatments self X [T] w = (Ok (X, [T']), w') →
  marginal_effect self T X w =
  (rbind (const_marginal_effect e X) (λ eff0, repeated X eff0 T'), w').
Proof.
  intros He Hexp.
  assert (He' : is_estimator w' self e).
  { eapply is_estimator_heap; [|done]. by eapply hp_expand_treatments. }
  unfold _expand_treatments in Hexp. unfold marginal_effect.
  rewrite (bind_Ok _ _ _ _ _ (vtable_of_is _ _ _ He)) in Hexp.
  rewrite (bind_Ok _ _ _ _ _ (vtable_of_is _ _ _ He)).
  unfold LinearCateEstimator.marginal_effect.
  rewrite (bind_Ok _ _ _ _ _ Hexp).
  unfold LinearCateEstimator.call_const_marginal_effect.
  unfold bind, lift, ret. rewrite (load_estimator_is _ _ _ He').
  destruct (const_marginal_effect e X) as [eff0|ex]; simpl; [|done].
  destruct X as [x|]; simpl; [done|].
  by destruct (tuple_item0 (shape T')).
Qed.

(** C7 -- [LinearCateEstimator.marginal_effect(T, X)].  With an [X] the
    result is [const_marginal_effect(X)] as it is; without, it is
    [const_marginal_effect(None)] repeated along axis 0 by the row count of
    [T] (of a constant marginal effect of one row: as many rows as [T], each
    equal to that row).  Nothing else of [T] enters the result: in a class
    that keeps the [_expand_treatments] of the base class, two [T] give the
    same result when there is an [X] or when they have the same row
    count. *)
Theorem marginal_effect_is_const_marginal_effect self T X w e T' w' :
  is_estimator w self e →
  _expand_treatments self X [T] w = (Ok (X, [T']), w') →
  (∀ x, X = Some x →
        marginal_effect self T X w = (const_marginal_effect e X, w')) ∧
  (X = None →
     marginal_effect self T X w =
       (rbind (const_marginal_effect e None) (λ eff0,
        rbind (tuple_item0 (shape T')) (λ n, np.repeat eff0 n)), w') ∧
     ∀ eff0 n ds rest,
       const_marginal_effect e None = Ok eff0 →
       shape eff0 = 1 :: ds → wf eff0 → shape T' = n :: rest →
       ∃ r, marginal_effect self T X w = (Ok r, w') ∧
            shape r = n :: ds ∧
            ∀ i idx, i < n → Forall2 lt idx ds →
                     get r (i :: idx) = get eff0 (0 :: idx)) ∧
  (treatment_expansion (cls e) = false →
   ∀ T2, X ≠ None ∨ tuple_item0 (shape T2) = tuple_item0 (shape T) →
         marginal_effect self T2 X w = marginal_effect self T X w).
Proof.
  intros He Hexp. pose proof (marginal_effect_expanded _ _ _ _ _ _ _ He Hexp) as Hm.
  split_and!.
  - intros x ->. rewrite Hm. simpl. by destruct (const_marginal_effect e _).
  - intros ->. split; [done|]. intros eff0 n ds rest Hcme Hsh Hwf HT.
    rewrite Hm, Hcme. simpl. rewrite HT. simpl.
    destruct (repeat_one_row eff0 n ds Hsh Hwf) as (r & -> & ? & _ & ?).
    by exists r.
  - intros Hc T2 HT2.
    rewrite (marginal_effect_expanded _ _ _ _ _ _ _ He
               (expand_treatments_base _ X [T2] _ _ He Hc)).
    rewrite (marginal_effect_expanded _ _ _ _ _ _ _ He
               (expand_treatments_base _ X [T] _ _ He Hc)).
    f_equal. destruct (const_marginal_effect e X) as [eff0|]; simpl; [|done].
    destruct X as [x|]; simpl; [done|]. destruct HT2 as [?| ->]; done.
Qed.

End LinearFacts.

Section EffectFacts.
Context {R : Type} `{Scalar R} `{Collaborators R}.
Implicit Types (w : world R) (self l : loc) (e : estimator).

(** The value of [effect] is the contraction of [eff] and [dT]. *)
Lemma effect_value_contraction e X (T0 T1 : ndarray R) eff0 eff dT
    (m : nat) (dy dt : option nat) :
  const_marginal_effect e X = Ok eff0 →
  repeated X eff0 T0 = Ok eff →
  np.subtract T1 T0 = Ok dT →
  shape eff = m :: axes dy ++ axes dt →
  shape dT = m :: axes dt →
  ∃ r, effect_value e X T0 T1 = Ok r ∧
       shape r = m :: axes dy ∧
       ∀ i y, i < m → Forall2 lt y (axes dy) →
              get r (i :: y) = Some (contraction eff dT dt i y).
Proof.
  intros Hcme Hrep Hsub Heff HdT.
  destruct (einsum_effect eff dT m dy dt Heff HdT) as (r & Hr & Hsh & _ & Hget).
  exists r. split; [|done].
  unfold effect_value. rewrite Hcme; simpl. rewrite Hrep; simpl.
  rewrite Heff; simpl. rewrite Hsub; simpl. done.
Qed.

(** C1 -- [LinearCateEstimator.effect(X, T0=T0, T1=T1)].  Let [eff] be
    [const_marginal_effect(X)], repeated along axis 0 to the row count of
    [T0] when [X] is [None], and [dT = T1 - T0], for the treatments as
    [_expand_treatments] returns them.  Then the call returns the
    contraction [effect[m,y] = Σ_t eff[m,y,t]·dT[m,t]], without the [y]
    axis when [Y] is a vector ([dy = None]) and without the [t] axis when
    [T] is a vector ([dt = None]): the four combinations, with or without
    [X].  Here [dT] is the difference entry by entry,
    [dT[idx] = T1[idx] - T0[idx]] (with numpy's broadcasting), and [eff] is
    [const_marginal_effect(X)] itself when there is an [X] and otherwise
    its repetition by the row count [n] of [T0]: row [i] of [eff] is row
    [i / n] of [const_marginal_effect(None)] (its one row, when it has
    one; its one entry, when it has no dimension). *)
Theorem effect_is_contraction self X T0 T1 w e T0' T1' w'
    eff0 eff dT (m : nat) (dy dt : option nat) :
  is_estimator w self e →
  _expand_treatments self X [T0; T1] w = (Ok (X, [T0'; T1']), w') →
  const_marginal_effect e X = Ok eff0 →
  repeated X eff0 T0' = Ok eff →
  np.subtract T1' T0' = Ok dT →
  shape eff = m :: axes dy ++ axes dt →
  shape dT = m :: axes dt →
  (∃ r, effect self X T0 T1 w = (Ok r, w') ∧
        shape r = m :: axes dy ∧
        ∀ i y, i < m → Forall2 lt y (axes dy) →
               get r (i :: y) = Some (contraction eff dT dt i y)) ∧
  (∀ idx, Forall2 lt idx (m :: axes dt) →
          getd dT idx = sub (getb T1' idx) (getb T0' idx)) ∧
  match X with
  | Some _ => eff = eff0
  | None =>
      ∃ n, tuple_item0 (shape T0') = Ok n ∧
           shape eff = repeat_shape_of eff0 n ∧
           (wf eff0 →
            ∀ i idx, Forall2 lt (i :: idx) (shape eff) →
                     get eff (i :: idx) = get eff0 (repeat_source eff0 n i idx))
  end.
Proof.
  intros He Hexp Hcme Hrep Hsub Heff HdT. split_and!.
  - destruct (effect_value_contraction e X T0' T1' eff0 eff dT m dy dt)
      as (r & Hr & Hrest); [done..|].
    exists r. split; [|done].
    by rewrite (effect_expanded _ _ _ _ _ _ _ _ _ He Hexp), Hr.
  - intros idx Hv. destruct (subtract_entries _ _ _ Hsub) as [_ Hent].
    apply Hent. by rewrite HdT.
  - destruct X as [x|]; simpl in Hrep; [by simplify_eq|].
    destruct (tuple_item0 (shape T0')) as [n|] eqn:Hn; simpl in Hrep; [|done].
    exists n. split; [done|]. split.
    + unfold np.repeat, repeat_shape_of in *.
      destruct (shape eff0); by simplify_eq.
    + intros Hwf.
      destruct (repeat_entries eff0 n Hwf) as (r & Hr & _ & Hget).
      rewrite Hr in Hrep. by simplify_eq.
Qed.

(** The entries of the effect in terms of the constant marginal effect and
    of the two treatments: without [X] every row of the effect is computed
    from the one row of [const_marginal_effect(None)]. *)
Corollary effect_entries self X T0 T1 w e T0' T1' w' eff0
    (m : nat) (dy dt : option nat) :
  is_estimator w self e →
  _expand_treatments self X [T0; T1] w = (Ok (X, [T0'; T1']), w') →
  const_marginal_effect e X = Ok eff0 →
  shape eff0 = (if X is Some _ then m else 1) :: axes dy ++ axes dt →
  wf eff0 →
  shape T0' = m :: axes dt → shape T1' = m :: axes dt →
  ∃ r, effect self X T0 T1 w = (Ok r, w') ∧
       shape r = m :: axes dy ∧
       ∀ i y, i < m → Forall2 lt y (axes dy) →
         let row := if X is Some _ then i else 0 in
         get r (i :: y) = Some
           match dt with
           | Some d =>
               sum_list (map (λ t, mul (getd eff0 (row :: y ++ [t]))
                                       (sub (getd T1' [i; t]) (getd T0' [i; t])))
                             (seq 0 d))
           | None => mul (getd eff0 (row :: y))
                         (sub (getd T1' [i]) (getd T0' [i]))
           end.
Proof.
  intros He Hexp Hcme Heff0 Hwf HT0 HT1.
  destruct (subtract_same_shape T1' T0' _ HT1 HT0) as (dT & Hsub & HdT & _ & HdTget).
  assert (∃ eff, repeated X eff0 T0' = Ok eff ∧
                 shape eff = m :: axes dy ++ axes dt ∧
                 ∀ i idx, i < m → Forall2 lt idx (axes dy ++ axes dt) →
                   getd eff (i :: idx) =
                   getd eff0 ((if X is Some _ then i else 0) :: idx))
    as (eff & Hrep & Heff & Heffget).
  { destruct X as [x|]; simpl.
    - exists eff0. done.
    - rewrite HT0; simpl.
      destruct (repeat_one_row eff0 m _ Heff0 Hwf) as (eff & -> & ? & ? & Hg).
      exists eff. split_and!; [done..|]. intros i idx Hi Hv.
      unfold getd. by rewrite Hg. }
  destruct (effect_value_contraction e X T0' T1' eff0 eff dT m dy dt)
    as (r & Hr & Hsh & Hget); [done..|].
  exists r. split_and!; [|done|].
  { by rewrite (effect_expanded _ _ _ _ _ _ _ _ _ He Hexp), Hr. }
  intros i y Hi Hy row.
  rewrite (Hget i y Hi Hy). f_equal. unfold contraction.
  destruct dt as [d|]; simpl in *.
  - f_equal. apply map_ext_in. intros t Ht%in_seq.
    rewrite Heffget, HdTget; [done| |done|].
    + repeat constructor; lia.
    + apply Forall2_app; [done|]. repeat constructor; lia.
  - rewrite Heffget, HdTget; [done| |done|].
    + repeat constructor; lia.
    + by rewrite app_nil_r.
Qed.

End EffectFacts.

Section DifferenceFacts.
Context {R : Type} `{Scalar R} `{!ScalarNegation R} `{!ScalarCancellation R}
        `{!Types} `{!Collaborators R}.
Implicit Types (w : world R) (self l : loc) (e : estimator).




End DifferenceFacts.

Section DifferenceOfTreatments.
Context {R : Type} `{Scalar R} `{!Types} `{!Collaborators R}.
Implicit Types (w : world R) (self l : loc) (e : estimator).


End DifferenceOfTreatments.

Section ExpansionFacts.
Context {R : Type} `{Scalar R} `{Collaborators R}.
Implicit Types (w : world R) (self l : loc) (e : estimator).

Lemma getattr_is {A} w self e name (field : estimator → option A) v :
  is_estimator w self e → field e = Some v →
  getattr self name field w = (Ok v, w).
Proof.
  intros He Hv. unfold getattr.
  rewrite (bind_Ok _ _ _ _ _ (load_estimator_is _ _ _ He)). by rewrite Hv.
Qed.

Lemma multiple_treatments_spec d_t_in (T : ndarray R) :
  ndim T = 0 →
  TreatmentExpansionMixin.multiple_treatments d_t_in
  = bool_decide (scalar_for_many d_t_in T).
Proof.
  intros HT. unfold scalar_for_many. destruct d_t_in as [|d ds]; simpl.
  - symmetry. apply bool_decide_eq_false. by intros (_ & ? & _).
  - apply bool_decide_ext. split; [done|]. by intros (_ & _ & ?).
Qed.

Lemma expand_one_is w self e d_t_in n T T' :
  is_estimator w self e → _d_t_in e = Some d_t_in →
  apply_transformer (transformer e) (broadcast_scalar n d_t_in T) = Ok T' →
  TreatmentExpansionMixin.expand_one self n T w
  = (Ok T', World (heap w) (trace w ++ warnings_for d_t_in [T])).
Proof.
  intros He Hd Htr. unfold TreatmentExpansionMixin.expand_one.
  unfold broadcast_scalar in Htr. unfold warnings_for; simpl.
  rewrite app_nil_r.
  assert (Hlast : ∀ w1 T1, is_estimator w1 self e →
            apply_transformer (transformer e) T1 = Ok T' →
            (let* e := load_estimator self in
             let* T := match transformer e with
                       | Some tr => lift (transform tr T1)
                       | None => ret T1
                       end in
             ret T) w1 = (Ok T', w1)).
  { intros w1 T1 He1 Htr1.
    rewrite (bind_Ok _ _ _ _ _ (load_estimator_is _ _ _ He1)).
    unfold apply_transformer in Htr1. unfold bind, lift, ret.
    destruct (transformer e); by rewrite ?Htr1; simplify_eq. }
  destruct (decide (ndim T = 0)) as [HT|HT].
  - erewrite bind_Ok; last first.
    { erewrite bind_Ok; [reflexivity|]. by apply (getattr_is _ _ e). }
    rewrite (multiple_treatments_spec _ T HT).
    destruct (decide (scalar_for_many d_t_in T)) as [Hs|Hs].
    + rewrite bool_decide_eq_true_2 by done.
      erewrite bind_Ok; [|reflexivity].
      erewrite bind_Ok; last first.
      { erewrite bind_Ok; [reflexivity|]. by apply (getattr_is _ _ e). }
      by apply Hlast.
    + rewrite bool_decide_eq_false_2 by done.
      erewrite bind_Ok; [|reflexivity].
      erewrite bind_Ok; last first.
      { erewrite bind_Ok; [reflexivity|]. by apply (getattr_is _ _ e). }
      rewrite app_nil_r. rewrite (Hlast w _ He Htr). by destruct w.
  - rewrite decide_False by (by intros (? & _)).
    erewrite bind_Ok; [|reflexivity].
    erewrite bind_Ok; [|reflexivity].
    erewrite bind_Ok; [|reflexivity].
    rewrite app_nil_r. rewrite (Hlast w _ He Htr). by destruct w.
Qed.

Lemma expand_loop_is self e d_t_in n Ts Ts' w outTs :
  is_estimator w self e → _d_t_in e = Some d_t_in →
  result_mapM (λ T, apply_transformer (transformer e)
                      (broadcast_scalar n d_t_in T)) Ts = Ok Ts' →
  TreatmentExpansionMixin.expand_loop self n Ts outTs w
  = (Ok (outTs ++ Ts'), World (heap w) (trace w ++ warnings_for d_t_in Ts)).
Proof.
  intros He Hd. revert Ts' w outTs He.
  induction Ts as [|T Ts IH]; intros Ts' w outTs He Hm; simpl in *.
  - simplify_eq. rewrite !app_nil_r. by destruct w.
  - destruct (apply_transformer _ _) as [T'|] eqn:HT'; simpl in Hm; [|done].
    destruct (result_mapM _ Ts) as [Ts''|] eqn:HTs; simpl in Hm; [|done].
    simplify_eq.
    rewrite (bind_Ok _ _ _ _ _ (expand_one_is _ _ _ _ _ _ _ He Hd HT')).
    rewrite (IH Ts''); [|done..]. simpl.
    unfold warnings_for; simpl. rewrite !app_nil_r, <- !app_assoc. done.
Qed.

(** C3 -- [TreatmentExpansionMixin._expand_treatments(X, *Ts)].  With
    [n_rows] 1 when [X] is [None] and the row count of [X] otherwise, each
    treatment without dimension is replaced by the array of shape
    [(n_rows,) + d_t_in] that holds its value at every index; one warning
    is emitted for each treatment that is a scalar while [d_t_in] is not
    empty with [d_t_in[0] > 1], and none for the others; the transformer,
    when one is configured, is then applied to every treatment; and
    [(X, *Ts')] is returned. *)
Theorem expand_treatments_broadcasts self X Ts w e d_t_in n_rows Ts' :
  is_estimator w self e →
  treatment_expansion (cls e) = true →
  _d_t_in e = Some d_t_in →
  n_rows_of X = Ok n_rows →
  result_mapM (λ T, apply_transformer (transformer e)
                      (broadcast_scalar n_rows d_t_in T)) Ts = Ok Ts' →
  _expand_treatments self X Ts w
  = (Ok (X, Ts'),
     World (heap w)
       (trace w ++
        flat_map (λ T, if decide (scalar_for_many d_t_in T)
                       then [Warn TreatmentExpansionMixin.scalar_warning]
                       else []) Ts)) ∧
  ∀ T, ndim T = 0 →
       shape (broadcast_scalar n_rows d_t_in T) = n_rows :: d_t_in ∧
       ∀ idx, Forall2 lt idx (n_rows :: d_t_in) →
              get (broadcast_scalar n_rows d_t_in T) idx = Some (getd T []).
Proof.
  intros He Hc Hd Hn Hm. split.
  - unfold _expand_treatments.
    rewrite (bind_Ok _ _ _ _ _ (vtable_of_is _ _ _ He)).
    unfold resolve; simpl. rewrite Hc.
    unfold TreatmentExpansionMixin._expand_treatments.
    assert (Hn' : match X with
                  | Some x => lift (tuple_item0 (shape x))
                  | None => ret 1
                  end w = (Ok n_rows, w)).
    { destruct X as [x|]; simpl in Hn; unfold lift, ret; [by rewrite Hn|by simplify_eq]. }
    rewrite (bind_Ok _ _ _ _ _ Hn').
    rewrite (bind_Ok _ _ _ _ _ (expand_loop_is _ _ _ _ _ _ _ [] He Hd Hm)).
    done.
  - intros T HT. unfold broadcast_scalar. rewrite decide_True by done.
    split; [done|]. intros idx Hv. by apply get_full.
Qed.

End ExpansionFacts.

Section FitFacts.
Context {R : Type} `{Scalar R} `{Collaborators R}.
Implicit Types (w : world R) (self l : loc) (e : estimator).

Lemma setattr_is w self e name v set :
  is_estimator w self e →
  setattr self name v set w
  = (Ok (), World (<[self := ObjEstimator (set e)]> (heap w))
                  (trace w ++ [SetAttr self name v])).
Proof.
  intros He. unfold setattr.
  rewrite (bind_Ok _ _ _ _ _ (load_estimator_is _ _ _ He)). done.
Qed.

Lemma is_estimator_insert (h : gmap loc object) (t : list (event R)) self e :
  is_estimator (World (<[self := ObjEstimator e]> h) t) self e.
Proof. unfold is_estimator; simpl. apply lookup_insert_eq. Qed.

Lemma prefit_is w self e Y T args :
  is_estimator w self e →
  v_prefit (resolve (cls e)) self Y T args w
  = (Ok (), World (<[self := ObjEstimator (recorded (cls e) Y T e)]> (heap w))
                  (trace w ++ record_events (cls e) self Y T)).
Proof.
  intros He.
  assert (Hbase : BaseCateEstimator._prefit self Y T args w
    = (Ok (), World (<[self := ObjEstimator
                        (set_d_t (drop 1 (shape T)) (set_d_y (drop 1 (shape Y)) e))]>
                       (heap w))
                    (trace w ++ [SetAttr self "_d_y" (AttrShape (drop 1 (shape Y)));
                                 SetAttr self "_d_t" (AttrShape (drop 1 (shape T)))]))).
  { unfold BaseCateEstimator._prefit.
    rewrite (bind_Ok _ _ _ _ _ (setattr_is _ _ _ _ _ _ He)).
    erewrite setattr_is by apply is_estimator_insert. simpl.
    by rewrite insert_insert_eq, <- app_assoc. }
  unfold resolve, recorded, record_events; simpl.
  destruct (treatment_expansion (cls e)).
  - unfold TreatmentExpansionMixin._prefit.
    rewrite (bind_Ok _ _ _ _ _ Hbase).
    erewrite bind_Ok; last first.
    { eapply getattr_is; [apply is_estimator_insert|]. done. }
    erewrite setattr_is by apply is_estimator_insert. simpl.
    by rewrite insert_insert_eq, <- app_assoc.
  - by rewrite Hbase.
Qed.

(** C5 -- A string that is not a key of the registry of the class: [fit]
    raises the [ValueError] that names the key and lists the keys of the
    registry, and it raises it first: nothing was recorded, no model was
    fitted, the store ([_d_y], [_d_t], [_inference] and everything else) and
    the trace are as before the call. *)
Theorem fit_unknown_inference self Y T args (s : string) w e :
  is_estimator w self e →
  dict_get s (options_of (cls e)) = None →
  fit self Y T args (ArgStr s) w
  = (Err (ValueError ("Inference option '" +:+ s +:+
                      "' not recognized; valid values are " +:+
                      repr_list (dict_keys (options_of (cls e))))),
     w).
Proof.
  intros He Hs. unfold fit.
  rewrite (bind_Ok _ _ _ _ _ (vtable_of_is _ _ _ He)).
  unfold BaseCateEstimator._wrap_fit, BaseCateEstimator._get_inference.
  unfold options_of in Hs. rewrite Hs. done.
Qed.

(** C9 -- The registry of [BaseCateEstimator] has the one key ['bootstrap'],
    for [BootstrapInference]; the registry of
    [StatsModelsCateEstimatorMixin] has the entries of its parent and the
    key ['statsmodels'], for [StatsModelsInference], and no other. *)
Theorem inference_options_registry :
  BaseCateEstimator._get_inference_options
    = [("bootstrap", BootstrapInference)] ∧
  StatsModelsCateEstimatorMixin._get_inference_options
    = BaseCateEstimator._get_inference_options
      ++ [("statsmodels", StatsModelsInference)] ∧
  (∀ k, dict_get k BaseCateEstimator._get_inference_options
        = if decide (k = "bootstrap") then Some BootstrapInference else None) ∧
  (∀ k, dict_get k StatsModelsCateEstimatorMixin._get_inference_options
        = if decide (k = "statsmodels") then Some StatsModelsInference
          else dict_get k BaseCateEstimator._get_inference_options).
Proof.
  split_and!; [done..| |].
  - intros k. simpl. destruct (String.eqb_spec k "bootstrap") as [->|Hk].
    + done.
    + by rewrite decide_False.
  - intros k. simpl.
    destruct (String.eqb_spec k "bootstrap") as [->|Hk]; [done|].
    destruct (String.eqb_spec k "statsmodels") as [->|Hk'].
    + done.
    + by rewrite decide_False.
Qed.

End FitFacts.

Section ResolutionFacts.
Context {R : Type} `{Scalar R} `{Collaborators R}.
Implicit Types (w : world R) (self l : loc) (e : estimator).

Lemma fresh_not_in w : fresh (dom (heap w)) ∉ dom (heap w).
Proof. apply is_fresh. Qed.

Lemma in_dom_ne_fresh (h : gmap loc object) l : l ∈ dom h → l ≠ fresh (dom h).
Proof. intros Hl ->. by apply (is_fresh (dom h)). Qed.

Lemma is_estimator_dom w self e : is_estimator w self e → self ∈ dom (heap w).
Proof. intros He. apply elem_of_dom. by eexists. Qed.

(** The outcomes of [_get_inference]: it raises and changes nothing, or it
    returns [None] for [None], or it returns a new object [l'], the deep
    copy of the object at [src]. *)
Lemma get_inference_cases vt inference w r w1 :
  BaseCateEstimator._get_inference vt inference w = (r, w1) →
  (∃ ex, r = Err ex ∧ w1 = w) ∨
  (r = Ok None ∧ inference = ArgNone ∧ w1 = w) ∨
  (∃ l' src o,
     r = Ok (Some l') ∧ inference ≠ ArgNone ∧
     (l' ∉ dom (heap w)) ∧ l' ≠ src ∧
     heap w1 !! l' = Some o ∧ heap w1 !! src = Some o ∧
     (∀ l, l ∈ dom (heap w) → heap w1 !! l = heap w !! l) ∧
     (∀ l, l ≠ l' → l ≠ src → heap w1 !! l = heap w !! l) ∧
     (if inference is ArgObject l then l = src else src ∉ dom (heap w)) ∧
     (∀ s, inference = ArgStr s →
           is_Some (dict_get s (v_get_inference_options vt))) ∧
     trace w1 = trace w ++
       resolution_events (v_get_inference_options vt) inference src l').
Proof.
  unfold BaseCateEstimator._get_inference. intros Hm.
  destruct inference as [|s|l]; simpl in *.
  - unfold deepcopy, bind, ret in Hm. simplify_eq. right; left. done.
  - destruct (dict_get s _) as [c|] eqn:Hs.
    + unfold BaseCateEstimator.new_inference, deepcopy, bind, alloc, emit, ret, load
        in Hm. simpl in Hm. rewrite lookup_insert_eq in Hm. simpl in Hm.
      simplify_eq. right; right.
      set (l1 := fresh (dom (heap w))).
      set (h1 := <[l1 := ObjInference (construct c)]> (heap w)).
      set (l2 := fresh (dom h1)).
      assert (Hl1 : l1 ∉ dom (heap w)) by apply is_fresh.
      assert (Hl2 : l2 ∉ dom h1) by apply is_fresh.
      assert (Hne : l2 ≠ l1).
      { intros Heq. apply Hl2. rewrite Heq. unfold h1.
        rewrite dom_insert_L. set_solver. }
      exists l2, l1, (ObjInference (construct c)). simpl.
      split_and!; try done.
      * intros Hin. apply Hl2. unfold h1. rewrite dom_insert_L. set_solver.
      * apply lookup_insert_eq.
      * rewrite lookup_insert_ne by done. apply lookup_insert_eq.
      * intros l Hl. unfold h1. rewrite !lookup_insert_ne; [done|..].
        -- intros ->. done.
        -- intros ->. apply Hl2. unfold h1. rewrite dom_insert_L. set_solver.
      * intros l ? ?. unfold h1. by rewrite !lookup_insert_ne.
      * intros ? [= <-]. by rewrite Hs.
      * by rewrite <- app_assoc.
    + unfold bind, raise in Hm. simplify_eq. left. eauto.
  - unfold deepcopy, bind, ret, load in Hm. simpl in Hm.
    destruct (heap w !! l) as [o|] eqn:Hl; simpl in Hm.
    + unfold alloc, emit in Hm. simpl in Hm. simplify_eq. right; right.
      set (l' := fresh (dom (heap w))).
      assert (Hl' : l' ∉ dom (heap w)) by apply is_fresh.
      assert (Hin : l ∈ dom (heap w)). { apply elem_of_dom. by eexists. }
      assert (Hne : l' ≠ l) by (by intros Heq; rewrite Heq in Hl').
      exists l', l, o. simpl. split_and!; try done.
      * apply lookup_insert_eq.
      * by rewrite lookup_insert_ne.
      * intros l0 Hl0. rewrite lookup_insert_ne; [done|]. by intros ->.
      * intros l0 ? ?. by rewrite lookup_insert_ne.
    + unfold bad_reference, raise in Hm. simplify_eq. left. eauto.
Qed.

Lemma call_inference_hook_is hook name ev l self Y T args w i e i' e' raised :
  heap w !! l = Some (ObjInference i) →
  is_estimator w self e →
  hook i e Y T args = (i', e', raised) →
  BaseCateEstimator.call_inference_hook hook name ev l self Y T args w
  = (if raised is Some ex then Err ex else Ok (),
     World (<[self := ObjEstimator e']> (<[l := ObjInference i']> (heap w)))
           (trace w ++ [ev])).
Proof.
  intros Hl He Hhook. unfold BaseCateEstimator.call_inference_hook.
  unfold bind at 1. unfold load. rewrite Hl.
  rewrite (bind_Ok _ _ _ _ _ (load_estimator_is _ _ _ He)).
  unfold bind, emit, store, raise, ret; simpl. rewrite Hhook.
  by destruct raised.
Qed.

Lemma call_inference_hook_Ok_inv hook name ev l self Y T args w w' e :
  is_estimator w self e →
  BaseCateEstimator.call_inference_hook hook name ev l self Y T args w
  = (Ok (), w') →
  ∃ i, heap w !! l = Some (ObjInference i).
Proof.
  intros He. unfold BaseCateEstimator.call_inference_hook.
  unfold bind at 1. unfold load, bad_reference, raise.
  destruct (heap w !! l) as [[e0|i]|]; [|by eauto|done].
  done.
Qed.

Lemma call_fit_body_is self Y T args w e e' raised :
  is_estimator w self e →
  fit_body e Y T args = (e', raised) →
  BaseCateEstimator.call_fit_body self Y T args w
  = (if raised is Some ex then Err ex else Ok (),
     World (<[self := ObjEstimator e']> (heap w))
           (trace w ++ [CallFitBody self Y T args])).
Proof.
  intros He Hbody. unfold BaseCateEstimator.call_fit_body.
  rewrite (bind_Ok _ _ _ _ _ (load_estimator_is _ _ _ He)).
  unfold bind, emit, store, raise, ret; simpl. rewrite Hbody.
  by destruct raised.
Qed.

End ResolutionFacts.
Section WrapFitFacts.
Context {R : Type} `{Scalar R} `{Collaborators R}.
Implicit Types (w : world R) (self l : loc) (e : estimator).

Lemma bind_eq {A B} (m : M R A) (k : A → M R B) w r w1 :
  m w = (r, w1) →
  bind m k w = match r with Ok a => k a w1 | Err ex => (Err ex, w1) end.
Proof. intros Hm. unfold bind. by rewrite Hm. Qed.

(** A wrapped [fit] that returns: the steps it went through. *)
Lemma fit_Ok_inv self Y T args inference w e r w' :
  is_estimator w self e →
  fit self Y T args inference w = (Ok r, w') →
  ∃ x w1 e4,
    BaseCateEstimator._get_inference (resolve (cls e)) inference w = (Ok x, w1) ∧
    r = self ∧
    trace w' = trace w1 ++ fit_events (cls e) self Y T args x ∧
    is_estimator w' self (set_inference x e4) ∧
    (∀ l, l ≠ self → Some l ≠ x → heap w' !! l = heap w1 !! l) ∧
    match x with
    | None => fit_body (recorded (cls e) Y T e) Y T args = (e4, None)
    | Some l' =>
        ∃ i0 i1 e2 e3 i2,
          l' ≠ self ∧
          heap w1 !! l' = Some (ObjInference i0) ∧
          inference_prefit i0 (recorded (cls e) Y T e) Y T args = (i1, e2, None) ∧
          fit_body e2 Y T args = (e3, None) ∧
          inference_fit i1 e3 Y T args = (i2, e4, None) ∧
          heap w' !! l' = Some (ObjInference i2)
    end.
Proof.
  intros He Hfit. unfold fit in Hfit.
  rewrite (bind_Ok _ _ _ _ _ (vtable_of_is _ _ _ He)) in Hfit.
  unfold BaseCateEstimator._wrap_fit in Hfit.
  apply bind_inv in Hfit as [(x & w1 & Hres & Hfit)|(ex & _ & ?)]; [|done].
  exists x, w1.
  assert (He1 : is_estimator w1 self e ∧ (∀ l', x = Some l' → l' ≠ self)).
  { apply get_inference_cases in Hres
      as [(ex & ? & ?)|[(? & ? & ->)|(l' & src & o & ? & _ & Hl' & _ & _ & _ & Hdom & _)]];
      simplify_eq.
    - done.
    - split.
      + unfold is_estimator. rewrite Hdom; [done|]. by eapply is_estimator_dom.
      + intros ? [= <-] ->. apply Hl'. by eapply is_estimator_dom. }
  destruct He1 as [He1 Hne].
  rewrite (bind_Ok _ _ _ _ _ (prefit_is _ _ _ Y T args He1)) in Hfit.
  set (e1 := recorded (cls e) Y T e) in *.
  destruct x as [l'|].
  - specialize (Hne l' eq_refl).
    apply bind_inv in Hfit as [([] & w3 & Hpre & Hfit)|(ex & _ & ?)]; [|done].
    destruct (call_inference_hook_Ok_inv _ _ _ _ _ _ _ _ _ _ e1
                (is_estimator_insert _ _ _ _) Hpre) as [i0 Hi0].
    destruct (inference_prefit i0 e1 Y T args) as [[i1 e2] raised1] eqn:Hhook1.
    rewrite (call_inference_hook_is _ _ _ _ _ _ _ _ _ _ _ _ _ _ Hi0
               (is_estimator_insert _ _ _ _) Hhook1) in Hpre.
    destruct raised1; [done|]. simplify_eq. simpl in Hi0.
    destruct (fit_body e2 Y T args) as [e3 raised2] eqn:Hbody.
    rewrite (bind_eq _ _ _ _ _
               (call_fit_body_is _ _ _ _ _ _ _ _ (is_estimator_insert _ _ _ _) Hbody))
      in Hfit.
    destruct raised2; [done|]. simpl in Hfit.
    destruct (inference_fit i1 e3 Y T args) as [[i2 e4] raised3] eqn:Hhook2.
    match type of Hfit with
    | bind _ _ ?w0 = _ =>
        assert (Hi1 : heap w0 !! l' = Some (ObjInference i1))
          by (simpl; rewrite !lookup_insert_ne by done; apply lookup_insert_eq)
    end.
    rewrite (bind_eq _ _ _ _ _
               (call_inference_hook_is _ _ _ _ _ _ _ _ _ _ _ _ _ _ Hi1
                  (is_estimator_insert _ _ _ _) Hhook2)) in Hfit.
    destruct raised3; [done|]. simpl in Hfit.
    erewrite (bind_Ok _ _ _ _ _ (setattr_is _ _ _ _ _ _ (is_estimator_insert _ _ _ _)))
      in Hfit.
    unfold ret in Hfit. simpl in Hfit.
    simplify_eq. exists e4. split_and!; try done.
    + simpl. unfold fit_events. by rewrite <- !app_assoc.
    + apply is_estimator_insert.
    + intros l ? ?. simpl. rewrite !lookup_insert_ne; congruence.
    + rewrite lookup_insert_ne in Hi0 by done.
      exists i0, i1, e2, e3, i2. split_and!; try done.
      simpl. rewrite !lookup_insert_ne by done. apply lookup_insert_eq.
  - unfold bind at 1 in Hfit. unfold ret at 1 in Hfit.
    destruct (fit_body e1 Y T args) as [e3 raised2] eqn:Hbody.
    rewrite (bind_eq _ _ _ _ _
               (call_fit_body_is _ _ _ _ _ _ _ _ (is_estimator_insert _ _ _ _) Hbody))
      in Hfit.
    destruct raised2; [done|]. simpl in Hfit.
    unfold bind at 1 in Hfit. unfold ret at 1 in Hfit.
    erewrite (bind_Ok _ _ _ _ _ (setattr_is _ _ _ _ _ _ (is_estimator_insert _ _ _ _)))
      in Hfit.
    unfold ret in Hfit. simpl in Hfit.
    simplify_eq. exists e3. split_and!; try done.
    + simpl. unfold fit_events. by rewrite <- !app_assoc.
    + apply is_estimator_insert.
    + intros l ? ?. simpl. by rewrite !lookup_insert_ne.
Qed.

End WrapFitFacts.
Section OrderFacts.
Context {R : Type} `{Scalar R} `{Collaborators R}.
Implicit Types (w : world R) (self l : loc) (e : estimator).

(** A wrapped [fit] with an [inference] that is not [None], when it
    returns: its trace, the states its steps worked on, and its result. *)
Lemma fit_returns_steps self Y T args inference w e r w' :
  is_estimator w self e →
  inference ≠ ArgNone →
  fit self Y T args inference w = (Ok r, w') →
  ∃ src l' i0 i1 e2 e3 i2 e4,
    (l' ∉ dom (heap w)) ∧
    match inference with
    | ArgStr s => is_Some (dict_get s (options_of (cls e)))
    | ArgObject l => l = src
    | ArgNone => False
    end ∧
    trace w' = trace w ++
      resolution_events (options_of (cls e)) inference src l' ++
      [SetAttr self "_d_y" (AttrShape (drop 1 (shape Y)));
       SetAttr self "_d_t" (AttrShape (drop 1 (shape T)))] ++
      (if treatment_expansion (cls e)
       then [SetAttr self "_d_t_in" (AttrShape (drop 1 (shape T)))] else []) ++
      [CallPrefit l' self Y T args;
       CallFitBody self Y T args;
       CallFit l' self Y T args;
       SetAttr self "_inference" (AttrRef (Some l'))] ∧
    inference_prefit i0 (recorded (cls e) Y T e) Y T args = (i1, e2, None) ∧
    fit_body e2 Y T args = (e3, None) ∧
    inference_fit i1 e3 Y T args = (i2, e4, None) ∧
    is_estimator w' self (set_inference (Some l') e4) ∧
    is_inference w' l' i2 ∧
    r = self.
Proof.
  intros He Hinf Hfit.
  destruct (fit_Ok_inv _ _ _ _ _ _ _ _ _ He Hfit)
    as (x & w1 & e4 & Hres & -> & Htr & He' & _ & Hx).
  apply get_inference_cases in Hres
    as [(ex & ? & ?)|[(? & ? & ->)|(l' & src & o & ? & _ & Hl' & _ & _ & _ & _
                                    & _ & Hsrc & Hstr & Htr1)]];
    simplify_eq.
  destruct Hx as (i0 & i1 & e2 & e3 & i2 & _ & _ & Hp & Hb & Hf & Hi2).
  exists src, l', i0, i1, e2, e3, i2, e4. split_and!; try done.
  - destruct inference as [|s|l]; [done|by apply Hstr|done].
  - rewrite Htr, Htr1. unfold fit_events, record_events, options_of.
    rewrite <- !app_assoc. done.
Qed.

End OrderFacts.

Section FrameFacts.
Context {R : Type} `{Scalar R} `{Collaborators R}.
Implicit Types (w : world R) (self l : loc) (e : estimator)
               (h : gmap loc object).

Lemma hp_frames h self {A} (m : M R A) : heap_preserving m → frames h self m.
Proof. intros Hm w r w' _ Hw. by rewrite (Hm _ _ _ Hw). Qed.

Lemma frames_bind h self {A B} (m : M R A) (k : A → M R B) :
  frames h self m → (∀ a, frames h self (k a)) → frames h self (bind m k).
Proof.
  intros Hm Hk w r w' Hdom Hb.
  apply bind_inv in Hb as [(a & w1 & Hm1 & Hm2)|(ex & Hm1 & _)].
  - destruct (Hm _ _ _ Hdom Hm1) as [Hd1 Hf1].
    destruct (Hk a _ _ _ (transitivity Hdom Hd1) Hm2) as [Hd2 Hf2].
    split; [by etrans|]. intros l Hl Hne. rewrite Hf2, Hf1; done.
  - eauto.
Qed.

Lemma frames_store h self l (o : object) :
  l = self ∨ l ∉ dom h → frames (R:=R) h self (store l o).
Proof.
  intros Hcase w r w' Hdom Hm. unfold store in Hm. simplify_eq. simpl. split.
  - rewrite dom_insert_L. apply union_subseteq_r.
  - intros l0 Hl0 Hne. rewrite lookup_insert_ne; [done|].
    intros ->. by destruct Hcase.
Qed.

Lemma frames_alloc h self (o : object) : frames (R:=R) h self (alloc o).
Proof.
  intros w r w' Hdom Hm. unfold alloc in Hm. simplify_eq. simpl. split.
  - rewrite dom_insert_L. apply union_subseteq_r.
  - intros l0 Hl0 Hne. rewrite lookup_insert_ne; [done|].
    intros Heq. apply (is_fresh (dom (heap w))). rewrite Heq. by apply Hdom.
Qed.

Lemma frames_setattr h self name v set :
  frames (R:=R) h self (setattr self name v set).
Proof.
  apply frames_bind; [apply hp_frames, hp_load_estimator|]. intros e.
  apply frames_bind; [apply frames_store; by left|]. intros _.
  apply hp_frames, hp_emit.
Qed.

Lemma frames_prefit h self c Y T args :
  frames h self (v_prefit (resolve c) self Y T args).
Proof.
  assert (Hbase : frames h self (BaseCateEstimator._prefit self Y T args)).
  { apply frames_bind; [apply frames_setattr|]. intros _. apply frames_setattr. }
  unfold resolve; simpl. destruct (treatment_expansion c); [|done].
  apply frames_bind; [done|]. intros _.
  apply frames_bind; [apply hp_frames, hp_getattr|]. intros d.
  apply frames_setattr.
Qed.

Lemma frames_hook h self hook name ev l' Y T args :
  l' ∉ dom h →
  frames (R:=R) h self
    (BaseCateEstimator.call_inference_hook hook name ev l' self Y T args).
Proof.
  intros Hl'. unfold BaseCateEstimator.call_inference_hook.
  apply frames_bind; [apply hp_frames, hp_load|]. intros [e0|i].
  { apply hp_frames, hp_raise. }
  apply frames_bind; [apply hp_frames, hp_load_estimator|]. intros e.
  apply frames_bind; [apply hp_frames, hp_emit|]. intros _.
  destruct (hook i e Y T args) as [[i' e'] raised].
  apply frames_bind; [apply frames_store; by right|]. intros _.
  apply frames_bind; [apply frames_store; by left|]. intros _.
  destruct raised; apply hp_frames; [apply hp_raise|apply hp_ret].
Qed.

Lemma frames_fit_body h self Y T args :
  frames h self (BaseCateEstimator.call_fit_body self Y T args).
Proof.
  unfold BaseCateEstimator.call_fit_body.
  apply frames_bind; [apply hp_frames, hp_load_estimator|]. intros e.
  apply frames_bind; [apply hp_frames, hp_emit|]. intros _.
  destruct (fit_body e Y T args) as [e' raised].
  apply frames_bind; [apply frames_store; by left|]. intros _.
  destruct raised; apply hp_frames; [apply hp_raise|apply hp_ret].
Qed.

(** Whatever its outcome, a wrapped [fit] leaves every object that existed
    before the call, other than [self], as it was. *)
Lemma fit_frame self Y T args inference w r w' :
  fit self Y T args inference w = (r, w') →
  dom (heap w) ⊆ dom (heap w') ∧
  ∀ l, l ∈ dom (heap w) → l ≠ self → heap w' !! l = heap w !! l.
Proof.
  intros Hfit. unfold fit in Hfit.
  apply bind_inv in Hfit as [(vt & w0 & Hvt & Hfit)|(ex & Hvt & _)]; last first.
  { by rewrite (hp_vtable_of _ _ _ _ Hvt). }
  pose proof (hp_vtable_of _ _ _ _ Hvt) as Hw0.
  unfold vtable_of in Hvt.
  apply bind_inv in Hvt as [(e & w2 & _ & Hret)|(ex & _ & ?)]; [|done].
  unfold ret in Hret. simplify_eq. rewrite <- Hw0. clear Hw0.
  unfold BaseCateEstimator._wrap_fit in Hfit.
  apply bind_inv in Hfit as [(x & w1 & Hres & Hfit)|(ex & Hres & _)]; last first.
  { apply get_inference_cases in Hres as [(? & ? & ->)|[(? & _)|(? & ? & ? & ? & _)]];
      done. }
  assert (Hx : dom (heap w0) ⊆ dom (heap w1) ∧
               (∀ l, l ∈ dom (heap w0) → heap w1 !! l = heap w0 !! l) ∧
               ∀ l', x = Some l' → l' ∉ dom (heap w0)).
  { apply get_inference_cases in Hres
      as [(ex & ? & ?)|[(? & ? & ->)|(l' & src & o & ? & _ & Hl' & _ & _ & _
                                      & Hdom & _)]]; simplify_eq.
    - done.
    - split_and!; [|done|by intros ? [= <-]].
      intros l Hl. apply elem_of_dom. rewrite Hdom by done. by apply elem_of_dom. }
  destruct Hx as (Hd1 & Hf1 & Hx).
  assert (Hrest : frames (heap w0) self
    (v_prefit (resolve (cls e)) self Y T args;;
     match x with
     | Some l => BaseCateEstimator.call_inference_hook inference_prefit "prefit"
                   (CallPrefit l self Y T args) l self Y T args
     | None => ret ()
     end;;
     BaseCateEstimator.call_fit_body self Y T args;;
     match x with
     | Some l => BaseCateEstimator.call_inference_hook inference_fit "fit"
                   (CallFit l self Y T args) l self Y T args
     | None => ret ()
     end;;
     setattr self "_inference" (AttrRef x) (set_inference x);;
     ret self)).
  { apply frames_bind; [apply frames_prefit|]. intros _.
    apply frames_bind.
    { destruct x; [apply frames_hook; by apply Hx|apply hp_frames, hp_ret]. }
    intros _. apply frames_bind; [apply frames_fit_body|]. intros _.
    apply frames_bind.
    { destruct x; [apply frames_hook; by apply Hx|apply hp_frames, hp_ret]. }
    intros _. apply frames_bind; [apply frames_setattr|]. intros _.
    apply hp_frames, hp_ret. }
  destruct (Hrest _ _ _ Hd1 Hfit) as [Hd2 Hf2].
  split; [by etrans|]. intros l Hl Hne. rewrite Hf2, Hf1; done.
Qed.

End FrameFacts.
Section AliasingFacts.
Context {R : Type} `{Scalar R} `{Collaborators R}.
Implicit Types (w : world R) (self l : loc) (e : estimator).

Lemma getattr_eq {A} w self e name (field : estimator → option A) :
  is_estimator w self e →
  getattr self name field w
  = (match field e with
     | Some v => Ok v
     | None => Err (no_attribute (ObjEstimator e) name)
     end, w).
Proof.
  intros He. unfold getattr.
  rewrite (bind_Ok _ _ _ _ _ (load_estimator_is _ _ _ He)).
  by destruct (field e).
Qed.

(** A call of a method of the inference object at [l]. *)
Lemma call_inference_method_eq l name self args w e :
  is_estimator w self e →
  BaseCateEstimator.call_inference_method l name self args w
  = match heap w !! l with
    | Some (ObjInference i) =>
        let '(i', r) := inference_method name i e args in
        (r, World (<[l := ObjInference i']> (heap w))
                  (trace w ++ [CallInference l name args]))
    | Some (ObjEstimator e0) => (Err (no_attribute (ObjEstimator e0) name), w)
    | None => (Err (Exn "ReferenceError" "no such object"), w)
    end.
Proof.
  intros He. unfold BaseCateEstimator.call_inference_method.
  unfold bind at 1. unfold load.
  destruct (heap w !! l) as [[e0|i]|]; [done| |done].
  rewrite (bind_Ok _ _ _ _ _ (load_estimator_is _ _ _ He)).
  unfold bind, emit, store, lift; simpl.
  by destruct (inference_method name i e args).
Qed.



End AliasingFacts.
Section DimensionFacts.
Context {R : Type} `{Scalar R} `{Collaborators R}.
Implicit Types (w : world R) (self l : loc) (e : estimator).

Lemma hp_keeps {A} (m : M R A) : heap_preserving m → keeps_estimators m.
Proof. intros Hm w r w' l e Hw. by rewrite (Hm _ _ _ Hw). Qed.

Lemma hp_with_vtable {A} self (f : vtable R → M R A) :
  (∀ c, heap_preserving (f (resolve c))) →
  heap_preserving (let* vt := vtable_of self in f vt).
Proof.
  intros Hf w r w' Hm.
  apply bind_inv in Hm as [(vt & w1 & Hm1 & Hm2)|(ex & Hm1 & _)].
  - pose proof (hp_vtable_of _ _ _ _ Hm1) as Hw1. unfold vtable_of in Hm1.
    apply bind_inv in Hm1 as [(e & w2 & _ & Hm4)|(ex & _ & ?)]; [|done].
    unfold ret in Hm4. simplify_eq. rewrite (Hf _ _ _ _ Hm2). done.
  - by eapply hp_vtable_of.
Qed.

Lemma hp_repeated_or_not self (X : option (ndarray R)) (T eff : ndarray R) :
  heap_preserving (R:=R)
    match X with
    | Some _ => ret eff
    | None => let* n := lift (tuple_item0 (shape T)) in lift (np.repeat eff n)
    end.
Proof.
  destruct X; [apply hp_ret|].
  apply hp_bind; [apply hp_lift|]. intros n. apply hp_lift.
Qed.

Lemma hp_effect self X T0 T1 : heap_preserving (effect self X T0 T1).
Proof.
  apply hp_with_vtable. intros c. unfold LinearCateEstimator.effect.
  apply hp_bind; [apply hp_v_expand_treatments|]. intros [X' Ts].
  destruct Ts as [|T0' [|T1' [|? ?]]]; try apply hp_raise.
  apply hp_bind; [apply hp_call_const_marginal_effect|]. intros eff.
  apply hp_bind; [by apply hp_repeated_or_not|]. intros eff'.
  apply hp_bind; [apply hp_lift|]. intros m.
  apply hp_bind; [apply hp_lift|]. intros dT. apply hp_lift.
Qed.

Lemma hp_marginal_effect self T X : heap_preserving (marginal_effect self T X).
Proof.
  apply hp_with_vtable. intros c. unfold LinearCateEstimator.marginal_effect.
  apply hp_bind; [apply hp_v_expand_treatments|]. intros [X' Ts].
  destruct Ts as [|T' [|? ?]]; try apply hp_raise.
  apply hp_bind; [apply hp_call_const_marginal_effect|]. intros eff.
  by apply hp_repeated_or_not.
Qed.

Lemma keeps_bind {A B} (m : M R A) (k : A → M R B) :
  keeps_estimators m → (∀ a, keeps_estimators (k a)) →
  keeps_estimators (bind m k).
Proof.
  intros Hm Hk w r w' l e Hb He.
  apply bind_inv in Hb as [(a & w1 & Hm1 & Hm2)|(ex & Hm1 & _)].
  - eapply Hk; [done|]. by eapply Hm.
  - by eapply Hm.
Qed.

Lemma keeps_call_inference_method l name self args :
  keeps_estimators (BaseCateEstimator.call_inference_method l name self args).
Proof.
  intros w r w' l0 e0 Hm He0.
  unfold BaseCateEstimator.call_inference_method in Hm.
  apply bind_inv in Hm as [(o & w1 & Hm1 & Hm2)|(ex & Hm1 & _)]; last first.
  { by rewrite (hp_load _ _ _ _ Hm1). }
  pose proof (hp_load _ _ _ _ Hm1) as Hw1. unfold load in Hm1.
  destruct (heap w !! l) as [o'|] eqn:Hl; [|done]. simplify_eq.
  destruct o as [e1|i]; [unfold raise in Hm2; by simplify_eq|].
  apply bind_inv in Hm2 as [(e & w2 & Hm3 & Hm4)|(ex & Hm3 & _)]; last first.
  { by rewrite (hp_load_estimator _ _ _ _ Hm3). }
  rewrite <- (hp_load_estimator _ _ _ _ Hm3) in He0, Hl.
  unfold bind, emit, store, lift in Hm4. simpl in Hm4.
  destruct (inference_method name i e args) as [i' r']. simplify_eq. simpl.
  rewrite lookup_insert_ne; [done|]. intros ->. congruence.
Qed.

Lemma keeps_defer_to_inference name self args :
  keeps_estimators (BaseCateEstimator._defer_to_inference name self args).
Proof.
  apply keeps_bind; [apply hp_keeps, hp_getattr|]. intros [l|].
  - apply keeps_call_inference_method.
  - apply hp_keeps, hp_raise.
Qed.

Lemma keeps_for_each {A B} (f : A → M R B) (l : list A) :
  (∀ a, keeps_estimators (f a)) →
  keeps_estimators (LinearCateEstimator.for_each f l).
Proof.
  intros Hf. induction l as [|a l IH]; simpl; [apply hp_keeps, hp_ret|].
  apply keeps_bind; [done|]. intros b.
  apply keeps_bind; [done|]. intros bs. apply hp_keeps, hp_ret.
Qed.

Lemma keeps_marginal_effect_interval self T X alpha :
  keeps_estimators (LinearCateEstimator.marginal_effect_interval self T X alpha).
Proof.
  apply keeps_bind; [apply keeps_defer_to_inference|]. intros effs.
  apply keeps_for_each. intros eff. by apply hp_keeps, hp_repeated_or_not.
Qed.

Lemma dims_recorded c (Y T : ndarray R) e :
  _d_y (recorded c Y T e) = Some (drop 1 (shape Y)) ∧
  _d_t (recorded c Y T e) = Some (drop 1 (shape T)) ∧
  (treatment_expansion c = true →
   _d_t_in (recorded c Y T e) = Some (drop 1 (shape T))).
Proof. unfold recorded. by destruct (treatment_expansion c). Qed.

(** C8, as the code has it -- [_prefit], the first step of a wrapped [fit]
    after the resolution of the option, sets [_d_y] to [shape(Y)[1:]] and
    [_d_t] to [shape(T)[1:]], and in a class with
    [TreatmentExpansionMixin] also [_d_t_in] to the same [shape(T)[1:]].
    They have these values when [fit] returns provided that the body of
    the wrapped fit and the [prefit] and [fit] of the inference object
    leave them alone.  No other operation of this module assigns them:
    [_expand_treatments], [effect], [marginal_effect] and the methods
    deferred to the inference object leave every estimator as it is. *)
Theorem dimensions_recorded self Y T args inference w e :
  is_estimator w self e →
  (∃ w2 e1,
     v_prefit (resolve (cls e)) self Y T args w = (Ok (), w2) ∧
     is_estimator w2 self e1 ∧
     _d_y e1 = Some (drop 1 (shape Y)) ∧
     _d_t e1 = Some (drop 1 (shape T)) ∧
     (treatment_expansion (cls e) = true →
      _d_t_in e1 = Some (drop 1 (shape T)))) ∧
  ((∀ e0 Y0 T0 a, dims (fit_body e0 Y0 T0 a).1 = dims e0) →
   (∀ i e0 Y0 T0 a, dims (inference_prefit i e0 Y0 T0 a).1.2 = dims e0) →
   (∀ i e0 Y0 T0 a, dims (inference_fit i e0 Y0 T0 a).1.2 = dims e0) →
   ∀ r w',
     fit self Y T args inference w = (Ok r, w') →
     ∃ e', is_estimator w' self e' ∧
           _d_y e' = Some (drop 1 (shape Y)) ∧
           _d_t e' = Some (drop 1 (shape T)) ∧
           (treatment_expansion (cls e) = true →
            _d_t_in e' = Some (drop 1 (shape T)))) ∧
  (∀ self' X Ts, keeps_estimators (_expand_treatments self' X Ts)) ∧
  (∀ self' X T0 T1, keeps_estimators (effect self' X T0 T1)) ∧
  (∀ self' T' X, keeps_estimators (marginal_effect self' T' X)) ∧
  (∀ name self' cargs,
     keeps_estimators (BaseCateEstimator._defer_to_inference name self' cargs)) ∧
  (∀ self' T' X alpha,
     keeps_estimators
       (LinearCateEstimator.marginal_effect_interval self' T' X alpha)).
Proof.
  intros He. split_and!.
  - eexists _, _. split; [by apply prefit_is|]. split; [apply is_estimator_insert|].
    apply dims_recorded.
  - intros Hbody Hpre Hfit r w' Hrun.
    destruct (fit_Ok_inv _ _ _ _ _ _ _ _ _ He Hrun)
      as (x & w1 & e4 & _ & _ & _ & He' & _ & Hx).
    exists (set_inference x e4). split; [done|].
    assert (Hd : dims e4 = dims (recorded (cls e) Y T e)).
    { destruct x as [l'|].
      - destruct Hx as (i0 & i1 & e2 & e3 & i2 & _ & _ & Hp & Hb & Hf & _).
        specialize (Hpre i0 (recorded (cls e) Y T e) Y T args).
        specialize (Hbody e2 Y T args). specialize (Hfit i1 e3 Y T args).
        rewrite Hp in Hpre. rewrite Hb in Hbody. rewrite Hf in Hfit.
        simpl in *. congruence.
      - specialize (Hbody (recorded (cls e) Y T e) Y T args).
        rewrite Hx in Hbody. done. }
    unfold dims in Hd. injection Hd as Hy Ht Hin.
    destruct (dims_recorded (cls e) Y T e) as (Hy' & Ht' & Hin').
    simpl. rewrite Hy, Ht, Hin. split_and!; [done..|]. by intros ->%Hin'.
  - intros. apply hp_keeps, hp_expand_treatments.
  - intros. apply hp_keeps, hp_effect.
  - intros. apply hp_keeps, hp_marginal_effect.
  - intros. apply keeps_defer_to_inference.
  - intros. apply keeps_marginal_effect_interval.
Qed.

End DimensionFacts.

Section DeferredFacts.
Context {R : Type} `{Scalar R} `{Collaborators R}.
Implicit Types (w : world R) (self l : loc) (e : estimator).

Lemma defer_to_inference_forwards name self args w e l i :
  is_estimator w self e → _inference e = Some (Some l) → is_inference w l i →
  BaseCateEstimator._defer_to_inference name self args w
  = forwarded name l i e args w.
Proof.
  intros He Hinf Hi. unfold BaseCateEstimator._defer_to_inference.
  rewrite (bind_Ok _ _ _ _ _ (getattr_is _ _ _ "_inference" _inference _ He Hinf)).
  rewrite (call_inference_method_eq _ _ _ _ _ _ He). by rewrite Hi.
Qed.

Lemma defer_to_inference_None name self args w e :
  is_estimator w self e → _inference e = Some None →
  BaseCateEstimator._defer_to_inference name self args w
  = (Err (inference_is_None name), w).
Proof.
  intros He Hinf. unfold BaseCateEstimator._defer_to_inference.
  by rewrite (bind_Ok _ _ _ _ _ (getattr_is _ _ _ "_inference" _inference _ He Hinf)).
Qed.

(** Before any [fit] the attribute [_inference] does not exist. *)
Lemma defer_to_inference_unset name self args w e :
  is_estimator w self e → _inference e = None →
  BaseCateEstimator._defer_to_inference name self args w
  = (Err (no_attribute (ObjEstimator e) "_inference"), w).
Proof.
  intros He Hinf. unfold BaseCateEstimator._defer_to_inference.
  rewrite (bind_eq _ _ _ _ _ (getattr_eq _ _ _ "_inference" _inference He)).
  by rewrite Hinf.
Qed.

Lemma for_each_pure {A B} (f : A → M R B) (g : A → result B) (l : list A) w :
  (∀ a w, f a w = (g a, w)) →
  LinearCateEstimator.for_each f l w = (result_mapM g l, w).
Proof.
  intros Hf. induction l as [|a l IH]; simpl; [done|].
  unfold bind. rewrite Hf. destruct (g a); simpl; [|done].
  rewrite IH. by destruct (result_mapM g l).
Qed.

(** C4, as the code has it -- [effect_interval],
    [const_marginal_effect_interval], [coef__interval],
    [intercept__interval] and the [marginal_effect_interval] of
    [BaseCateEstimator] forward the call, with the arguments of the
    caller, to the method of the same name of the stored inference object;
    after a [fit] without inference they raise the [AttributeError] that
    names the method and says that inference is [None].
    [LinearCateEstimator] overrides [marginal_effect_interval]: it calls
    [const_marginal_effect_interval(X=X, alpha=alpha)], so that this is the
    method the inference object is asked for and the name in the error, and
    without [X] it repeats each bound along axis 0 by the row count of [T]. *)
Theorem deferred_methods_forward self w e :
  is_estimator w self e →
  (∀ name f, (name, f) ∈ deferred_methods → ∀ args,
     (∀ l i, _inference e = Some (Some l) → is_inference w l i →
             f self args w = forwarded name l i e args w) ∧
     (_inference e = Some None →
      f self args w = (Err (inference_is_None name), w))) ∧
  (∀ T X alpha,
     let args := CallArgs [] [("X", LinearCateEstimator.opt_pyval X);
                              ("alpha", PyArr alpha)] in
     (∀ l i, _inference e = Some (Some l) → is_inference w l i →
             LinearCateEstimator.marginal_effect_interval self T X alpha w
             = let '(r, w') :=
                 forwarded "const_marginal_effect_interval" l i e args w in
               (rbind r (result_mapM (λ eff, repeated X eff T)), w')) ∧
     (_inference e = Some None →
      LinearCateEstimator.marginal_effect_interval self T X alpha w
      = (Err (inference_is_None "const_marginal_effect_interval"), w))).
Proof.
  intros He. split.
  - intros name f Hin args. unfold deferred_methods in Hin.
    repeat (apply elem_of_cons in Hin as [[= -> ->]|Hin]);
      try (by apply elem_of_nil in Hin);
      (split; [intros l i ? ?; by apply (defer_to_inference_forwards _ _ _ _ e)
              |intros ?; by apply (defer_to_inference_None _ _ _ _ e)]).
  - intros T X alpha args. split.
    + intros l i Hinf Hi. unfold LinearCateEstimator.marginal_effect_interval.
      unfold LinearCateEstimator.const_marginal_effect_interval.
      pose proof (defer_to_inference_forwards "const_marginal_effect_interval"
                    self args w e l i He Hinf Hi) as Hd.
      destruct (forwarded _ l i e args w) as [[effs|ex] w'];
        rewrite (bind_eq _ _ _ _ _ Hd); simpl; [|done].
      apply for_each_pure. intros eff w0. destruct X; simpl; [done|].
      unfold bind, lift. by destruct (tuple_item0 (shape T)).
    + intros Hinf. unfold LinearCateEstimator.marginal_effect_interval.
      unfold LinearCateEstimator.const_marginal_effect_interval.
      by rewrite (bind_Err _ _ _ _ _
                    (defer_to_inference_None _ _ _ _ _ He Hinf)).
Qed.

End DeferredFacts.

Section PrefixFacts.
Context {R : Type} `{Scalar R} `{Collaborators R}.
Implicit Types (w : world R) (self l : loc) (e : estimator).

Lemma call_inference_hook_not_inference hook name ev l self Y T args w :
  (∀ i, heap w !! l ≠ Some (ObjInference i)) →
  ∃ ex, BaseCateEstimator.call_inference_hook hook name ev l self Y T args w
        = (Err ex, w).
Proof.
  intros Hl. unfold BaseCateEstimator.call_inference_hook.
  unfold bind at 1. unfold load, bad_reference, raise.
  destruct (heap w !! l) as [[e0|i]|] eqn:Hw; [by eexists| |by eexists].
  by destruct (Hl i).
Qed.

(** Whatever the outcome of a wrapped [fit]: either the resolution of the
    option raised and nothing has happened, or the steps that were taken
    are the first steps of [fit_events], all of them exactly when the call
    returns. *)
Lemma fit_trace_prefix self Y T args inference w e r w' :
  is_estimator w self e →
  fit self Y T args inference w = (r, w') →
  (∃ ex, r = Err ex ∧ w' = w) ∨
  ∃ x w1 done,
    BaseCateEstimator._get_inference (resolve (cls e)) inference w = (Ok x, w1) ∧
    trace w' = trace w1 ++ done ∧
    done `prefix_of` fit_events (cls e) self Y T args x ∧
    (∀ v, r = Ok v → v = self ∧ done = fit_events (cls e) self Y T args x) ∧
    (∀ ex, r = Err ex →
           length done < length (fit_events (cls e) self Y T args x)).
Proof.
  intros He Hfit. unfold fit in Hfit.
  rewrite (bind_Ok _ _ _ _ _ (vtable_of_is _ _ _ He)) in Hfit.
  unfold BaseCateEstimator._wrap_fit in Hfit.
  apply bind_inv in Hfit as [(x & w1 & Hres & Hfit)|(ex & Hres & ->)]; last first.
  { left. exists ex. split; [done|].
    apply get_inference_cases in Hres as [(? & ? & ->)|[(? & _)|(? & ? & ? & ? & _)]];
      done. }
  right. exists x, w1.
  assert (He1 : is_estimator w1 self e ∧ (∀ l', x = Some l' → l' ≠ self)).
  { apply get_inference_cases in Hres
      as [(ex & ? & ?)|[(? & ? & ->)|(l' & src & o & ? & _ & Hl' & _ & _ & _ & Hdom & _)]];
      simplify_eq.
    - done.
    - split.
      + unfold is_estimator. rewrite Hdom; [done|]. by eapply is_estimator_dom.
      + intros ? [= <-] ->. apply Hl'. by eapply is_estimator_dom. }
  destruct He1 as [He1 Hne].
  rewrite (bind_Ok _ _ _ _ _ (prefit_is _ _ _ Y T args He1)) in Hfit.
  set (e1 := recorded (cls e) Y T e) in *.
  unfold fit_events.
  remember (record_events (cls e) self Y T) as rec eqn:Hrec. clear Hrec.
  destruct x as [l'|]; simpl.
  - specialize (Hne l' eq_refl).
    match type of Hfit with
    | bind _ _ ?w0 = _ => set (w2 := w0) in *
    end.
    destruct (heap w2 !! l') as [[e0|i0]|] eqn:Hl'.
    { destruct (call_inference_hook_not_inference inference_prefit "prefit"
                  (CallPrefit l' self Y T args) l' self Y T args w2) as [ex Hex].
      { intros i. by rewrite Hl'. }
      rewrite (bind_Err _ _ _ _ _ Hex) in Hfit. simplify_eq.
      exists rec. split_and!; [done|done|by apply prefix_app_r|done|].
      intros ? _. rewrite !length_app. simpl. lia. }
    2:{ destruct (call_inference_hook_not_inference inference_prefit "prefit"
                  (CallPrefit l' self Y T args) l' self Y T args w2) as [ex Hex].
      { intros i. by rewrite Hl'. }
      rewrite (bind_Err _ _ _ _ _ Hex) in Hfit. simplify_eq.
      exists rec. split_and!; [done|done|by apply prefix_app_r|done|].
      intros ? _. rewrite !length_app. simpl. lia. }
    destruct (inference_prefit i0 e1 Y T args) as [[i1 e2] raised1] eqn:Hhook1.
    rewrite (bind_eq _ _ _ _ _
               (call_inference_hook_is _ _ _ _ _ _ _ _ _ _ _ _ _ _ Hl'
                  (is_estimator_insert _ _ _ _) Hhook1)) in Hfit.
    destruct raised1 as [ex|].
    { simplify_eq. exists (rec ++ [CallPrefit l' self Y T args]). simpl.
      split_and!; [done|by rewrite <- !app_assoc| |done|].
      - apply prefix_app, prefix_cons, prefix_nil.
      - intros ? _. rewrite !length_app. simpl. lia. }
    destruct (fit_body e2 Y T args) as [e3 raised2] eqn:Hbody.
    rewrite (bind_eq _ _ _ _ _
               (call_fit_body_is _ _ _ _ _ _ _ _ (is_estimator_insert _ _ _ _) Hbody))
      in Hfit.
    destruct raised2 as [ex|].
    { simplify_eq.
      exists (rec ++ [CallPrefit l' self Y T args; CallFitBody self Y T args]).
      simpl. split_and!; [done|by rewrite <- !app_assoc| |done|].
      - apply prefix_app. do 2 apply prefix_cons. apply prefix_nil.
      - intros ? _. rewrite !length_app. simpl. lia. }
    simpl in Hfit.
    destruct (inference_fit i1 e3 Y T args) as [[i2 e4] raised3] eqn:Hhook2.
    match type of Hfit with
    | bind _ _ ?w0 = _ =>
        assert (Hi1 : heap w0 !! l' = Some (ObjInference i1))
          by (simpl; rewrite !lookup_insert_ne by done; apply lookup_insert_eq)
    end.
    rewrite (bind_eq _ _ _ _ _
               (call_inference_hook_is _ _ _ _ _ _ _ _ _ _ _ _ _ _ Hi1
                  (is_estimator_insert _ _ _ _) Hhook2)) in Hfit.
    destruct raised3 as [ex|].
    { simplify_eq.
      exists (rec ++ [CallPrefit l' self Y T args; CallFitBody self Y T args;
                      CallFit l' self Y T args]).
      simpl. split_and!; [done|by rewrite <- !app_assoc| |done|].
      - apply prefix_app. do 3 apply prefix_cons. apply prefix_nil.
      - intros ? _. rewrite !length_app. simpl. lia. }
    simpl in Hfit.
    erewrite (bind_Ok _ _ _ _ _ (setattr_is _ _ _ _ _ _ (is_estimator_insert _ _ _ _)))
      in Hfit.
    unfold ret in Hfit. simplify_eq. eexists. simpl.
    split_and!; [done|by rewrite <- !app_assoc|done| |done].
    by intros ? [= <-].
  - unfold bind at 1 in Hfit. unfold ret at 1 in Hfit.
    destruct (fit_body e1 Y T args) as [e3 raised2] eqn:Hbody.
    rewrite (bind_eq _ _ _ _ _
               (call_fit_body_is _ _ _ _ _ _ _ _ (is_estimator_insert _ _ _ _) Hbody))
      in Hfit.
    destruct raised2 as [ex|].
    { simplify_eq. exists (rec ++ [CallFitBody self Y T args]).
      simpl. split_and!; [done|by rewrite <- !app_assoc| |done|].
      - apply prefix_app, prefix_cons, prefix_nil.
      - intros ? _. rewrite !length_app. simpl. lia. }
    simpl in Hfit. unfold bind at 1 in Hfit. unfold ret at 1 in Hfit.
    erewrite (bind_Ok _ _ _ _ _ (setattr_is _ _ _ _ _ _ (is_estimator_insert _ _ _ _)))
      in Hfit.
    unfold ret in Hfit. simplify_eq. eexists. simpl.
    split_and!; [done|by rewrite <- !app_assoc|done| |done].
    by intros ? [= <-].
Qed.

End PrefixFacts.

Section OrderOfSteps.
Context {R : Type} `{Scalar R} `{Collaborators R}.
Implicit Types (w : world R) (self l : loc) (e : estimator).

(** C2 -- A wrapped [fit] with an [inference] that is not [None].
    Whatever its outcome, either the resolution of the option raised and
    nothing has happened, or the option was resolved (a string is found in
    the registry and its class instantiated; the object is deep-copied to
    a new object [l']) and the steps taken after that are the first steps
    of [fit_events]: the recording of [_d_y] and [_d_t] from the shapes of
    [Y] and [T], [inference.prefit(self, Y, T, ...)] on the copy, the body
    of the wrapped fit, [inference.fit(self, Y, T, ...)] on the copy, the
    store of the copy in [_inference]; all of them exactly when the call
    returns [self].  When it returns, each step has worked on the
    estimator the step before left. *)
Theorem fit_steps_in_order self Y T args inference w e r w' :
  is_estimator w self e →
  inference ≠ ArgNone →
  fit self Y T args inference w = (r, w') →
  ((∃ ex, r = Err ex ∧ w' = w) ∨
   ∃ src l' done,
     (l' ∉ dom (heap w)) ∧
     trace w' = trace w ++
       resolution_events (options_of (cls e)) inference src l' ++ done ∧
     done `prefix_of` fit_events (cls e) self Y T args (Some l') ∧
     (done = fit_events (cls e) self Y T args (Some l') ↔ r = Ok self)) ∧
  (∀ v, r = Ok v →
     ∃ src l' i0 i1 e2 e3 i2 e4,
       (l' ∉ dom (heap w)) ∧
       match inference with
       | ArgStr s => is_Some (dict_get s (options_of (cls e)))
       | ArgObject l => l = src
       | ArgNone => False
       end ∧
       trace w' = trace w ++
         resolution_events (options_of (cls e)) inference src l' ++
         [SetAttr self "_d_y" (AttrShape (drop 1 (shape Y)));
          SetAttr self "_d_t" (AttrShape (drop 1 (shape T)))] ++
         (if treatment_expansion (cls e)
          then [SetAttr self "_d_t_in" (AttrShape (drop 1 (shape T)))]
          else []) ++
         [CallPrefit l' self Y T args;
          CallFitBody self Y T args;
          CallFit l' self Y T args;
          SetAttr self "_inference" (AttrRef (Some l'))] ∧
       inference_prefit i0 (recorded (cls e) Y T e) Y T args = (i1, e2, None) ∧
       fit_body e2 Y T args = (e3, None) ∧
       inference_fit i1 e3 Y T args = (i2, e4, None) ∧
       is_estimator w' self (set_inference (Some l') e4) ∧
       is_inference w' l' i2 ∧
       v = self).
Proof.
  intros He Hinf Hfit. split.
  - destruct (fit_trace_prefix _ _ _ _ _ _ _ _ _ He Hfit)
      as [?|(x & w1 & done & Hres & Htr & Hpre & HOk & HErr)]; [by left|].
    right.
    apply get_inference_cases in Hres
      as [(ex & ? & ?)|[(? & ? & ->)|(l' & src & o & ? & _ & Hl' & _ & _ & _ & _
                                      & _ & _ & _ & Htr1)]];
      simplify_eq.
    exists src, l', done. split_and!; [done| |done|].
    + rewrite Htr, Htr1. by rewrite <- app_assoc.
    + split.
      * intros ->. destruct r as [v|ex].
        -- by destruct (HOk v eq_refl) as [-> _].
        -- specialize (HErr ex eq_refl). lia.
      * intros ->. by destruct (HOk self eq_refl).
  - intros v ->. by eapply fit_returns_steps.
Qed.

End OrderOfSteps.

(** ** The properties at concrete inputs *)

Section Witnesses.
#[local] Existing Instance Demo.types.
#[local] Existing Instance Demo.collaborators.
Import Demo.

(** [effect] for an outcome and a treatment that are both matrices. *)
Example effect_demo :
  effect 0 (Some X) T0 T1 w_fitted
  = (Ok (NDArray [2; 2] [4; 10; 48; 66]%Z), w_fitted).
Proof. vm_compute. reflexivity. Qed.

(** [effect] without [X], from treatments that are not zero: the one row
    of the constant marginal effect [[5, 7]] serves both rows. *)
Example effect_without_X_demo :
  effect 1 None (NDArray [2; 2] [1; 1; 0; 2]%Z)
                (NDArray [2; 2] [1; 2; 3; 4]%Z) w_fitted
  = (Ok (NDArray [2] [7; 29]%Z), w_fitted).
Proof. vm_compute. reflexivity. Qed.

Lemma effect_is_contraction_witness :
  (is_estimator w_fitted 1 (fitted_estimator linear theta1 None (Some 2)) ∧
   _expand_treatments 1 None [NDArray [2; 2] [1; 1; 0; 2]%Z;
                              NDArray [2; 2] [1; 2; 3; 4]%Z] w_fitted
   = (Ok (None, [NDArray [2; 2] [1; 1; 0; 2]%Z;
                 NDArray [2; 2] [1; 2; 3; 4]%Z]), w_fitted) ∧
   const_marginal_effect (fitted_estimator linear theta1 None (Some 2)) None
   = Ok theta1 ∧
   repeated None theta1 (NDArray [2; 2] [1; 1; 0; 2]%Z)
   = Ok (NDArray [2; 2] [5; 7; 5; 7]%Z) ∧
   np.subtract (NDArray [2; 2] [1; 2; 3; 4]%Z) (NDArray [2; 2] [1; 1; 0; 2]%Z)
   = Ok (NDArray [2; 2] [0; 1; 3; 2]%Z) ∧
   shape (NDArray [2; 2] [5; 7; 5; 7]%Z) = 2 :: axes None ++ axes (Some 2) ∧
   shape (NDArray [2; 2] [0; 1; 3; 2]%Z) = 2 :: axes (Some 2)) ∧
  (∃ r, effect 1 None (NDArray [2; 2] [1; 1; 0; 2]%Z)
                      (NDArray [2; 2] [1; 2; 3; 4]%Z) w_fitted
        = (Ok r, w_fitted) ∧
        shape r = 2 :: axes None ∧
        ∀ i y, i < 2 → Forall2 lt y (axes None) →
               get r (i :: y)
               = Some (contraction (NDArray [2; 2] [5; 7; 5; 7]%Z)
                                   (NDArray [2; 2] [0; 1; 3; 2]%Z)
                                   (Some 2) i y)) ∧
  (∀ idx, Forall2 lt idx (2 :: axes (Some 2)) →
          getd (NDArray [2; 2] [0; 1; 3; 2]%Z) idx
          = sub (getb (NDArray [2; 2] [1; 2; 3; 4]%Z) idx)
                (getb (NDArray [2; 2] [1; 1; 0; 2]%Z) idx)) ∧
  ∃ n, tuple_item0 (shape (NDArray [2; 2] [1; 1; 0; 2]%Z)) = Ok n ∧
       shape (NDArray [2; 2] [5; 7; 5; 7]%Z) = repeat_shape_of theta1 n ∧
       (wf theta1 →
        ∀ i idx, Forall2 lt (i :: idx) (shape (NDArray [2; 2] [5; 7; 5; 7]%Z)) →
                 get (NDArray [2; 2] [5; 7; 5; 7]%Z) (i :: idx)
                 = get theta1 (repeat_source theta1 n i idx)).
Proof.
  split; [by vm_compute|].
  apply (effect_is_contraction 1 None
           (NDArray [2; 2] [1; 1; 0; 2]%Z) (NDArray [2; 2] [1; 2; 3; 4]%Z)
           w_fitted (fitted_estimator linear theta1 None (Some 2))
           (NDArray [2; 2] [1; 1; 0; 2]%Z) (NDArray [2; 2] [1; 2; 3; 4]%Z)
           w_fitted theta1 (NDArray [2; 2] [5; 7; 5; 7]%Z)
           (NDArray [2; 2] [0; 1; 3; 2]%Z) 2 None (Some 2));
    vm_compute; reflexivity.
Defined.

Example fit_demo :
  fit 0 Y T no_args (ArgStr "statsmodels") w0 = (Ok 0, w_statsmodels) ∧
  trace w_statsmodels
  = [Construct StatsModelsInference 3; Deepcopy 3 4;
     SetAttr 0 "_d_y" (AttrShape []); SetAttr 0 "_d_t" (AttrShape [2]);
     SetAttr 0 "_d_t_in" (AttrShape [2]);
     CallPrefit 4 0 Y T no_args; CallFitBody 0 Y T no_args; CallFit 4 0 Y T no_args;
     SetAttr 0 "_inference" (AttrRef (Some 4))].
Proof. split; vm_compute; reflexivity. Qed.

Lemma fit_steps_in_order_witness :
  (is_estimator w0 0 (new dml) ∧
   ArgStr "statsmodels" ≠ ArgNone ∧
   fit 0 Y T no_args (ArgStr "statsmodels") w0 = (Ok 0, w_statsmodels)) ∧
  ((∃ ex, Ok 0 = Err ex ∧ w_statsmodels = w0) ∨
   ∃ src l' done,
     (l' ∉ dom (heap w0)) ∧
     trace w_statsmodels = trace w0 ++
       resolution_events (options_of (cls (new dml)))
         (ArgStr "statsmodels") src l' ++ done ∧
     done `prefix_of` fit_events (cls (new dml)) 0 Y T no_args (Some l') ∧
     (done = fit_events (cls (new dml)) 0 Y T no_args (Some l')
      ↔ @Ok loc 0 = Ok 0)) ∧
  (∀ v, @Ok loc 0 = Ok v →
     ∃ src l' i0 i1 e2 e3 i2 e4,
       (l' ∉ dom (heap w0)) ∧
       is_Some (dict_get "statsmodels" (options_of (cls (new dml)))) ∧
       trace w_statsmodels = trace w0 ++
         resolution_events (options_of (cls (new dml)))
           (ArgStr "statsmodels") src l' ++
         [SetAttr 0 "_d_y" (AttrShape (drop 1 (shape Y)));
          SetAttr 0 "_d_t" (AttrShape (drop 1 (shape T)))] ++
         (if treatment_expansion (cls (new dml))
          then [SetAttr 0 "_d_t_in" (AttrShape (drop 1 (shape T)))]
          else []) ++
         [CallPrefit l' 0 Y T no_args;
          CallFitBody 0 Y T no_args;
          CallFit l' 0 Y T no_args;
          SetAttr 0 "_inference" (AttrRef (Some l'))] ∧
       inference_prefit i0 (recorded (cls (new dml)) Y T (new dml)) Y T no_args
       = (i1, e2, None) ∧
       fit_body e2 Y T no_args = (e3, None) ∧
       inference_fit i1 e3 Y T no_args = (i2, e4, None) ∧
       is_estimator w_statsmodels 0 (set_inference (Some l') e4) ∧
       is_inference w_statsmodels l' i2 ∧
       v = 0).
Proof.
  split; [split_and!; [by vm_compute|done|by vm_compute]|].
  apply (fit_steps_in_order 0 Y T no_args (ArgStr "statsmodels") w0 (new dml)
           (Ok 0) w_statsmodels);
    [by vm_compute|done|by vm_compute].
Defined.


Example expand_treatments_demo :
  _expand_treatments 3 None [np.scalar 5%Z; T0] w_fitted
  = (Ok (None, expanded),
     World (heap w_fitted) [Warn TreatmentExpansionMixin.scalar_warning]).
Proof. vm_compute. reflexivity. Qed.

Lemma expand_treatments_broadcasts_witness :
  (is_estimator w_fitted 3 (fitted_estimator dml theta (Some 10%Z) None) ∧
   treatment_expansion (cls (fitted_estimator dml theta (Some 10%Z) None))
   = true ∧
   _d_t_in (fitted_estimator dml theta (Some 10%Z) None) = Some [3] ∧
   n_rows_of (R:=Z) None = Ok 1 ∧
   result_mapM
     (λ T, apply_transformer
             (transformer (fitted_estimator dml theta (Some 10%Z) None))
             (broadcast_scalar 1 [3] T)) [np.scalar 5%Z; T0]
   = Ok expanded) ∧
  (_expand_treatments 3 None [np.scalar 5%Z; T0] w_fitted
   = (Ok (None, expanded),
      World (heap w_fitted)
        (trace w_fitted ++
         flat_map (λ T, if decide (scalar_for_many [3] T)
                        then [Warn TreatmentExpansionMixin.scalar_warning]
                        else []) [np.scalar 5%Z; T0])) ∧
   ∀ T, ndim T = 0 →
        shape (broadcast_scalar 1 [3] T) = [1; 3] ∧
        ∀ idx, Forall2 lt idx [1; 3] →
               get (broadcast_scalar 1 [3] T) idx = Some (getd T [])).
Proof.
  split; [by vm_compute|].
  apply (expand_treatments_broadcasts 3 None [np.scalar 5%Z; T0] w_fitted
           (fitted_estimator dml theta (Some 10%Z) None) [3] 1 expanded);
    by vm_compute.
Defined.

Lemma fit_unknown_inference_witness :
  (is_estimator w0 0 (new dml) ∧
   dict_get "not-a-method" (options_of (cls (new dml))) = None) ∧
  fit 0 Y T no_args (ArgStr "not-a-method") w0
  = (Err (ValueError ("Inference option '" +:+ "not-a-method" +:+
                      "' not recognized; valid values are " +:+
                      repr_list (dict_keys (options_of (cls (new dml)))))),
     w0).
Proof.
  split; [by vm_compute|].
  apply (fit_unknown_inference 0 Y T no_args "not-a-method" w0 (new dml));
    by vm_compute.
Defined.

(** The message of that error. *)
Example fit_unknown_inference_message :
  (fit 0 Y T no_args (ArgStr "not-a-method") w0).1
  = Err (ValueError
      "Inference option 'not-a-method' not recognized; valid values are ['bootstrap', 'statsmodels']").
Proof. vm_compute. reflexivity. Qed.

End Witnesses.
Section MoreWitnesses.
#[local] Existing Instance Demo.types.
#[local] Existing Instance Demo.collaborators.
Import Demo.

Example marginal_effect_demo :
  marginal_effect 1 T None w_fitted
  = (Ok (NDArray [3; 2] [5; 7; 5; 7; 5; 7]%Z), w_fitted).
Proof. vm_compute. reflexivity. Qed.

Lemma marginal_effect_is_const_marginal_effect_witness :
  (is_estimator w_fitted 1 (fitted_estimator linear theta1 None (Some 2)) ∧
   _expand_treatments 1 None [T] w_fitted = (Ok (None, [T]), w_fitted)) ∧
  (∀ x : ndarray Z, None = Some x →
        marginal_effect 1 T None w_fitted
        = (const_marginal_effect
             (fitted_estimator linear theta1 None (Some 2)) None, w_fitted)) ∧
  (@None (ndarray Z) = None →
     marginal_effect 1 T None w_fitted =
       (rbind (const_marginal_effect
                 (fitted_estimator linear theta1 None (Some 2)) None)
          (λ eff0, rbind (tuple_item0 (shape T)) (λ n, np.repeat eff0 n)),
        w_fitted) ∧
     ∀ eff0 n ds rest,
       const_marginal_effect
         (fitted_estimator linear theta1 None (Some 2)) None = Ok eff0 →
       shape eff0 = 1 :: ds → wf eff0 → shape T = n :: rest →
       ∃ r, marginal_effect 1 T None w_fitted = (Ok r, w_fitted) ∧
            shape r = n :: ds ∧
            ∀ i idx, i < n → Forall2 lt idx ds →
                     get r (i :: idx) = get eff0 (0 :: idx)) ∧
  (treatment_expansion
     (cls (fitted_estimator linear theta1 None (Some 2))) = false →
   ∀ T2, @None (ndarray Z) ≠ None ∨
         tuple_item0 (shape T2) = tuple_item0 (shape T) →
         marginal_effect 1 T2 None w_fitted
         = marginal_effect 1 T None w_fitted).
Proof.
  split; [by vm_compute|].
  apply (marginal_effect_is_const_marginal_effect 1 T None w_fitted
           (fitted_estimator linear theta1 None (Some 2)) T w_fitted);
    by vm_compute.
Defined.

Example effect_of_no_change :
  effect 1 None T T w_fitted = (Ok (NDArray [3] [0; 0; 0]%Z), w_fitted).
Proof. vm_compute. reflexivity. Qed.


Example two_fits_demo :
  fit 0 Y T no_args (ArgObject 2) w0 = (Ok 0, w1) ∧
  second_fit = (Ok 1, w2) ∧
  heap w2 !! 2 = Some (ObjInference [7%Z]) ∧
  heap w2 !! 3 = Some (ObjInference [1; 2; 3]%Z) ∧
  heap w2 !! 4 = Some (ObjInference [1; 2; 3; 4; 5; 6]%Z).
Proof. split_and!; vm_compute; reflexivity. Qed.


End MoreWitnesses.

Section DeferredWitnesses.
#[local] Existing Instance Demo.types.
#[local] Existing Instance Demo.collaborators.
Import Demo DemoRuns.

Lemma dimensions_recorded_witness :
  is_estimator w0 0 (new dml) ∧
  (∃ w2 e1,
     v_prefit (resolve (cls (new dml))) 0 Y T no_args w0 = (Ok (), w2) ∧
     is_estimator w2 0 e1 ∧
     _d_y e1 = Some (drop 1 (shape Y)) ∧
     _d_t e1 = Some (drop 1 (shape T)) ∧
     (treatment_expansion (cls (new dml)) = true →
      _d_t_in e1 = Some (drop 1 (shape T)))) ∧
  ((∀ e0 Y0 T0 a, dims (fit_body e0 Y0 T0 a).1 = dims e0) →
   (∀ i e0 Y0 T0 a, dims (inference_prefit i e0 Y0 T0 a).1.2 = dims e0) →
   (∀ i e0 Y0 T0 a, dims (inference_fit i e0 Y0 T0 a).1.2 = dims e0) →
   ∀ r w',
     fit 0 Y T no_args (ArgStr "bootstrap") w0 = (Ok r, w') →
     ∃ e', is_estimator w' 0 e' ∧
           _d_y e' = Some (drop 1 (shape Y)) ∧
           _d_t e' = Some (drop 1 (shape T)) ∧
           (treatment_expansion (cls (new dml)) = true →
            _d_t_in e' = Some (drop 1 (shape T)))) ∧
  (∀ self' X Ts, keeps_estimators (_expand_treatments self' X Ts)) ∧
  (∀ self' X T0 T1, keeps_estimators (effect self' X T0 T1)) ∧
  (∀ self' T' X, keeps_estimators (marginal_effect self' T' X)) ∧
  (∀ name self' cargs,
     keeps_estimators (BaseCateEstimator._defer_to_inference name self' cargs)) ∧
  (∀ self' T' X alpha,
     keeps_estimators
       (LinearCateEstimator.marginal_effect_interval self' T' X alpha)).
Proof.
  split; [by vm_compute|].
  apply (dimensions_recorded 0 Y T no_args (ArgStr "bootstrap") w0 (new dml)).
  by vm_compute.
Defined.

(** The collaborators of [Demo] leave the dimensions alone, so that after
    its fit the estimator has the dimensions of the raw inputs. *)
Example dimensions_demo :
  ∃ e', is_estimator (fit 0 Y T no_args (ArgStr "bootstrap") w0).2 0 e' ∧
        _d_y e' = Some [] ∧ _d_t e' = Some [2] ∧ _d_t_in e' = Some [2].
Proof. eexists. by vm_compute. Qed.

Lemma deferred_methods_forward_witness :
  is_estimator w_statsmodels 0 e_statsmodels ∧
  (∀ name f, (name, f) ∈ deferred_methods → ∀ args,
     (∀ l i, _inference e_statsmodels = Some (Some l) →
             is_inference w_statsmodels l i →
             f 0 args w_statsmodels
             = forwarded name l i e_statsmodels args w_statsmodels) ∧
     (_inference e_statsmodels = Some None →
      f 0 args w_statsmodels = (Err (inference_is_None name), w_statsmodels))) ∧
  (∀ T X alpha,
     let args := CallArgs [] [("X", LinearCateEstimator.opt_pyval X);
                              ("alpha", PyArr alpha)] in
     (∀ l i, _inference e_statsmodels = Some (Some l) →
             is_inference w_statsmodels l i →
             LinearCateEstimator.marginal_effect_interval 0 T X alpha
               w_statsmodels
             = let '(r, w') :=
                 forwarded "const_marginal_effect_interval" l i e_statsmodels
                           args w_statsmodels in
               (rbind r (result_mapM (λ eff, repeated X eff T)), w')) ∧
     (_inference e_statsmodels = Some None →
      LinearCateEstimator.marginal_effect_interval 0 T X alpha w_statsmodels
      = (Err (inference_is_None "const_marginal_effect_interval"),
         w_statsmodels))).
Proof.
  split; [by vm_compute|].
  apply (deferred_methods_forward 0 w_statsmodels e_statsmodels).
  by vm_compute.
Defined.

(** C4, as it is stated, fails for the [marginal_effect_interval] of a
    [LinearCateEstimator]: after a fit without inference the error names
    [const_marginal_effect_interval], not [marginal_effect_interval]; and
    with an inference object, the method called on it is
    [const_marginal_effect_interval], with the arguments [X] and [alpha],
    not the method of the same name with the arguments of the caller. *)
Lemma marginal_effect_interval_defers_elsewhere :
  is_estimator w_plain 1 e_plain ∧ _inference e_plain = Some None ∧
  (LinearCateEstimator.marginal_effect_interval 1 T None alpha w_plain).1
  = Err (AttributeError
      "Can't call 'const_marginal_effect_interval' because 'inference' is None") ∧
  (LinearCateEstimator.marginal_effect_interval 1 T None alpha w_plain).1
  ≠ Err (AttributeError
      "Can't call 'marginal_effect_interval' because 'inference' is None") ∧
  trace (LinearCateEstimator.marginal_effect_interval 0 T (Some X) alpha
           w_statsmodels).2
  = trace w_statsmodels ++
    [CallInference 4 "const_marginal_effect_interval"
       (CallArgs [] [("X", PyArr X); ("alpha", PyArr alpha)])] ∧
  CallInference 4 "marginal_effect_interval"
    (CallArgs [PyArr T; PyArr X] [("alpha", PyArr alpha)])
  ∉ trace (LinearCateEstimator.marginal_effect_interval 0 T (Some X) alpha
             w_statsmodels).2.
Proof.
  split_and!; try (by vm_compute).
  vm_compute. intros Hin.
  repeat (apply elem_of_cons in Hin as [Hin|Hin]; [discriminate Hin|]).
  by apply elem_of_nil in Hin.
Qed.

End DeferredWitnesses.

Section EncodingFacts.
#[local] Existing Instance Demo.types.
#[local] Existing Instance Encoding.collaborators.

(** C8, as it is stated, fails for an estimator whose fit encodes the
    treatment: the raw treatment is a vector, [shape(T)[1:]] is [()], and
    after the fit [_d_t] is [(2,)], the dimensions of the encoded
    treatment. *)
Lemma dimensions_overwritten_by_fit :
  fit 0 Demo.Y Encoding.T Demo.no_args ArgNone Demo.w0
  = (Ok 0, Encoding.w_encoded) ∧
  ∃ e', is_estimator Encoding.w_encoded 0 e' ∧
        _d_t_in e' = Some (drop 1 (shape Encoding.T)) ∧
        _d_t e' = Some [2] ∧
        _d_t e' ≠ Some (drop 1 (shape Encoding.T)).
Proof. split; [by vm_compute|]. eexists. by vm_compute. Qed.

End EncodingFacts.

(** * Further properties of the code

    Properties of the same embedding that the specification does not
    state: the edge and error behaviour of the methods, what they leave
    untouched, and how they compose. *)

(** ** The ranks [effect] accepts *)

Section RankFacts.
Context {R : Type} `{Scalar R} `{Collaborators R}.
Implicit Types (w : world R) (self l : loc) (e : estimator).

Lemma einsum_Ok_ranks (s : string) (a b r : ndarray R) :
  einsum s [a; b] = Ok r →
  ∃ ls1 ls2 out,
    parse_subscripts s = Some ([ls1; ls2], out) ∧
    length ls1 = ndim a ∧ length ls2 = ndim b ∧ ndim r = length out.
Proof.
  unfold einsum. destruct (parse_subscripts s) as [[ins out]|]; [|done].
  destruct ins as [|ls1 [|ls2 [|ls3 ins]]]; simpl; try done.
  - destruct (decide _); [|done]. destruct (diagonal_ok _); [|done].
    by destruct (bind_labels _ _).
  - destruct (decide (length ls1 = _)) as [Hl1|]; [|done].
    destruct (diagonal_ok _); [|done].
    destruct (bind_labels _ _) as [e1|]; [|done]. simpl.
    destruct (decide (length ls2 = _)) as [Hl2|]; [|done].
    destruct (diagonal_ok _); [|done].
    destruct (bind_labels _ _) as [dims|]; [|done]. simpl.
    destruct (distinct out); [|done]. simpl.
    destruct (mapM _ out) as [out_shape|] eqn:Hout; [|done]. intros [= <-].
    exists ls1, ls2, out. split_and!; [done..|].
    unfold ndim; simpl. symmetry. by eapply length_mapM.
  - destruct (decide _); [|done]. destruct (diagonal_ok _); [|done].
    destruct (bind_labels _ _); [|done]. simpl.
    destruct (decide _); [|done]. destruct (diagonal_ok _); [|done].
    by destruct (bind_labels _ _).
Qed.

Lemma einsum_str_cases (eff dT : ndarray R) :
  einsum_str eff dT =
    if decide (ndim dT = 1)
    then if decide (ndim eff = ndim dT) then "m,m->m" else "my,m->my"
    else if decide (ndim eff = ndim dT) then "mt,mt->m" else "myt,mt->my".
Proof. unfold einsum_str. by repeat case_decide. Qed.

Lemma effect_value_Ok_ranks e X (T0 T1 r : ndarray R) :
  effect_value e X T0 T1 = Ok r →
  ∃ eff0 eff dT,
    const_marginal_effect e X = Ok eff0 ∧
    repeated X eff0 T0 = Ok eff ∧
    np.subtract T1 T0 = Ok dT ∧
    (ndim dT = 1 ∨ ndim dT = 2) ∧
    (ndim eff = ndim dT ∨ ndim eff = S (ndim dT)) ∧
    ndim r = S (ndim eff - ndim dT).
Proof.
  unfold effect_value.
  destruct (const_marginal_effect e X) as [eff0|]; [|done].
  cbn [rbind].
  destruct (repeated X eff0 T0) as [eff|] eqn:Hrep; [|done]. cbn [rbind].
  destruct (tuple_item0 (shape eff)); [|done]. cbn [rbind].
  destruct (subtract T1 T0) as [dT|]; [|done]. cbn [rbind].
  intros (ls1 & ls2 & out & Hp & Hl1 & Hl2 & Hr)%einsum_Ok_ranks.
  exists eff0, eff, dT. split_and!; [done..| | |];
    rewrite einsum_str_cases in Hp; unfold ndim in *;
    repeat case_decide; vm_compute in Hp; simplify_eq;
    simpl in Hl1, Hl2, Hr; lia.
Qed.

Lemma expand_treatments_resolved self X Ts w e :
  is_estimator w self e →
  _expand_treatments self X Ts w
  = v_expand_treatments (resolve (cls e)) self X Ts w.
Proof.
  intros He. unfold _expand_treatments.
  by rewrite (bind_Ok _ _ _ _ _ (vtable_of_is _ _ _ He)).
Qed.

(** [effect] returns only through the call of [np.einsum]. *)
Lemma effect_Ok_inv self X T0 T1 w e r w' :
  is_estimator w self e →
  effect self X T0 T1 w = (Ok r, w') →
  ∃ T0' T1',
    _expand_treatments self X [T0; T1] w = (Ok (X, [T0'; T1']), w') ∧
    effect_value e X T0' T1' = Ok r.
Proof.
  intros He Heff.
  destruct (_expand_treatments self X [T0; T1] w) as [[[X' Ts]|ex] w1] eqn:Hexp.
  - pose proof (expand_treatments_X _ _ _ _ _ _ _ Hexp) as ->.
    destruct Ts as [|T0' [|T1' [|T2' Ts]]].
    4: { rewrite (expand_treatments_resolved _ _ _ _ _ He) in Hexp.
         unfold effect, LinearCateEstimator.effect in Heff.
         rewrite (bind_Ok _ _ _ _ _ (vtable_of_is _ _ _ He)) in Heff.
         by rewrite (bind_Ok _ _ _ _ _ Hexp) in Heff. }
    3: { rewrite (effect_expanded _ _ _ _ _ _ _ _ _ He Hexp) in Heff.
         exists T0', T1'. by simplify_eq. }
    all: rewrite (expand_treatments_resolved _ _ _ _ _ He) in Hexp;
         unfold effect, LinearCateEstimator.effect in Heff;
         rewrite (bind_Ok _ _ _ _ _ (vtable_of_is _ _ _ He)) in Heff;
         by rewrite (bind_Ok _ _ _ _ _ Hexp) in Heff.
  - rewrite (expand_treatments_resolved _ _ _ _ _ He) in Hexp.
    unfold effect, LinearCateEstimator.effect in Heff.
    rewrite (bind_Ok _ _ _ _ _ (vtable_of_is _ _ _ He)) in Heff.
    by rewrite (bind_Err _ _ _ _ _ Hexp) in Heff.
Qed.

(** X1 -- [LinearCateEstimator.effect] returns only for the ranks its
    docstring names.  Whenever the call returns, the difference [T1 - T0]
    of the expanded treatments is a vector or a matrix, [eff] (the constant
    marginal effect, repeated when [X] is [None]) has the rank of the
    difference or one more, and the result has rank 1 in the first case and
    rank 2 in the second: for any other ranks one of the numpy calls
    raises. *)
Theorem effect_returns_only_for_documented_ranks self X T0 T1 w e r w' :
  is_estimator w self e →
  effect self X T0 T1 w = (Ok r, w') →
  ∃ T0' T1' eff0 eff dT,
    _expand_treatments self X [T0; T1] w = (Ok (X, [T0'; T1']), w') ∧
    const_marginal_effect e X = Ok eff0 ∧
    repeated X eff0 T0' = Ok eff ∧
    np.subtract T1' T0' = Ok dT ∧
    (ndim dT = 1 ∨ ndim dT = 2) ∧
    (ndim eff = ndim dT ∨ ndim eff = S (ndim dT)) ∧
    ndim r = S (ndim eff - ndim dT).
Proof.
  intros He Heff.
  destruct (effect_Ok_inv _ _ _ _ _ _ _ _ He Heff) as (T0' & T1' & Hexp & Hv).
  destruct (effect_value_Ok_ranks _ _ _ _ _ Hv)
    as (eff0 & eff & dT & ? & ? & ? & ? & ? & ?).
  by exists T0', T1', eff0, eff, dT.
Qed.

(** X2 -- [LinearCateEstimator.effect] in a class without the treatment
    expansion never returns for two scalar treatments: it raises and leaves
    the store as it is, and without [X] the exception is the [IndexError]
    of [shape(T0)[0]] (when [const_marginal_effect] itself returns). *)
Theorem effect_of_scalars_raises_without_expansion self X T0 T1 w e :
  is_estimator w self e →
  treatment_expansion (cls e) = false →
  ndim T0 = 0 → ndim T1 = 0 →
  ∃ ex, effect self X T0 T1 w = (Err ex, w) ∧
        (X = None → ∀ eff0, const_marginal_effect e None = Ok eff0 →
                    ex = IndexError "tuple index out of range").
Proof.
  intros He Hc HT0 HT1.
  rewrite (effect_expanded self X T0 T1 w e T0 T1 w He
             (expand_treatments_base _ _ _ _ e He Hc)).
  destruct (effect_value e X T0 T1) as [r|ex] eqn:Hv.
  - exfalso.
    destruct (effect_value_Ok_ranks _ _ _ _ _ Hv)
      as (eff0 & eff & dT & _ & _ & Hsub & Hd & _).
    unfold ndim in HT0, HT1.
    apply nil_length_inv in HT0, HT1. unfold subtract in Hsub.
    rewrite HT0, HT1 in Hsub. simpl in Hsub. simplify_eq.
    unfold ndim in Hd; simpl in Hd. lia.
  - exists ex. split; [done|]. intros -> eff0 Hcme.
    unfold effect_value in Hv. rewrite Hcme in Hv. simpl in Hv.
    unfold ndim in HT0. apply nil_length_inv in HT0.
    rewrite HT0 in Hv. simpl in Hv. by simplify_eq.
Qed.

End RankFacts.

Section RankWitnesses.
#[local] Existing Instance Demo.types.
#[local] Existing Instance Demo.collaborators.
Import Demo.

(** A constant marginal effect without dimension (outcome and treatment
    are vectors, and there is no [X]): [np.repeat] makes it the vector of
    its value, one entry for each row of the treatment. *)
Example marginal_effect_of_collapsed_demo :
  marginal_effect 0 Collapsed.T1 None Collapsed.w
  = (Ok (NDArray [3] [5; 5; 5]%Z), Collapsed.w).
Proof. vm_compute. reflexivity. Qed.

Example effect_of_collapsed_demo :
  effect 0 None Collapsed.T0 Collapsed.T1 Collapsed.w
  = (Ok (NDArray [3] [5; 10; 15]%Z), Collapsed.w).
Proof. vm_compute. reflexivity. Qed.

Lemma effect_returns_only_for_documented_ranks_witness :
  (is_estimator Collapsed.w 0 Collapsed.fitted_estimator ∧
   effect 0 None Collapsed.T0 Collapsed.T1 Collapsed.w
   = (Ok (NDArray [3] [5; 10; 15]%Z), Collapsed.w)) ∧
  ∃ T0' T1' eff0 eff dT,
    _expand_treatments 0 None [Collapsed.T0; Collapsed.T1] Collapsed.w
    = (Ok (None, [T0'; T1']), Collapsed.w) ∧
    const_marginal_effect Collapsed.fitted_estimator None = Ok eff0 ∧
    repeated None eff0 T0' = Ok eff ∧
    np.subtract T1' T0' = Ok dT ∧
    (ndim dT = 1 ∨ ndim dT = 2) ∧
    (ndim eff = ndim dT ∨ ndim eff = S (ndim dT)) ∧
    ndim (NDArray [3] [5; 10; 15]%Z) = S (ndim eff - ndim dT).
Proof.
  split; [by vm_compute|].
  apply (effect_returns_only_for_documented_ranks 0 None
           Collapsed.T0 Collapsed.T1 Collapsed.w Collapsed.fitted_estimator);
    by vm_compute.
Defined.

Lemma effect_of_scalars_raises_without_expansion_witness :
  (is_estimator w_fitted 1 (fitted_estimator linear theta1 None (Some 2)) ∧
   treatment_expansion
     (cls (fitted_estimator linear theta1 None (Some 2))) = false ∧
   ndim (np.scalar 0%Z) = 0 ∧ ndim (np.scalar 1%Z) = 0) ∧
  ∃ ex, effect 1 None (np.scalar 0%Z) (np.scalar 1%Z) w_fitted
        = (Err ex, w_fitted) ∧
        (@None (ndarray Z) = None →
         ∀ eff0, const_marginal_effect
                   (fitted_estimator linear theta1 None (Some 2)) None
                 = Ok eff0 →
                 ex = IndexError "tuple index out of range").
Proof.
  split; [by vm_compute|].
  apply (effect_of_scalars_raises_without_expansion 1 None
           (np.scalar 0%Z) (np.scalar 1%Z) w_fitted
           (fitted_estimator linear theta1 None (Some 2)));
    by vm_compute.
Defined.

End RankWitnesses.

(** ** Scalar treatments *)

Section ScalarTreatments.
Context {R : Type} `{Scalar R} `{Collaborators R}.
Implicit Types (w : world R) (self l : loc) (e : estimator).

(** The body of the loop for an array: only the transformer applies, and
    [_d_t_in] is not read. *)
Lemma expand_one_array w self e n (T : ndarray R) :
  is_estimator w self e → ndim T ≠ 0 →
  TreatmentExpansionMixin.expand_one self n T w
  = (apply_transformer (transformer e) T, w).
Proof.
  intros He HT. unfold TreatmentExpansionMixin.expand_one.
  rewrite !decide_False by done.
  erewrite bind_Ok; [|reflexivity].
  erewrite bind_Ok; [|reflexivity].
  erewrite bind_Ok; [|reflexivity].
  rewrite (bind_Ok _ _ _ _ _ (load_estimator_is _ _ _ He)).
  unfold apply_transformer, bind, lift, ret.
  destruct (transformer e) as [tr|]; [|done]. by destruct (transform tr T).
Qed.

(** The body of the loop for a scalar before [_d_t_in] is assigned. *)
Lemma expand_one_unset w self e n (T : ndarray R) :
  is_estimator w self e → ndim T = 0 → _d_t_in e = None →
  TreatmentExpansionMixin.expand_one self n T w
  = (Err (no_attribute (ObjEstimator e) "_d_t_in"), w).
Proof.
  intros He HT Hd. unfold TreatmentExpansionMixin.expand_one.
  rewrite !decide_True by done.
  erewrite bind_Err; [done|].
  erewrite bind_Err; [done|].
  by rewrite (getattr_eq _ _ _ _ _ He), Hd.
Qed.

Lemma expand_loop_arrays self e n (Ts Ts' outTs : list (ndarray R)) w :
  is_estimator w self e → Forall (λ T, ndim T ≠ 0) Ts →
  result_mapM (apply_transformer (transformer e)) Ts = Ok Ts' →
  ∀ rest,
    TreatmentExpansionMixin.expand_loop self n (Ts ++ rest) outTs w
    = TreatmentExpansionMixin.expand_loop self n rest (outTs ++ Ts') w.
Proof.
  intros He HTs. revert Ts' outTs.
  induction HTs as [|T Ts HT HTs IH]; intros Ts' outTs Hm rest; simpl in *.
  - simplify_eq. by rewrite app_nil_r.
  - destruct (apply_transformer _ T) as [T'|] eqn:HT'; simpl in Hm; [|done].
    destruct (result_mapM _ Ts) as [Ts''|] eqn:HTs'; simpl in Hm; [|done].
    simplify_eq.
    erewrite bind_Ok; last first.
    { rewrite (expand_one_array _ _ _ _ _ He HT), HT'. done. }
    rewrite (IH Ts''); [|done]. by rewrite <- app_assoc.
Qed.

Lemma result_mapM_id {A} (l : list A) : result_mapM Ok l = Ok l.
Proof. induction l as [|a l IH]; simpl; [done|]. by rewrite IH. Qed.

(** X4 -- the edges of [TreatmentExpansionMixin._expand_treatments].  A
    feature array without dimension raises the [IndexError] of
    [shape(X)[0]] before any treatment is looked at.  When every treatment
    is an array and no transformer is configured, the arguments are
    returned as they are, without a warning and without reading [_d_t_in]:
    also before the first fit.  A scalar treatment before the first fit
    (no [_d_t_in] yet) raises the [AttributeError] of the missing
    attribute, after the arrays that come before it have been
    transformed. *)
Theorem expand_treatments_edge_cases self X Ts w e :
  is_estimator w self e →
  treatment_expansion (cls e) = true →
  (∀ x, X = Some x → ndim x = 0 →
        _expand_treatments self X Ts w
        = (Err (IndexError "tuple index out of range"), w)) ∧
  (∀ n, n_rows_of X = Ok n → transformer e = None →
        Forall (λ T, ndim T ≠ 0) Ts →
        _expand_treatments self X Ts w = (Ok (X, Ts), w)) ∧
  (∀ n pre pre' T post,
     n_rows_of X = Ok n → Ts = pre ++ T :: post →
     Forall (λ T, ndim T ≠ 0) pre →
     result_mapM (apply_transformer (transformer e)) pre = Ok pre' →
     ndim T = 0 → _d_t_in e = None →
     _expand_treatments self X Ts w
     = (Err (no_attribute (ObjEstimator e) "_d_t_in"), w)).
Proof.
  intros He Hc.
  assert (Hexp : ∀ n, n_rows_of X = Ok n →
            _expand_treatments self X Ts w
            = (let* outTs := TreatmentExpansionMixin.expand_loop self n Ts [] in
               ret (X, outTs)) w).
  { intros n Hn. rewrite (expand_treatments_resolved _ _ _ _ _ He).
    unfold resolve; simpl. rewrite Hc.
    unfold TreatmentExpansionMixin._expand_treatments.
    erewrite bind_Ok; [done|].
    destruct X as [x|]; simpl in Hn; unfold lift, ret; [by rewrite Hn|by simplify_eq]. }
  split_and!.
  - intros x -> Hx. rewrite (expand_treatments_resolved _ _ _ _ _ He).
    unfold resolve; simpl. rewrite Hc.
    unfold TreatmentExpansionMixin._expand_treatments.
    erewrite bind_Err; [done|]. unfold lift.
    unfold ndim in Hx. apply nil_length_inv in Hx. by rewrite Hx.
  - intros n Hn Htr HTs. rewrite (Hexp n Hn).
    rewrite <- (app_nil_r Ts) at 1.
    erewrite bind_Ok; last first.
    { rewrite (expand_loop_arrays self e n Ts Ts [] w He HTs); [done|].
      rewrite Htr. apply result_mapM_id. }
    done.
  - intros n pre pre' T post Hn -> Hpre Hm HT Hd. rewrite (Hexp n Hn).
    erewrite bind_Err; [done|].
    rewrite (expand_loop_arrays self e n pre pre' [] w He Hpre Hm). simpl.
    erewrite bind_Err; [done|]. by apply expand_one_unset.
Qed.

Lemma getd_full sh (v : R) idx :
  Forall2 lt idx sh → getd (full sh v) idx = v.
Proof. intros Hv. unfold getd. by rewrite get_full. Qed.

Lemma expand_treatments_is self X Ts w e d_t_in n_rows Ts' :
  is_estimator w self e →
  treatment_expansion (cls e) = true →
  _d_t_in e = Some d_t_in →
  n_rows_of X = Ok n_rows →
  result_mapM (λ T, apply_transformer (transformer e)
                      (broadcast_scalar n_rows d_t_in T)) Ts = Ok Ts' →
  _expand_treatments self X Ts w
  = (Ok (X, Ts'), World (heap w) (trace w ++ warnings_for d_t_in Ts)).
Proof.
  intros He Hc Hd Hn Hm.
  rewrite (expand_treatments_resolved _ _ _ _ _ He).
  unfold resolve; simpl. rewrite Hc.
  unfold TreatmentExpansionMixin._expand_treatments.
  erewrite bind_Ok; last first.
  { destruct X as [x|]; simpl in Hn; unfold lift, ret;
      [by rewrite Hn|by simplify_eq]. }
  by rewrite (bind_Ok _ _ _ _ _ (expand_loop_is _ _ _ _ _ _ _ [] He Hd Hm)).
Qed.

(** X3 -- [TreatmentExpansionMixin.effect(X, T0, T1)] for scalar
    treatments, in particular for the defaults [T0=0] and [T1=1], of an
    estimator without transformer.  With [n_rows] 1 when [X] is [None] and
    the row count of [X] otherwise, the call returns an array of [n_rows]
    rows whose entries are [Σ_t theta[i,y,t]·(T1 - T0)] for
    [theta = const_marginal_effect(X)]; it warns twice (once for each
    scalar) when there are several treatments and not at all otherwise,
    and leaves every object as it is. *)
Theorem effect_of_scalar_treatments self X (T0 T1 : option (ndarray R)) w e
    eff0 (m : nat) (dy dt : option nat) :
  is_estimator w self e →
  treatment_expansion (cls e) = true →
  transformer e = None →
  _d_t_in e = Some (axes dt) →
  n_rows_of X = Ok m →
  const_marginal_effect e X = Ok eff0 →
  shape eff0 = m :: axes dy ++ axes dt →
  wf eff0 →
  ndim (default (np.scalar zero) T0) = 0 →
  ndim (default (np.scalar one) T1) = 0 →
  let dT := sub (getd (default (np.scalar one) T1) [])
                (getd (default (np.scalar zero) T0) []) in
  ∃ r, TreatmentExpansionMixin.effect (resolve (cls e)) self X T0 T1 w
       = (Ok r, World (heap w) (trace w ++ two_scalar_warnings dt)) ∧
       shape r = m :: axes dy ∧
       ∀ i y, i < m → Forall2 lt y (axes dy) →
         get r (i :: y) = Some
           match dt with
           | Some d =>
               sum_list (map (λ t, mul (getd eff0 (i :: y ++ [t])) dT)
                             (seq 0 d))
           | None => mul (getd eff0 (i :: y)) dT
           end.
Proof.
  intros He Hc Htr Hd Hn Hcme Hsh Hwf.
  set (s0 := default (np.scalar zero) T0).
  set (s1 := default (np.scalar one) T1). intros Hs0 Hs1 dT.
  assert (Hexp :
    _expand_treatments self X [s0; s1] w
    = (Ok (X, [full (m :: axes dt) (getd s0 []);
               full (m :: axes dt) (getd s1 [])]),
       World (heap w) (trace w ++ two_scalar_warnings dt))).
  { rewrite (expand_treatments_is self X [s0; s1] w e (axes dt) m
               [full (m :: axes dt) (getd s0 []);
                full (m :: axes dt) (getd s1 [])] He Hc Hd Hn).
    - f_equal. f_equal. f_equal. unfold warnings_for, two_scalar_warnings.
      simpl. rewrite app_nil_r. unfold scalar_for_many.
      destruct dt as [d|]; simpl.
      + destruct (decide (1 < d)).
        * rewrite !decide_True by done. done.
        * rewrite !decide_False by (intros (_ & _ & ?); done). done.
      + rewrite !decide_False by (intros (_ & ? & _); done). done.
    - simpl. rewrite Htr. unfold broadcast_scalar; simpl.
      by rewrite !decide_True by done. }
  assert (Hm1 : X = None → m = 1).
  { intros ->. simpl in Hn. by simplify_eq. }
  destruct (effect_entries self X s0 s1 w e _ _ _ eff0 m dy dt He Hexp Hcme)
    as (r & Hr & Hshr & Hget); [|done..|].
  { destruct X; [done|]. by rewrite (Hm1 eq_refl) in Hsh. }
  exists r. split_and!; [|done|].
  - unfold TreatmentExpansionMixin.effect. fold s0 s1. rewrite <- Hr.
    unfold effect. by rewrite (bind_Ok _ _ _ _ _ (vtable_of_is _ _ _ He)).
  - intros i y Hi Hy. rewrite (Hget i y Hi Hy). f_equal.
    assert (Hrow : (if X is Some _ then i else 0) = i).
    { destruct X; [done|]. specialize (Hm1 eq_refl). lia. }
    rewrite Hrow. unfold dT.
    destruct dt as [d|]; simpl.
    + f_equal. apply map_ext_in. intros t Ht%in_seq.
      by rewrite !getd_full by (repeat constructor; lia).
    + by rewrite !getd_full by (repeat constructor; lia).
Qed.

End ScalarTreatments.

Section ScalarWitnesses.
#[local] Existing Instance Demo.types.
#[local] Existing Instance Demo.collaborators.
Import Demo.

(** [effect(X)] with the default treatments, for three treatments. *)
Example effect_defaults_demo :
  TreatmentExpansionMixin.effect (resolve dml) 0 (Some X) None None w_fitted
  = (Ok (NDArray [2; 2] [6; 15; 24; 33]%Z),
     World (heap w_fitted)
           [Warn TreatmentExpansionMixin.scalar_warning;
            Warn TreatmentExpansionMixin.scalar_warning]).
Proof. vm_compute. reflexivity. Qed.

Lemma effect_of_scalar_treatments_witness :
  (is_estimator w_fitted 0 (fitted_estimator dml theta None None) ∧
   treatment_expansion (cls (fitted_estimator dml theta None None)) = true ∧
   transformer (fitted_estimator dml theta None None) = None ∧
   _d_t_in (fitted_estimator dml theta None None) = Some (axes (Some 3)) ∧
   n_rows_of (Some X) = Ok 2 ∧
   const_marginal_effect (fitted_estimator dml theta None None) (Some X)
   = Ok theta ∧
   shape theta = 2 :: axes (Some 2) ++ axes (Some 3) ∧
   wf theta ∧
   ndim (default (np.scalar zero) (@None (ndarray Z))) = 0 ∧
   ndim (default (np.scalar one) (@None (ndarray Z))) = 0) ∧
  ∃ r, TreatmentExpansionMixin.effect
         (resolve (cls (fitted_estimator dml theta None None)))
         0 (Some X) None None w_fitted
       = (Ok r, World (heap w_fitted)
                      (trace w_fitted ++ two_scalar_warnings (Some 3))) ∧
       shape r = 2 :: axes (Some 2) ∧
       ∀ i y, i < 2 → Forall2 lt y (axes (Some 2)) →
         get r (i :: y) = Some
           (sum_list (map (λ t, mul (getd theta (i :: y ++ [t]))
                                    (sub (getd (np.scalar one) [])
                                         (getd (np.scalar zero) [])))
                          (seq 0 3))).
Proof.
  split; [by vm_compute|].
  apply (effect_of_scalar_treatments 0 (Some X) None None w_fitted
           (fitted_estimator dml theta None None) theta 2 (Some 2) (Some 3));
    by vm_compute.
Defined.

Lemma expand_treatments_edge_cases_witness :
  (is_estimator w0 0 (new dml) ∧ treatment_expansion (cls (new dml)) = true) ∧
  (∀ x, @None (ndarray Z) = Some x → ndim x = 0 →
        _expand_treatments 0 None [T0; np.scalar 5%Z] w0
        = (Err (IndexError "tuple index out of range"), w0)) ∧
  (∀ n, n_rows_of (@None (ndarray Z)) = Ok n → transformer (new dml) = None →
        Forall (λ T, ndim T ≠ 0) [T0; np.scalar 5%Z] →
        _expand_treatments 0 None [T0; np.scalar 5%Z] w0
        = (Ok (None, [T0; np.scalar 5%Z]), w0)) ∧
  (∀ n pre pre' T post,
     n_rows_of (@None (ndarray Z)) = Ok n →
     [T0; np.scalar 5%Z] = pre ++ T :: post →
     Forall (λ T, ndim T ≠ 0) pre →
     result_mapM (apply_transformer (transformer (new dml))) pre = Ok pre' →
     ndim T = 0 → _d_t_in (new dml) = None →
     _expand_treatments 0 None [T0; np.scalar 5%Z] w0
     = (Err (no_attribute (ObjEstimator (new dml)) "_d_t_in"), w0)).
Proof.
  split; [by vm_compute|].
  apply (expand_treatments_edge_cases 0 None [T0; np.scalar 5%Z] w0 (new dml));
    by vm_compute.
Defined.

(** A scalar treatment before the first fit. *)
Example expand_before_fit_demo :
  _expand_treatments 0 None [T0; np.scalar 5%Z] w0
  = (Err (AttributeError
            "'DMLCateEstimator' object has no attribute '_d_t_in'"), w0).
Proof. vm_compute. reflexivity. Qed.

End ScalarWitnesses.

(** ** A fit without inference *)

Section FitWithoutInference.
Context {R : Type} `{Scalar R} `{Collaborators R}.
Implicit Types (w : world R) (self l : loc) (e : estimator).

(** X5 -- a wrapped [fit] with [inference=None], from any state of the
    estimator.  Its dimensions are recorded and the body of the fit runs;
    when the body returns, [_inference] is set to [None] and [self] is
    returned: no object is created, no inference method is called, and
    from then on every method decorated with [_defer_to_inference] raises
    the [AttributeError] that names it (also when an earlier fit had
    stored an inference object).  When the body raises, the exception
    propagates and [_inference] is not assigned. *)
Theorem fit_without_inference self Y T args w e e' raised :
  is_estimator w self e →
  fit_body (recorded (cls e) Y T e) Y T args = (e', raised) →
  match raised with
  | None =>
      let w' := World (<[self := ObjEstimator (set_inference None e')]> (heap w))
                      (trace w ++ fit_events (cls e) self Y T args None) in
      fit self Y T args ArgNone w = (Ok self, w') ∧
      ∀ name cargs,
        BaseCateEstimator._defer_to_inference name self cargs w'
        = (Err (inference_is_None name), w')
  | Some ex =>
      fit self Y T args ArgNone w
      = (Err ex,
         World (<[self := ObjEstimator e']> (heap w))
               (trace w ++ record_events (cls e) self Y T ++
                [CallFitBody self Y T args]))
  end.
Proof.
  intros He Hbody.
  assert (Hfit : fit self Y T args ArgNone w
    = match raised with
      | None =>
          (Ok self,
           World (<[self := ObjEstimator (set_inference None e')]> (heap w))
                 (trace w ++ fit_events (cls e) self Y T args None))
      | Some ex =>
          (Err ex,
           World (<[self := ObjEstimator e']> (heap w))
                 (trace w ++ record_events (cls e) self Y T ++
                  [CallFitBody self Y T args]))
      end).
  { unfold fit. rewrite (bind_Ok _ _ _ _ _ (vtable_of_is _ _ _ He)).
    unfold BaseCateEstimator._wrap_fit.
    erewrite bind_Ok; [|reflexivity].
    rewrite (bind_Ok _ _ _ _ _ (prefit_is _ _ _ Y T args He)).
    erewrite bind_Ok; [|reflexivity].
    rewrite (bind_eq _ _ _ _ _
               (call_fit_body_is self Y T args _ _ e' raised
                  (is_estimator_insert _ _ _ _) Hbody)).
    destruct raised as [ex|]; simpl.
    - by rewrite insert_insert_eq, <- app_assoc.
    - erewrite bind_Ok; [|reflexivity].
      erewrite bind_Ok; last first.
      { apply setattr_is. apply is_estimator_insert. }
      unfold ret; simpl. rewrite !insert_insert_eq.
      unfold fit_events. simpl. by rewrite <- !app_assoc. }
  destruct raised as [ex|]; [done|]. simpl. split; [done|].
  intros name cargs.
  apply (defer_to_inference_None name self cargs _ (set_inference None e'));
    [apply is_estimator_insert|done].
Qed.

End FitWithoutInference.

Section FitWithoutInferenceWitnesses.
#[local] Existing Instance Demo.types.
#[local] Existing Instance Demo.collaborators.
Import Demo.

Lemma fit_without_inference_witness :
  (is_estimator w0 1 (new linear) ∧
   fit_body (recorded (cls (new linear)) Y T (new linear)) Y T no_args
   = (set_fitted T (recorded linear Y T (new linear)), None)) ∧
  fit 1 Y T no_args ArgNone w0 = (Ok 1, w_plain) ∧
  ∀ name cargs,
    BaseCateEstimator._defer_to_inference name 1 cargs w_plain
    = (Err (inference_is_None name), w_plain).
Proof.
  split; [by vm_compute|].
  apply (fit_without_inference 1 Y T no_args w0 (new linear)
           (set_fitted T (recorded linear Y T (new linear))) None);
    by vm_compute.
Defined.

(** After a fit without inference, [effect_interval] raises. *)
Example effect_interval_without_inference_demo :
  (BaseCateEstimator.effect_interval 1 (CallArgs [] []) w_plain).1
  = Err (AttributeError
           "Can't call 'effect_interval' because 'inference' is None").
Proof. vm_compute. reflexivity. Qed.

End FitWithoutInferenceWitnesses.

(** ** The inference object of a fit *)

Section InferenceOfFit.
Context {R : Type} `{Scalar R} `{Collaborators R}.
Implicit Types (w : world R) (self l : loc) (e : estimator).

(** The resolution of an object: its deep copy, at a new place. *)
Lemma get_inference_object vt l w :
  BaseCateEstimator._get_inference vt (ArgObject l) w
  = match heap w !! l with
    | Some o =>
        let l' := fresh (dom (heap w)) in
        (Ok (Some l'),
         World (<[l' := o]> (heap w)) (trace w ++ [Deepcopy l l']))
    | None => (Err (Exn "ReferenceError" "no such object"), w)
    end.
Proof.
  unfold BaseCateEstimator._get_inference.
  erewrite bind_Ok; [|reflexivity].
  unfold deepcopy, load, bind. by destruct (heap w !! l).
Qed.

(** The resolution of a key of the registry: a new instance, and its deep
    copy. *)
Lemma get_inference_str vt s c w :
  dict_get s (v_get_inference_options vt) = Some c →
  let src := fresh (dom (heap w)) in
  let h1 := <[src := ObjInference (construct c)]> (heap w) in
  let l' := fresh (dom h1) in
  BaseCateEstimator._get_inference vt (ArgStr s) w
  = (Ok (Some l'),
     World (<[l' := ObjInference (construct c)]> h1)
           (trace w ++ [Construct c src; Deepcopy src l'])).
Proof.
  intros Hs src h1 l'. unfold BaseCateEstimator._get_inference. rewrite Hs.
  unfold BaseCateEstimator.new_inference, deepcopy, load, alloc, emit, bind, ret.
  simpl. fold src. fold h1. unfold h1 at 1. rewrite lookup_insert_eq. simpl.
  fold l'. by rewrite <- app_assoc.
Qed.

(** X6 -- the inference object a wrapped [fit] works on.  When a fit with
    an inference option returns, [inference.prefit], the body of the fit
    and [inference.fit] have run, in this order, on an inference object
    that started in the state of the object given (its deep copy) or, for
    a string, in the state of a new instance of the class the registry has
    for it; that object is at a new place and is the one [_inference]
    refers to; an object that was given is still in the state it had. *)
Theorem fit_starts_from_a_copy self Y T args inference w e r w' :
  is_estimator w self e →
  inference ≠ ArgNone →
  fit self Y T args inference w = (Ok r, w') →
  ∃ i0 i1 e2 e3 i2 e4 l',
    initial_inference (cls e) inference w = Some i0 ∧
    inference_prefit i0 (recorded (cls e) Y T e) Y T args = (i1, e2, None) ∧
    fit_body e2 Y T args = (e3, None) ∧
    inference_fit i1 e3 Y T args = (i2, e4, None) ∧
    (l' ∉ dom (heap w)) ∧
    is_estimator w' self (set_inference (Some l') e4) ∧
    is_inference w' l' i2 ∧
    (∀ l, inference = ArgObject l → is_inference w' l i0).
Proof.
  intros He Hne Hfit.
  destruct (fit_Ok_inv _ _ _ _ _ _ _ _ _ He Hfit)
    as (x & w1 & e4 & Hget & -> & _ & He4 & _ & Hx).
  destruct inference as [|s|l]; [done|..].
  - unfold initial_inference, options_of.
    destruct (dict_get s (v_get_inference_options (resolve (cls e))))
      as [c|] eqn:Hs.
    + rewrite (get_inference_str _ _ _ w Hs) in Hget. simplify_eq.
      destruct Hx as (i0 & i1 & e2 & e3 & i2 & _ & Hl' & Hpre & Hbody & Hfit' & Hi2).
      simpl in Hl'. rewrite lookup_insert_eq in Hl'. simplify_eq.
      eexists _, i1, e2, e3, i2, e4, _. split_and!; try done.
      intros Hin.
      apply (is_fresh
               (dom (<[fresh (dom (heap w)) := ObjInference (construct c)]>
                       (heap w)))).
      eapply (subseteq_dom (heap w)); [|exact Hin].
      apply insert_subseteq, not_elem_of_dom, is_fresh.
    + unfold BaseCateEstimator._get_inference in Hget. rewrite Hs in Hget.
      by erewrite bind_Err in Hget.
  - rewrite get_inference_object in Hget.
    destruct (heap w !! l) as [o|] eqn:Hl; [|done]. simpl in Hget. simplify_eq.
    destruct Hx as (i0 & i1 & e2 & e3 & i2 & _ & Hl' & Hpre & Hbody & Hfit' & Hi2).
    simpl in Hl'. rewrite lookup_insert_eq in Hl'. simplify_eq.
    exists i0, i1, e2, e3, i2, e4, (fresh (dom (heap w))).
    unfold initial_inference. rewrite Hl.
    split_and!; try done; [apply is_fresh|].
    intros l0 [= <-]. unfold is_inference.
    destruct (fit_frame _ _ _ _ _ _ _ _ Hfit) as [_ Hframe].
    rewrite Hframe; [done| |].
    + apply elem_of_dom. by eexists.
    + intros ->. unfold is_estimator in He. congruence.
Qed.

(** X7 -- a deferred method after a fit.  When a fit with an inference
    option has returned, a call of a method decorated with
    [_defer_to_inference] is the call of the method of that name on the
    inference object the fit created (never on the object the caller gave
    to [fit]), with the caller's arguments and for the estimator as the
    fit left it; it changes no object that existed before the fit. *)
Theorem interval_after_fit self Y T args inference w e r w' :
  is_estimator w self e →
  inference ≠ ArgNone →
  fit self Y T args inference w = (Ok r, w') →
  ∃ l' i2 e',
    (l' ∉ dom (heap w)) ∧ is_estimator w' self e' ∧ is_inference w' l' i2 ∧
    ∀ name cargs,
      BaseCateEstimator._defer_to_inference name self cargs w'
      = forwarded name l' i2 e' cargs w' ∧
      ∀ l, l ∈ dom (heap w) →
           heap (forwarded name l' i2 e' cargs w').2 !! l = heap w' !! l.
Proof.
  intros He Hne Hfit.
  destruct (fit_returns_steps _ _ _ _ _ _ _ _ _ He Hne Hfit)
    as (src & l' & i0 & i1 & e2 & e3 & i2 & e4 & Hl' & _ & _ & _ & _ & _ &
        He' & Hi2 & _).
  exists l', i2, (set_inference (Some l') e4). split_and!; [done..|].
  intros name cargs. split.
  - by apply defer_to_inference_forwards.
  - intros l Hl. unfold forwarded.
    destruct (inference_method name i2 _ cargs) as [i' res]. simpl.
    apply lookup_insert_ne. by intros ->.
Qed.

End InferenceOfFit.

Section InferenceOfFitWitnesses.
#[local] Existing Instance Demo.types.
#[local] Existing Instance Demo.collaborators.
Import Demo.

Lemma fit_starts_from_a_copy_witness :
  (is_estimator w0 0 (new dml) ∧
   ArgObject 2 ≠ ArgNone ∧
   fit 0 Y T no_args (ArgObject 2) w0 = (Ok 0, w1)) ∧
  ∃ i0 i1 e2 e3 i2 e4 l',
    initial_inference (cls (new dml)) (ArgObject 2) w0 = Some i0 ∧
    inference_prefit i0 (recorded (cls (new dml)) Y T (new dml)) Y T no_args
    = (i1, e2, None) ∧
    fit_body e2 Y T no_args = (e3, None) ∧
    inference_fit i1 e3 Y T no_args = (i2, e4, None) ∧
    (l' ∉ dom (heap w0)) ∧
    is_estimator w1 0 (set_inference (Some l') e4) ∧
    is_inference w1 l' i2 ∧
    (∀ l, ArgObject 2 = ArgObject l → is_inference w1 l i0).
Proof.
  split; [split_and!; [by vm_compute|done|by vm_compute]|].
  apply (fit_starts_from_a_copy 0 Y T no_args (ArgObject 2) w0 (new dml)
           0 w1);
    [by vm_compute|done|by vm_compute].
Defined.

(** The fit of the estimator [0] with the inference object [2], whose state
    is [[7]]: the copy at [3] is fitted (it remembers the outcomes), the
    object [2] is as it was. *)
Example fit_copy_demo :
  initial_inference dml (ArgObject 2) w0 = Some [7%Z] ∧
  heap w1 !! 3 = Some (ObjInference [1; 2; 3]%Z) ∧
  heap w1 !! 2 = Some (ObjInference [7%Z]).
Proof. by vm_compute. Qed.

Lemma interval_after_fit_witness :
  (is_estimator w0 0 (new dml) ∧
   ArgObject 2 ≠ ArgNone ∧
   fit 0 Y T no_args (ArgObject 2) w0 = (Ok 0, w1)) ∧
  ∃ l' i2 e',
    (l' ∉ dom (heap w0)) ∧ is_estimator w1 0 e' ∧ is_inference w1 l' i2 ∧
    ∀ name cargs,
      BaseCateEstimator._defer_to_inference name 0 cargs w1
      = forwarded name l' i2 e' cargs w1 ∧
      ∀ l, l ∈ dom (heap w0) →
           heap (forwarded name l' i2 e' cargs w1).2 !! l = heap w1 !! l.
Proof.
  split; [split_and!; [by vm_compute|done|by vm_compute]|].
  apply (interval_after_fit 0 Y T no_args (ArgObject 2) w0 (new dml) 0 w1);
    [by vm_compute|done|by vm_compute].
Defined.

End InferenceOfFitWitnesses.

(** ** A fit that raises *)

Section FailedFit.
Context {R : Type} `{Scalar R} `{Collaborators R}.
Implicit Types (w : world R) (self l : loc) (e : estimator).

Lemma keeps_at_bind self P {A B} (m : M R A) (k : A → M R B) :
  keeps_at (R:=R) self P m → (∀ a, keeps_at_when_raising (R:=R) self P (k a)) →
  keeps_at_when_raising (R:=R) self P (bind m k).
Proof.
  intros Hm Hk w ex w' e He HP Hb.
  apply bind_inv in Hb as [(a & w1 & Hm1 & Hk1)|(ex' & Hm1 & _)].
  - destruct (Hm _ _ _ _ He HP Hm1) as (e1 & He1 & HP1).
    by eapply Hk.
  - by eapply Hm.
Qed.

Lemma keeps_at_hook self P hook name ev l Y T args :
  (∀ i e, P e → P (hook i e Y T args).1.2) →
  keeps_at (R:=R) self P
    (BaseCateEstimator.call_inference_hook hook name ev l self Y T args).
Proof.
  intros Hhook w r w' e He HP Hm.
  destruct (heap w !! l) as [[e0|i]|] eqn:Hl.
  2: { destruct (hook i e Y T args) as [[i' e'] raised] eqn:Hh.
       rewrite (call_inference_hook_is _ _ _ _ _ _ _ _ _ _ _ _ _ _ Hl He Hh) in Hm.
       simplify_eq. exists e'. split; [apply is_estimator_insert|].
       specialize (Hhook i e HP). by rewrite Hh in Hhook. }
  all: destruct (call_inference_hook_not_inference hook name ev l self Y T args w)
         as (ex & Hex); [intros i; congruence|];
       rewrite Hex in Hm; simplify_eq; by exists e.
Qed.

Lemma keeps_at_fit_body self P Y T args :
  (∀ e, P e → P (fit_body e Y T args).1) →
  keeps_at (R:=R) self P (BaseCateEstimator.call_fit_body self Y T args).
Proof.
  intros Hbody w r w' e He HP Hm.
  destruct (fit_body e Y T args) as [e' raised] eqn:Hb.
  rewrite (call_fit_body_is _ _ _ _ _ _ _ _ He Hb) in Hm. simplify_eq.
  exists e'. split; [apply is_estimator_insert|].
  specialize (Hbody e HP). by rewrite Hb in Hbody.
Qed.

Lemma keeps_at_ret self P {A} (a : A) : keeps_at (R:=R) self P (ret a).
Proof. intros w r w' e He HP [= <- <-]. by exists e. Qed.

(** The last two steps of a wrapped fit do not raise. *)
Lemma keeps_at_last_steps self P x :
  keeps_at_when_raising (R:=R) self P
    (setattr self "_inference" (AttrRef x) (set_inference x);; ret self).
Proof.
  intros w ex w' e He HP Hm.
  by rewrite (bind_Ok _ _ _ _ _ (setattr_is _ _ _ _ _ _ He)) in Hm.
Qed.

(** X8 -- a wrapped [fit] that raises.  Either the [inference] argument
    could not be resolved and the store is as it was, or the estimator has
    the dimensions of the new [Y] and [T] while [_inference] still is what
    it was before the call: the assignment of [_inference] is the last
    step, so a fit that fails leaves the result of an earlier fit in
    place.  (For collaborators that assign neither [_inference] nor the
    recorded dimensions themselves.) *)
Theorem failed_fit_keeps_inference self Y T args inference w e ex w' :
  is_estimator w self e →
  hooks_keep _inference → hooks_keep dims →
  fit self Y T args inference w = (Err ex, w') →
  w' = w ∨
  ∃ e', is_estimator w' self e' ∧
        _inference e' = _inference e ∧
        _d_y e' = Some (drop 1 (shape Y)) ∧
        _d_t e' = Some (drop 1 (shape T)).
Proof.
  intros He (Hb1 & Hp1 & Hf1) (Hb2 & Hp2 & Hf2) Hfit.
  set (P := λ e' : estimator,
         _inference e' = _inference e ∧
         _d_y e' = Some (drop 1 (shape Y)) ∧
         _d_t e' = Some (drop 1 (shape T))).
  assert (HPd : ∀ e1 e2, _inference e2 = _inference e1 → dims e2 = dims e1 →
                         P e1 → P e2).
  { intros e1 e2 Hi Hd (? & ? & ?). unfold dims in Hd. unfold P.
    simplify_eq. split_and!; congruence. }
  unfold fit in Hfit.
  rewrite (bind_Ok _ _ _ _ _ (vtable_of_is _ _ _ He)) in Hfit.
  unfold BaseCateEstimator._wrap_fit in Hfit.
  apply bind_inv in Hfit as [(x & w1 & Hget & Hrest)|(ex' & Hget & _)].
  2: { left.
       destruct (get_inference_cases _ _ _ _ _ Hget)
         as [(? & _ & ->)|[(? & _)|(? & ? & ? & ? & _)]]; done. }
  right.
  assert (He1 : is_estimator w1 self e).
  { destruct (get_inference_cases _ _ _ _ _ Hget)
      as [(? & ? & _)|[(_ & _ & ->)|(l' & src & o & _ & _ & _ & _ & _ & _ & Hold & _)]];
      [done|done|].
    unfold is_estimator. rewrite Hold; [done|]. by eapply is_estimator_dom. }
  rewrite (bind_Ok _ _ _ _ _ (prefit_is _ _ _ Y T args He1)) in Hrest.
  match type of Hrest with
  | ?m ?w2 = _ =>
      assert (Hk : keeps_at_when_raising (R:=R) self P m);
      [|apply (Hk w2 ex w' (recorded (cls e) Y T e));
        [apply is_estimator_insert| |exact Hrest]]
  end.
  - apply keeps_at_bind.
    { destruct x as [l'|]; [|apply keeps_at_ret].
      apply keeps_at_hook. intros i e0. apply HPd; [apply Hp1|apply Hp2]. }
    intros _. apply keeps_at_bind.
    { apply keeps_at_fit_body. intros e0. apply HPd; [apply Hb1|apply Hb2]. }
    intros _. apply keeps_at_bind.
    { destruct x as [l'|]; [|apply keeps_at_ret].
      apply keeps_at_hook. intros i e0. apply HPd; [apply Hf1|apply Hf2]. }
    intros _. apply keeps_at_last_steps.
  - unfold P, recorded. by destruct (treatment_expansion (cls e)).
Qed.

(** X9 -- what a wrapped [fit] leaves alone, whether it returns or raises:
    every object that existed before the call, other than the estimator it
    is called on, is as it was (other estimators, the inference objects
    they hold, the inference object given as argument), and no object is
    removed. *)
Theorem fit_touches_only_self self Y T args inference w r w' :
  fit self Y T args inference w = (r, w') →
  dom (heap w) ⊆ dom (heap w') ∧
  ∀ l, l ∈ dom (heap w) → l ≠ self → heap w' !! l = heap w !! l.
Proof. apply fit_frame. Qed.

End FailedFit.

Section FailedFitWitnesses.
#[local] Existing Instance Demo.types.
#[local] Existing Instance Failing.collaborators.
Import Demo.

Lemma failing_hooks_keep_inference : hooks_keep (_inference (H:=Demo.types)).
Proof.
  split_and!; intros; simpl; [|done..]. by case_decide.
Qed.

Lemma failing_hooks_keep_dims : hooks_keep (dims (H:=Demo.types)).
Proof.
  split_and!; intros; simpl; [|done..]. by case_decide.
Qed.

(** A fit of the estimator [1] that raises in the body of the fit: the
    dimensions are those of the new data, [_inference] is still the object
    [2] of the earlier fit. *)
Example failed_fit_demo :
  Failing.failed_fit.1 = Err Failing.inconsistent ∧
  is_estimator Failing.failed_fit.2 1 Failing.e_failed.
Proof. by vm_compute. Qed.

Lemma failed_fit_keeps_inference_witness :
  (is_estimator w_fitted 1 (fitted_estimator linear theta1 None (Some 2)) ∧
   hooks_keep (_inference (H:=Demo.types)) ∧
   hooks_keep (dims (H:=Demo.types)) ∧
   fit 1 Failing.Y2 T no_args ArgNone w_fitted
   = (Err Failing.inconsistent, Failing.failed_fit.2)) ∧
  (Failing.failed_fit.2 = w_fitted ∨
   ∃ e', is_estimator Failing.failed_fit.2 1 e' ∧
         _inference e' = _inference (fitted_estimator linear theta1 None (Some 2)) ∧
         _d_y e' = Some (drop 1 (shape Failing.Y2)) ∧
         _d_t e' = Some (drop 1 (shape T))).
Proof.
  split.
  { split_and!; [by vm_compute|apply failing_hooks_keep_inference
                |apply failing_hooks_keep_dims|by vm_compute]. }
  apply (failed_fit_keeps_inference 1 Failing.Y2 T no_args ArgNone w_fitted
           (fitted_estimator linear theta1 None (Some 2))
           Failing.inconsistent Failing.failed_fit.2);
    [by vm_compute|apply failing_hooks_keep_inference
    |apply failing_hooks_keep_dims|by vm_compute].
Defined.

End FailedFitWitnesses.

Section FrameWitnesses.
#[local] Existing Instance Demo.types.
#[local] Existing Instance Demo.collaborators.
Import Demo.

Lemma fit_touches_only_self_witness :
  fit 0 Y T no_args (ArgObject 2) w0 = (Ok 0, w1) ∧
  dom (heap w0) ⊆ dom (heap w1) ∧
  ∀ l, l ∈ dom (heap w0) → l ≠ 0 → heap w1 !! l = heap w0 !! l.
Proof.
  split; [by vm_compute|].
  apply (fit_touches_only_self 0 Y T no_args (ArgObject 2) w0 (Ok 0) w1).
  by vm_compute.
Defined.

End FrameWitnesses.

(** ** Scalar treatments and the interval of the marginal effect *)

Section IntervalOfScalars.
Context {R : Type} `{Scalar R} `{Collaborators R}.
Implicit Types (w : world R) (self l : loc) (e : estimator).

(** X10 -- [LinearCateEstimator.marginal_effect_interval] does not go
    through [_expand_treatments].  Without [X] and for a scalar [T], once
    the inference object has returned at least one bound, the call raises
    the [IndexError] of [shape(T)[0]] (the inference object has been
    called by then), also in a class with the treatment expansion, where
    [marginal_effect] accepts the same scalar and returns. *)
Theorem marginal_effect_interval_of_scalar self (T alpha : ndarray R) w e
    l i i' eff effs :
  is_estimator w self e →
  _inference e = Some (Some l) →
  is_inference w l i →
  let args := CallArgs [] [("X", PyNone); ("alpha", PyArr alpha)] in
  inference_method "const_marginal_effect_interval" i e args
  = (i', Ok (eff :: effs)) →
  ndim T = 0 →
  LinearCateEstimator.marginal_effect_interval self T None alpha w
  = (Err (IndexError "tuple index out of range"),
     World (<[l := ObjInference i']> (heap w))
           (trace w ++ [CallInference l "const_marginal_effect_interval" args]))
  ∧
  (∀ d eff0 k ds,
     treatment_expansion (cls e) = true →
     _d_t_in e = Some d → transformer e = None →
     const_marginal_effect e None = Ok eff0 → shape eff0 = k :: ds →
     ∃ r, (marginal_effect self T None w).1 = Ok r ∧ shape r = k :: ds).
Proof.
  intros He Hinf Hi args Hmeth HT. split.
  - unfold LinearCateEstimator.marginal_effect_interval.
    unfold LinearCateEstimator.const_marginal_effect_interval.
    pose proof (defer_to_inference_forwards "const_marginal_effect_interval"
                  self args w e l i He Hinf Hi) as Hd.
    unfold forwarded in Hd. fold args in Hmeth. rewrite Hmeth in Hd.
    rewrite (bind_Ok _ _ _ _ _ Hd).
    erewrite for_each_pure; last first.
    { intros a w0. unfold bind, lift.
      instantiate (1 := λ a, rbind (tuple_item0 (shape T)) (np.repeat a)).
      simpl. by destruct (tuple_item0 (shape T)). }
    unfold ndim in HT. apply nil_length_inv in HT. simpl. by rewrite HT.
  - intros d eff0 k ds Hc Hd Htr Hcme Hsh.
    assert (Hexp :
      _expand_treatments self None [T] w
      = (Ok (None, [full (1 :: d) (getd T [])]),
         World (heap w) (trace w ++ warnings_for d [T]))).
    { apply (expand_treatments_is self None [T] w e d 1); try done.
      simpl. rewrite Htr. unfold broadcast_scalar; simpl.
      by rewrite decide_True by done. }
    rewrite (marginal_effect_expanded _ _ _ _ _ _ _ He Hexp), Hcme. simpl.
    destruct (repeat_shape eff0 1 k ds Hsh) as (r & -> & Hr).
    exists r. split; [done|]. by rewrite Hr, Nat.mul_1_r.
Qed.

End IntervalOfScalars.

Section IntervalOfScalarsWitnesses.
#[local] Existing Instance Demo.types.
#[local] Existing Instance Demo.collaborators.
Import Demo.

Lemma marginal_effect_interval_of_scalar_witness :
  (is_estimator w1 0 (DemoRuns.estimator_at w1 0) ∧
   _inference (DemoRuns.estimator_at w1 0) = Some (Some 3) ∧
   is_inference w1 3 [1; 2; 3]%Z ∧
   inference_method "const_marginal_effect_interval" [1; 2; 3]%Z
     (DemoRuns.estimator_at w1 0)
     (CallArgs [] [("X", PyNone); ("alpha", PyArr alpha)])
   = ([1; 2; 3]%Z,
      Ok [NDArray [3] [1; 2; 3]%Z; NDArray [3] [1; 2; 3]%Z]) ∧
   ndim (np.scalar 5%Z) = 0) ∧
  LinearCateEstimator.marginal_effect_interval 0 (np.scalar 5%Z) None alpha w1
  = (Err (IndexError "tuple index out of range"),
     World (<[3 := ObjInference [1; 2; 3]%Z]> (heap w1))
           (trace w1 ++
            [CallInference 3 "const_marginal_effect_interval"
               (CallArgs [] [("X", PyNone); ("alpha", PyArr alpha)])]))
  ∧
  (∀ d eff0 k ds,
     treatment_expansion (cls (DemoRuns.estimator_at w1 0)) = true →
     _d_t_in (DemoRuns.estimator_at w1 0) = Some d →
     transformer (DemoRuns.estimator_at w1 0) = None →
     const_marginal_effect (DemoRuns.estimator_at w1 0) None = Ok eff0 →
     shape eff0 = k :: ds →
     ∃ r, (marginal_effect 0 (np.scalar 5%Z) None w1).1 = Ok r ∧
          shape r = k :: ds).
Proof.
  split; [by vm_compute|].
  apply (marginal_effect_interval_of_scalar 0 (np.scalar 5%Z) alpha w1
           (DemoRuns.estimator_at w1 0) 3 [1; 2; 3]%Z [1; 2; 3]%Z
           (NDArray [3] [1; 2; 3]%Z) [NDArray [3] [1; 2; 3]%Z]);
    by vm_compute.
Defined.

(** The same scalar, for the estimator [0] after its fit: the marginal
    effect is returned, its interval raises. *)
Example marginal_effect_of_scalar_demo :
  (marginal_effect 0 (np.scalar 5%Z) None w1).1 = Ok T ∧
  (LinearCateEstimator.marginal_effect_interval 0 (np.scalar 5%Z) None alpha w1).1
  = Err (IndexError "tuple index out of range").
Proof. by vm_compute. Qed.

End IntervalOfScalarsWitnesses.

(** ** The effect and the marginal effect *)

Section EffectAndMarginalEffect.
Context {R : Type} `{Scalar R} `{Collaborators R}.
Implicit Types (w : world R) (self l : loc) (e : estimator).

(** The expansion of the first of two treatments is its expansion when it
    is the only one. *)
Lemma expand_treatments_first self X (T0 T1 T0' T1' : ndarray R) w e w' :
  is_estimator w self e →
  _expand_treatments self X [T0; T1] w = (Ok (X, [T0'; T1']), w') →
  ∃ wm, _expand_treatments self X [T0] w = (Ok (X, [T0']), wm).
Proof.
  intros He. rewrite !(expand_treatments_resolved _ _ _ _ _ He).
  unfold resolve; simpl. destruct (treatment_expansion (cls e)).
  - unfold TreatmentExpansionMixin._expand_treatments. intros Hexp.
    apply bind_inv in Hexp as [(n & w1 & Hn & Hexp)|(? & _ & ?)]; [|done].
    apply bind_inv in Hexp as [(outTs & w2 & Hloop & Hret)|(? & _ & ?)]; [|done].
    simpl in Hloop.
    apply bind_inv in Hloop as [(T0'' & w3 & Hone & Hloop)|(? & _ & ?)]; [|done].
    apply bind_inv in Hloop as [(T1'' & w4 & Hone' & Hloop)|(? & _ & ?)]; [|done].
    unfold ret in Hloop, Hret. simpl in Hloop, Hret. simplify_eq.
    exists w3. rewrite (bind_Ok _ _ _ _ _ Hn). simpl.
    by rewrite (bind_Ok _ _ _ _ _ (bind_Ok _ _ _ _ _ Hone)).
  - unfold BaseCateEstimator._expand_treatments, ret. intros [= <- <- <-].
    by exists w.
Qed.

(** X11 -- [effect] and [marginal_effect] of a [LinearCateEstimator]
    agree: the result of [effect(X, T0, T1)] is the contraction
    [Σ_t me[i,y,t]·dT[i,t]] of [me = marginal_effect(T0, X)] with the
    difference [dT = T1 - T0] of the expanded treatments, taken entry by
    entry ([dT[idx] = T1[idx] - T0[idx]], with numpy's broadcasting), and
    [effect] raises what [marginal_effect] raises. *)
Theorem effect_is_marginal_effect_times_difference self X T0 T1 w e
    T0' T1' w' :
  is_estimator w self e →
  _expand_treatments self X [T0; T1] w = (Ok (X, [T0'; T1']), w') →
  (∀ ex, (marginal_effect self T0 X w).1 = Err ex →
         effect self X T0 T1 w = (Err ex, w')) ∧
  (∀ me dT (m : nat) (dy dt : option nat),
     (marginal_effect self T0 X w).1 = Ok me →
     np.subtract T1' T0' = Ok dT →
     shape me = m :: axes dy ++ axes dt →
     shape dT = m :: axes dt →
     (∃ r, effect self X T0 T1 w = (Ok r, w') ∧
           shape r = m :: axes dy ∧
           ∀ i y, i < m → Forall2 lt y (axes dy) →
                  get r (i :: y) = Some (contraction me dT dt i y)) ∧
     (∀ idx, Forall2 lt idx (m :: axes dt) →
             getd dT idx = sub (getb T1' idx) (getb T0' idx))).
Proof.
  intros He Hexp.
  destruct (expand_treatments_first _ _ _ _ _ _ _ _ _ He Hexp) as (wm & Hexp1).
  rewrite (marginal_effect_expanded _ _ _ _ _ _ _ He Hexp1).
  rewrite (effect_expanded _ _ _ _ _ _ _ _ _ He Hexp). simpl.
  split.
  - intros ex Hme. f_equal. unfold effect_value.
    destruct (const_marginal_effect e X) as [eff0|]; simpl in *; [|done].
    by rewrite Hme.
  - intros me dT m dy dt Hme Hsub Hsh HdT. split.
    + destruct (const_marginal_effect e X) as [eff0|] eqn:Hcme;
        simpl in Hme; [|done].
      destruct (effect_value_contraction e X T0' T1' eff0 me dT m dy dt)
        as (r & Hr & Hrest); [done..|].
      exists r. by rewrite Hr.
    + intros idx Hv. destruct (subtract_entries _ _ _ Hsub) as [_ Hent].
      apply Hent. by rewrite HdT.
Qed.

End EffectAndMarginalEffect.

Section EffectAndMarginalEffectWitnesses.
#[local] Existing Instance Demo.types.
#[local] Existing Instance Demo.collaborators.
Import Demo.

Lemma effect_is_marginal_effect_times_difference_witness :
  (is_estimator w_fitted 1 (fitted_estimator linear theta1 None (Some 2)) ∧
   _expand_treatments 1 None [NDArray [2; 2] [1; 1; 0; 2]%Z;
                              NDArray [2; 2] [1; 2; 3; 4]%Z] w_fitted
   = (Ok (None, [NDArray [2; 2] [1; 1; 0; 2]%Z;
                 NDArray [2; 2] [1; 2; 3; 4]%Z]), w_fitted)) ∧
  (∀ ex, (marginal_effect 1 (NDArray [2; 2] [1; 1; 0; 2]%Z) None w_fitted).1
         = Err ex →
         effect 1 None (NDArray [2; 2] [1; 1; 0; 2]%Z)
                       (NDArray [2; 2] [1; 2; 3; 4]%Z) w_fitted
         = (Err ex, w_fitted)) ∧
  (∀ me dT (m : nat) (dy dt : option nat),
     (marginal_effect 1 (NDArray [2; 2] [1; 1; 0; 2]%Z) None w_fitted).1
     = Ok me →
     np.subtract (NDArray [2; 2] [1; 2; 3; 4]%Z) (NDArray [2; 2] [1; 1; 0; 2]%Z)
     = Ok dT →
     shape me = m :: axes dy ++ axes dt →
     shape dT = m :: axes dt →
     (∃ r, effect 1 None (NDArray [2; 2] [1; 1; 0; 2]%Z)
                         (NDArray [2; 2] [1; 2; 3; 4]%Z) w_fitted
           = (Ok r, w_fitted) ∧
           shape r = m :: axes dy ∧
           ∀ i y, i < m → Forall2 lt y (axes dy) →
                  get r (i :: y) = Some (contraction me dT dt i y)) ∧
     (∀ idx, Forall2 lt idx (m :: axes dt) →
             getd dT idx
             = sub (getb (NDArray [2; 2] [1; 2; 3; 4]%Z) idx)
                   (getb (NDArray [2; 2] [1; 1; 0; 2]%Z) idx))).
Proof.
  split; [by vm_compute|].
  apply (effect_is_marginal_effect_times_difference 1 None
           (NDArray [2; 2] [1; 1; 0; 2]%Z) (NDArray [2; 2] [1; 2; 3; 4]%Z)
           w_fitted (fitted_estimator linear theta1 None (Some 2))
           (NDArray [2; 2] [1; 1; 0; 2]%Z) (NDArray [2; 2] [1; 2; 3; 4]%Z)
           w_fitted);
    by vm_compute.
Defined.

(** The marginal effect and the difference of that call. *)
Example marginal_effect_times_difference_demo :
  (marginal_effect 1 (NDArray [2; 2] [1; 1; 0; 2]%Z) None w_fitted).1
  = Ok (NDArray [2; 2] [5; 7; 5; 7]%Z) ∧
  np.subtract (NDArray [2; 2] [1; 2; 3; 4]%Z) (NDArray [2; 2] [1; 1; 0; 2]%Z)
  = Ok (NDArray [2; 2] [0; 1; 3; 2]%Z) ∧
  (effect 1 None (NDArray [2; 2] [1; 1; 0; 2]%Z)
                 (NDArray [2; 2] [1; 2; 3; 4]%Z) w_fitted).1
  = Ok (NDArray [2] [7; 29]%Z).
Proof. by vm_compute. Qed.

End EffectAndMarginalEffectWitnesses.

(** ** Effects add up *)

Section Additivity.
Context {R : Type} `{ScalarAdditive R} `{!Types} `{!Collaborators R}.
Implicit Types (w : world R) (self l : loc) (e : estimator).
Implicit Types (sh idx : list nat) (a : ndarray R).

Lemma sum_list_add {A} (f g : A → R) (l : list A) :
  sum_list (map (λ x, add (f x) (g x)) l)
  = add (sum_list (map f l)) (sum_list (map g l)).
Proof.
  unfold sum_list. induction l as [|x l IH]; simpl.
  - by rewrite zero_add_zero.
  - by rewrite IH, add_interchange.
Qed.

Lemma sum_over_add (summed : labelled) (f g h : labelled → R)
    (env : labelled) :
  (∀ env' : labelled, h env' = add (f env') (g env')) →
  sum_over summed h env
  = add (sum_over summed f env) (sum_over summed g env).
Proof.
  intros Hh. revert env.
  induction summed as [|[l d] summed IH]; intros env; simpl.
  - apply Hh.
  - rewrite <- sum_list_add. f_equal. apply map_ext. intros i. apply IH.
Qed.

Lemma all_indices_valid sh idx : idx ∈ all_indices sh → Forall2 lt idx sh.
Proof.
  intros [o Ho]%list_elem_of_lookup.
  eapply offset_Some_valid. by apply all_indices_lookup.
Qed.

Lemma tabulate_ext_valid sh (f g : list nat → R) :
  (∀ idx, Forall2 lt idx sh → f idx = g idx) → tabulate sh f = tabulate sh g.
Proof.
  intros Hfg. unfold tabulate. f_equal. apply map_ext_in.
  intros idx Hin%list_elem_of_In. by apply Hfg, all_indices_valid.
Qed.

(** The sum of two arrays of one shape, given by their entries. *)
Lemma ndarray_add_tabulate sh (f g : list nat → R) :
  ndarray_add (tabulate sh f) (tabulate sh g)
  = Ok (tabulate sh (λ idx, add (f idx) (g idx))).
Proof.
  unfold ndarray_add. simpl. rewrite broadcast_shapes_diag. f_equal.
  apply tabulate_ext_valid. intros idx Hv.
  rewrite !(getb_valid _ sh) by done. by rewrite !getd_tabulate.
Qed.

(** [einsum] is additive in its second operand. *)
Lemma einsum_add (s : string) (eff d d1 d2 : ndarray R) :
  shape d1 = shape d → shape d2 = shape d →
  (∀ idx, getd d idx = add (getd d1 idx) (getd d2 idx)) →
  einsum s [eff; d]
  = rbind (einsum s [eff; d1]) (λ r1,
    rbind (einsum s [eff; d2]) (λ r2, ndarray_add r1 r2)).
Proof.
  intros Hs1 Hs2 Hd. unfold einsum.
  destruct (parse_subscripts s) as [[ins out]|]; [|done].
  destruct ins as [|ls1 [|ls2 [|ls3 ins]]]; simpl; try done.
  - destruct (decide _); [|done]. destruct (diagonal_ok _); [|done].
    by destruct (bind_labels _ _).
  - unfold ndim. rewrite Hs1, Hs2.
    destruct (decide (length ls1 = _)); [|done].
    destruct (diagonal_ok _); [|done].
    destruct (bind_labels _ _) as [e1|]; [|done]. simpl.
    destruct (decide (length ls2 = _)); [|done].
    destruct (diagonal_ok _); [|done].
    destruct (bind_labels _ _) as [dims|]; [|done]. simpl.
    destruct (distinct out); [|done]. simpl.
    destruct (mapM _ out) as [out_shape|]; [|done]. simpl.
    rewrite ndarray_add_tabulate. f_equal. apply tabulate_ext. intros idx.
    apply sum_over_add. intros e'. unfold term, operand_at, getb; simpl.
    by rewrite Hs1, Hs2, Hd, mul_add_distr_l.
  - unfold ndim. rewrite Hs1, Hs2.
    destruct (decide _); [|done]. destruct (diagonal_ok _); [|done].
    destruct (bind_labels _ _); [|done]. simpl.
    destruct (decide _); [|done]. destruct (diagonal_ok _); [|done].
    by destruct (bind_labels _ _).
Qed.

(** The differences of three treatments of one shape. *)
Lemma subtract_telescope (T0 T1 T2 : ndarray R) :
  shape T1 = shape T0 → shape T2 = shape T0 →
  ∃ d01 d12 d02,
    subtract T1 T0 = Ok d01 ∧ subtract T2 T1 = Ok d12 ∧
    subtract T2 T0 = Ok d02 ∧
    shape d01 = shape T0 ∧ shape d12 = shape T0 ∧ shape d02 = shape T0 ∧
    ∀ idx, getd d02 idx = add (getd d01 idx) (getd d12 idx).
Proof.
  intros H1' H2'. unfold subtract. rewrite H1', H2', broadcast_shapes_diag.
  eexists _, _, _. split_and!; try done. intros idx.
  unfold getd, get, tabulate; simpl.
  destruct (offset (shape T0) idx) as [o|]; simpl; [|by rewrite zero_add_zero].
  rewrite !list_lookup_fmap.
  destruct (all_indices (shape T0) !! o); simpl; [|by rewrite zero_add_zero].
  by rewrite sub_telescope.
Qed.

Lemma effect_value_add e X (T0 T1 T2 : ndarray R) :
  shape T1 = shape T0 → shape T2 = shape T0 →
  effect_value e X T0 T2
  = rbind (effect_value e X T0 T1) (λ r1,
    rbind (effect_value e X T1 T2) (λ r2, ndarray_add r1 r2)).
Proof.
  intros Hs1 Hs2. unfold effect_value, repeated. rewrite Hs1.
  destruct (const_marginal_effect e X) as [eff0|]; [|done]. cbn [rbind].
  destruct (match X with Some _ => _ | None => _ end) as [eff|]; [|done].
  cbn [rbind].
  destruct (tuple_item0 (shape eff)); [|done]. cbn [rbind].
  destruct (subtract_telescope T0 T1 T2 Hs1 Hs2)
    as (d01 & d12 & d02 & -> & -> & -> & Hd01 & Hd12 & Hd02 & Hd).
  cbn [rbind].
  assert (Hstr : ∀ d, shape d = shape T0 →
                      einsum_str eff d = einsum_str eff d02).
  { intros d Hd'. unfold einsum_str, ndim. by rewrite Hd', Hd02. }
  rewrite (Hstr d01 Hd01), (Hstr d12 Hd12).
  apply einsum_add; [congruence..|done].
Qed.

(** X12 -- effects add up.  For [LinearCateEstimator.effect] with the
    [_expand_treatments] of the base class and three treatments of one
    shape, [effect(X, T0, T2)] is the sum of [effect(X, T0, T1)] and
    [effect(X, T1, T2)], and it raises where one of them raises: the
    effect is linear in the change of the treatment. *)
Theorem effect_is_additive self w e X (T0 T1 T2 : ndarray R) :
  is_estimator w self e →
  treatment_expansion (cls e) = false →
  shape T1 = shape T0 → shape T2 = shape T0 →
  effect self X T0 T2 w
  = (rbind (effect self X T0 T1 w).1 (λ r1,
     rbind (effect self X T1 T2 w).1 (λ r2, ndarray_add r1 r2)), w) ∧
  ∀ r1 r2,
    effect self X T0 T1 w = (Ok r1, w) →
    effect self X T1 T2 w = (Ok r2, w) →
    ∃ r, effect self X T0 T2 w = (Ok r, w) ∧ ndarray_add r1 r2 = Ok r ∧
         shape r = shape r1.
Proof.
  intros He Hc Hs1 Hs2.
  assert (Heff : ∀ Ta Tb,
            effect self X Ta Tb w = (effect_value e X Ta Tb, w)).
  { intros Ta Tb. apply (effect_expanded self X Ta Tb w e); [done|].
    by apply (expand_treatments_base _ _ _ _ e). }
  rewrite !Heff. simpl. rewrite (effect_value_add e X T0 T1 T2 Hs1 Hs2).
  split; [done|]. intros r1 r2 [= Hr1] [= Hr2]. rewrite Hr1, Hr2. simpl.
  assert (Hsh : shape r2 = shape r1).
  { unfold effect_value, repeated in Hr1, Hr2. rewrite Hs1 in Hr2.
    destruct (const_marginal_effect e X) as [eff0|]; [|done].
    cbn [rbind] in Hr1, Hr2.
    destruct (match X with Some _ => _ | None => _ end) as [eff|]; [|done].
    cbn [rbind] in Hr1, Hr2.
    destruct (tuple_item0 (shape eff)); [|done]. cbn [rbind] in Hr1, Hr2.
    destruct (subtract_telescope T0 T1 T2 Hs1 Hs2)
      as (d01 & d12 & d02 & Hd01' & Hd12' & _ & Hd01 & Hd12 & _).
    rewrite Hd01' in Hr1. rewrite Hd12' in Hr2. cbn [rbind] in Hr1, Hr2.
    assert (Hstr : einsum_str eff d12 = einsum_str eff d01).
    { unfold einsum_str, ndim. by rewrite Hd01, Hd12. }
    rewrite Hstr in Hr2. revert Hr1 Hr2. unfold einsum.
    destruct (parse_subscripts _) as [[ins out]|]; [|done].
    destruct ins as [|ls1 [|ls2 [|ls3 ins]]]; simpl; try done.
    - destruct (decide _); [|done]. destruct (diagonal_ok _); [|done].
      by destruct (bind_labels _ _).
    - unfold ndim. rewrite Hd01, Hd12.
      destruct (decide (length ls1 = _)); [|done].
      destruct (diagonal_ok _); [|done].
      destruct (bind_labels _ _) as [e1|]; [|done]. simpl.
      destruct (decide (length ls2 = _)); [|done].
      destruct (diagonal_ok _); [|done].
      destruct (bind_labels _ _) as [dims|]; [|done]. simpl.
      destruct (distinct out); [|done]. simpl.
      destruct (mapM _ out) as [out_shape|]; [|done].
      by intros [= <-] [= <-].
    - unfold ndim. rewrite Hd01, Hd12.
      destruct (decide _); [|done]. destruct (diagonal_ok _); [|done].
      destruct (bind_labels _ _); [|done]. simpl.
      destruct (decide _); [|done]. destruct (diagonal_ok _); [|done].
      by destruct (bind_labels _ _). }
  unfold ndarray_add. rewrite Hsh, broadcast_shapes_diag.
  eexists. split_and!; done.
Qed.

End Additivity.

Section AdditivityWitnesses.
#[local] Existing Instance Demo.types.
#[local] Existing Instance Demo.collaborators.
Import Demo.

(** The effect of the change from [T0] to [T] is the sum of the effects of
    the changes from [T0] to [T1] and from [T1] to [T]. *)
Example effect_additive_demo :
  (effect 1 None (NDArray [2; 2] [0; 0; 0; 0]%Z)
                 (NDArray [2; 2] [1; 2; 3; 4]%Z) w_fitted).1
  = Ok (NDArray [2] [19; 43]%Z) ∧
  (effect 1 None (NDArray [2; 2] [0; 0; 0; 0]%Z)
                 (NDArray [2; 2] [1; 1; 0; 2]%Z) w_fitted).1
  = Ok (NDArray [2] [12; 14]%Z) ∧
  (effect 1 None (NDArray [2; 2] [1; 1; 0; 2]%Z)
                 (NDArray [2; 2] [1; 2; 3; 4]%Z) w_fitted).1
  = Ok (NDArray [2] [7; 29]%Z).
Proof. by vm_compute. Qed.

Lemma effect_is_additive_witness :
  (ScalarAdditive Z ∧
   is_estimator w_fitted 1 (fitted_estimator linear theta1 None (Some 2)) ∧
   treatment_expansion
     (cls (fitted_estimator linear theta1 None (Some 2))) = false ∧
   shape (NDArray [2; 2] [1; 1; 0; 2]%Z)
   = shape (NDArray [2; 2] [0; 0; 0; 0]%Z) ∧
   shape (NDArray [2; 2] [1; 2; 3; 4]%Z)
   = shape (NDArray [2; 2] [0; 0; 0; 0]%Z)) ∧
  effect 1 None (NDArray [2; 2] [0; 0; 0; 0]%Z)
                (NDArray [2; 2] [1; 2; 3; 4]%Z) w_fitted
  = (rbind (effect 1 None (NDArray [2; 2] [0; 0; 0; 0]%Z)
                          (NDArray [2; 2] [1; 1; 0; 2]%Z) w_fitted).1 (λ r1,
     rbind (effect 1 None (NDArray [2; 2] [1; 1; 0; 2]%Z)
                          (NDArray [2; 2] [1; 2; 3; 4]%Z) w_fitted).1 (λ r2,
     ndarray_add r1 r2)), w_fitted) ∧
  ∀ r1 r2,
    effect 1 None (NDArray [2; 2] [0; 0; 0; 0]%Z)
                  (NDArray [2; 2] [1; 1; 0; 2]%Z) w_fitted = (Ok r1, w_fitted) →
    effect 1 None (NDArray [2; 2] [1; 1; 0; 2]%Z)
                  (NDArray [2; 2] [1; 2; 3; 4]%Z) w_fitted = (Ok r2, w_fitted) →
    ∃ r, effect 1 None (NDArray [2; 2] [0; 0; 0; 0]%Z)
                       (NDArray [2; 2] [1; 2; 3; 4]%Z) w_fitted
         = (Ok r, w_fitted) ∧
         ndarray_add r1 r2 = Ok r ∧ shape r = shape r1.
Proof.
  split; [split_and!; [apply Z_scalar_additive|by vm_compute..]|].
  apply (effect_is_additive 1 w_fitted
           (fitted_estimator linear theta1 None (Some 2)) None
           (NDArray [2; 2] [0; 0; 0; 0]%Z) (NDArray [2; 2] [1; 1; 0; 2]%Z)
           (NDArray [2; 2] [1; 2; 3; 4]%Z));
    by vm_compute.
Defined.

End AdditivityWitnesses.

(** ** What the effect methods do to the store *)

Section OnlyWarnings.
Context {R : Type} `{Scalar R} `{Collaborators R}.
Implicit Types (w : world R) (self l : loc) (e : estimator).

Lemma warns_unchanged {A} (m : M R A) :
  (∀ w r w', m w = (r, w') → w' = w) → warns_at_most 0 m.
Proof.
  intros Hm w r w' Hw. rewrite (Hm _ _ _ Hw). split; [done|].
  exists 0. split; [done|]. simpl. by rewrite app_nil_r.
Qed.

Lemma warns_mono j k {A} (m : M R A) :
  j ≤ k → warns_at_most j m → warns_at_most k m.
Proof.
  intros Hjk Hm w r w' Hw. destruct (Hm _ _ _ Hw) as (Hh & n & Hn & Ht).
  split; [done|]. exists n. split; [lia|done].
Qed.

Lemma warns_bind j k {A B} (m : M R A) (f : A → M R B) :
  warns_at_most j m → (∀ a, warns_at_most k (f a)) →
  warns_at_most (j + k) (bind m f).
Proof.
  intros Hm Hf w r w' Hb.
  apply bind_inv in Hb as [(a & w1 & Hm1 & Hf1)|(ex & Hm1 & _)].
  - destruct (Hm _ _ _ Hm1) as (Hh1 & n1 & Hn1 & Ht1).
    destruct (Hf _ _ _ _ Hf1) as (Hh2 & n2 & Hn2 & Ht2).
    split; [congruence|]. exists (n1 + n2). split; [lia|].
    by rewrite Ht2, Ht1, <- app_assoc, replicate_add.
  - destruct (Hm _ _ _ Hm1) as (Hh1 & n1 & Hn1 & Ht1).
    split; [done|]. exists n1. split; [lia|done].
Qed.

Lemma warns_ret {A} (a : A) : warns_at_most (R:=R) 0 (ret a).
Proof. apply warns_unchanged. by intros w r w' [= _ <-]. Qed.

Lemma warns_raise {A} (ex : exn) : warns_at_most (R:=R) (A:=A) 0 (raise ex).
Proof. apply warns_unchanged. by intros w r w' [= _ <-]. Qed.

Lemma warns_lift {A} (x : result A) : warns_at_most (R:=R) 0 (lift x).
Proof. apply warns_unchanged. by intros w r w' [= _ <-]. Qed.

Lemma warns_load_estimator self :
  warns_at_most (R:=R) 0 (load_estimator self).
Proof.
  apply warns_unchanged. intros w r w'. unfold load_estimator, load, bind.
  destruct (heap w !! self) as [[e|i]|]; by intros [= _ <-].
Qed.

Lemma warns_getattr {A} self name (field : estimator → option A) :
  warns_at_most (R:=R) 0 (getattr self name field).
Proof.
  apply (warns_bind 0 0); [apply warns_load_estimator|]. intros e.
  destruct (field e); [apply warns_ret|apply warns_raise].
Qed.

Lemma warns_emit :
  warns_at_most (R:=R) 1 (emit (Warn TreatmentExpansionMixin.scalar_warning)).
Proof.
  intros w r w' [= _ <-]. split; [done|]. exists 1. split; [lia|done].
Qed.

Lemma warns_expand_one self n (T : ndarray R) :
  warns_at_most 1 (TreatmentExpansionMixin.expand_one self n T).
Proof.
  unfold TreatmentExpansionMixin.expand_one.
  apply (warns_bind 0 1).
  { destruct (decide (ndim T = 0)); [|apply warns_ret].
    apply (warns_bind 0 0); [apply warns_getattr|]. intros d. apply warns_ret. }
  intros warns. apply (warns_bind 1 0).
  { destruct warns; [apply warns_emit|].
    apply (warns_mono 0); [lia|apply warns_ret]. }
  intros _. apply (warns_bind 0 0).
  { destruct (decide (ndim T = 0)); [|apply warns_ret].
    apply (warns_bind 0 0); [apply warns_getattr|]. intros d. apply warns_ret. }
  intros T'. apply (warns_bind 0 0); [apply warns_load_estimator|]. intros e.
  apply (warns_bind 0 0); [|intros ?; apply warns_ret].
  destruct (transformer e); [apply warns_lift|apply warns_ret].
Qed.

Lemma warns_expand_loop self n (Ts outTs : list (ndarray R)) :
  warns_at_most (length Ts) (TreatmentExpansionMixin.expand_loop self n Ts outTs).
Proof.
  revert outTs. induction Ts as [|T Ts IH]; intros outTs; simpl.
  - apply warns_ret.
  - apply (warns_bind 1 (length Ts)); [apply warns_expand_one|].
    intros T'. apply IH.
Qed.

Lemma warns_v_expand_treatments c self X (Ts : list (ndarray R)) :
  warns_at_most (length Ts) (v_expand_treatments (resolve c) self X Ts).
Proof.
  unfold resolve; simpl. destruct (treatment_expansion c).
  - unfold TreatmentExpansionMixin._expand_treatments.
    apply (warns_bind 0 (length Ts)).
    { destruct X; [apply warns_lift|apply warns_ret]. }
    intros n. rewrite <- (Nat.add_0_r (length Ts)).
    apply warns_bind; [apply warns_expand_loop|]. intros ?. apply warns_ret.
  - apply (warns_mono 0); [lia|]. apply warns_ret.
Qed.

Lemma warns_with_vtable k {A} self (f : vtable R → M R A) :
  (∀ c, warns_at_most k (f (resolve c))) →
  warns_at_most k (let* vt := vtable_of self in f vt).
Proof.
  intros Hf w r w' Hb.
  apply bind_inv in Hb as [(vt & w1 & Hvt & Hfw)|(ex & Hvt & ->)].
  - unfold vtable_of in Hvt.
    apply bind_inv in Hvt as [(e & w2 & He & Hret)|(ex & _ & ?)]; [|done].
    destruct (warns_load_estimator self _ _ _ He) as (Hh & n & Hn & Ht).
    unfold ret in Hret. simplify_eq.
    destruct (Hf _ _ _ _ Hfw) as (Hh2 & n2 & Hn2 & Ht2).
    split; [congruence|]. exists n2. split; [done|].
    assert (n = 0) as -> by lia. simpl in Ht.
    rewrite app_nil_r in Ht. by rewrite Ht2, Ht.
  - unfold vtable_of in Hvt.
    apply bind_inv in Hvt as [(e & w2 & He & Hret)|(ex' & He & _)]; [done|].
    destruct (warns_load_estimator self _ _ _ He) as (Hh & n & Hn & Ht).
    split; [done|]. exists n. split; [lia|done].
Qed.

Lemma warns_call_const_marginal_effect self X :
  warns_at_most (R:=R) 0
    (LinearCateEstimator.call_const_marginal_effect self X).
Proof.
  apply (warns_bind 0 0); [apply warns_load_estimator|]. intros e.
  apply warns_lift.
Qed.

Lemma warns_repeated_or_not (X : option (ndarray R)) (T eff : ndarray R) :
  warns_at_most (R:=R) 0
    match X with
    | Some _ => ret eff
    | None => let* n := lift (tuple_item0 (shape T)) in lift (np.repeat eff n)
    end.
Proof.
  destruct X; [apply warns_ret|].
  apply (warns_bind 0 0); [apply warns_lift|]. intros n. apply warns_lift.
Qed.

(** X13 -- what [_expand_treatments], [effect] and [marginal_effect] do to
    the store, whether they return or raise: every object is as it was (no
    attribute is assigned), no method of an inference object is called and
    nothing is constructed or copied; the only events are warnings about
    scalar treatments, at most one for each treatment ([effect] at most
    two, [marginal_effect] at most one). *)
Theorem effect_methods_only_warn self X :
  (∀ Ts, warns_at_most (length Ts) (_expand_treatments self X Ts)) ∧
  (∀ T0 T1, warns_at_most 2 (effect self X T0 T1)) ∧
  (∀ T, warns_at_most 1 (marginal_effect self T X)).
Proof.
  split_and!.
  - intros Ts. apply warns_with_vtable. intros c.
    apply warns_v_expand_treatments.
  - intros T0 T1. apply warns_with_vtable. intros c.
    unfold LinearCateEstimator.effect.
    apply (warns_bind 2 0); [apply (warns_v_expand_treatments c self X [T0; T1])|].
    intros [X' Ts]. destruct Ts as [|T0' [|T1' [|? ?]]]; try apply warns_raise.
    apply (warns_bind 0 0); [apply warns_call_const_marginal_effect|].
    intros eff.
    apply (warns_bind 0 0); [apply warns_repeated_or_not|]. intros eff'.
    apply (warns_bind 0 0); [apply warns_lift|]. intros m.
    apply (warns_bind 0 0); [apply warns_lift|]. intros dT. apply warns_lift.
  - intros T. apply warns_with_vtable. intros c.
    unfold LinearCateEstimator.marginal_effect.
    apply (warns_bind 1 0); [apply (warns_v_expand_treatments c self X [T])|].
    intros [X' Ts]. destruct Ts as [|T' [|? ?]]; try apply warns_raise.
    apply (warns_bind 0 0); [apply warns_call_const_marginal_effect|].
    intros eff. apply warns_repeated_or_not.
Qed.

End OnlyWarnings.

Section OnlyWarningsWitnesses.
#[local] Existing Instance Demo.types.
#[local] Existing Instance Demo.collaborators.
Import Demo.

Lemma effect_methods_only_warn_witness :
  TreatmentExpansionMixin.effect (resolve dml) 0 (Some X) None None w_fitted
  = (Ok (NDArray [2; 2] [6; 15; 24; 33]%Z),
     World (heap w_fitted)
           [Warn TreatmentExpansionMixin.scalar_warning;
            Warn TreatmentExpansionMixin.scalar_warning]) ∧
  ∀ r w', effect 0 (Some X) (np.scalar 0%Z) (np.scalar 1%Z) w_fitted = (r, w') →
    heap w' = heap w_fitted ∧
    ∃ n, n ≤ 2 ∧
         trace w' = trace w_fitted ++
           replicate n (Warn TreatmentExpansionMixin.scalar_warning).
Proof.
  split; [by vm_compute|].
  apply (proj1 (proj2 (effect_methods_only_warn 0 (Some X)))
           (np.scalar 0%Z) (np.scalar 1%Z) w_fitted).
Defined.

End OnlyWarningsWitnesses.

(** ** Before the first fit *)

Section BeforeFit.
Context {R : Type} `{Scalar R} `{Collaborators R}.
Implicit Types (w : world R) (self l : loc) (e : estimator).

(** X14 -- the deferred methods before the first fit.  No method of this
    file assigns [_inference] before [fit] does, so on an estimator that
    has not been fitted every method decorated with [_defer_to_inference],
    and the [marginal_effect_interval] of [LinearCateEstimator], fails on
    reading [self._inference]: the exception is Python's [AttributeError]
    for the missing attribute, not the message of the decorator, and
    nothing is changed. *)
Theorem deferred_methods_before_fit self w e :
  is_estimator w self e →
  _inference e = None →
  (∀ name f, (name, f) ∈ deferred_methods → ∀ args,
     f self args w = (Err (no_attribute (ObjEstimator e) "_inference"), w)) ∧
  (∀ T X alpha,
     LinearCateEstimator.marginal_effect_interval self T X alpha w
     = (Err (no_attribute (ObjEstimator e) "_inference"), w)) ∧
  no_attribute (ObjEstimator e) "_inference"
  = AttributeError ("'" +:+ class_name (cls e) +:+
                    "' object has no attribute '_inference'").
Proof.
  intros He Hinf. split_and!; [| |done].
  - intros name f Hin args. unfold deferred_methods in Hin.
    repeat (apply elem_of_cons in Hin as [[= -> ->]|Hin]);
      try (by apply elem_of_nil in Hin);
      by apply (defer_to_inference_unset _ _ _ _ e).
  - intros T X alpha. unfold LinearCateEstimator.marginal_effect_interval.
    unfold LinearCateEstimator.const_marginal_effect_interval.
    by rewrite (bind_Err _ _ _ _ _
                  (defer_to_inference_unset _ _ _ _ _ He Hinf)).
Qed.

End BeforeFit.

Section BeforeFitWitnesses.
#[local] Existing Instance Demo.types.
#[local] Existing Instance Demo.collaborators.
Import Demo.

Lemma deferred_methods_before_fit_witness :
  (is_estimator w0 0 (new dml) ∧ _inference (new dml) = None) ∧
  (∀ name f, (name, f) ∈ deferred_methods → ∀ args,
     f 0 args w0
     = (Err (no_attribute (ObjEstimator (new dml)) "_inference"), w0)) ∧
  (∀ T X alpha,
     LinearCateEstimator.marginal_effect_interval 0 T X alpha w0
     = (Err (no_attribute (ObjEstimator (new dml)) "_inference"), w0)) ∧
  no_attribute (ObjEstimator (new dml)) "_inference"
  = AttributeError ("'" +:+ class_name (cls (new dml)) +:+
                    "' object has no attribute '_inference'").
Proof.
  split; [by vm_compute|].
  apply (deferred_methods_before_fit 0 w0 (new dml)); by vm_compute.
Defined.

(** [effect_interval] on an estimator that has not been fitted. *)
Example effect_interval_before_fit_demo :
  BaseCateEstimator.effect_interval 0 (CallArgs [] []) w0
  = (Err (AttributeError
            "'DMLCateEstimator' object has no attribute '_inference'"), w0).
Proof. by vm_compute. Qed.

End BeforeFitWitnesses.

(** ** The strings a fit accepts *)

Section RegistryOfFit.
Context {R : Type} `{Scalar R} `{Collaborators R}.
Implicit Types (w : world R) (self l : loc) (e : estimator).

Lemma appends_same {A} (m : M R A) :
  (∀ w r w', m w = (r, w') → trace w' = trace w) → appends m.
Proof.
  intros Hm w r w' Hw. exists []. by rewrite app_nil_r, (Hm _ _ _ Hw).
Qed.

Lemma appends_bind {A B} (m : M R A) (k : A → M R B) :
  appends m → (∀ a, appends (k a)) → appends (bind m k).
Proof.
  intros Hm Hk w r w' Hb.
  apply bind_inv in Hb as [(a & w1 & Hm1 & Hk1)|(ex & Hm1 & _)].
  - destruct (Hm _ _ _ Hm1) as [t1 Ht1]. destruct (Hk _ _ _ _ Hk1) as [t2 Ht2].
    exists (t1 ++ t2). by rewrite Ht2, Ht1, app_assoc.
  - by eapply Hm.
Qed.

Lemma appends_ret {A} (a : A) : appends (R:=R) (ret a).
Proof. apply appends_same. by intros w r w' [= _ <-]. Qed.

Lemma appends_raise {A} (ex : exn) : appends (R:=R) (A:=A) (raise ex).
Proof. apply appends_same. by intros w r w' [= _ <-]. Qed.

Lemma appends_emit (ev : event R) : appends (emit ev).
Proof. intros w r w' [= _ <-]. by exists [ev]. Qed.

Lemma appends_store l (o : object) : appends (R:=R) (store l o).
Proof. apply appends_same. by intros w r w' [= _ <-]. Qed.

Lemma appends_load l : appends (R:=R) (load l).
Proof.
  apply appends_same. intros w r w'. unfold load.
  destruct (heap w !! l); by intros [= _ <-].
Qed.

Lemma appends_load_estimator self : appends (R:=R) (load_estimator self).
Proof.
  apply appends_bind; [apply appends_load|]. intros [e|i];
    [apply appends_ret|apply appends_raise].
Qed.

Lemma appends_getattr {A} self name (field : estimator → option A) :
  appends (R:=R) (getattr self name field).
Proof.
  apply appends_bind; [apply appends_load_estimator|]. intros e.
  destruct (field e); [apply appends_ret|apply appends_raise].
Qed.

Lemma appends_setattr self name v set :
  appends (R:=R) (setattr self name v set).
Proof.
  apply appends_bind; [apply appends_load_estimator|]. intros e.
  apply appends_bind; [apply appends_store|]. intros _. apply appends_emit.
Qed.

Lemma appends_prefit c self (Y T : ndarray R) args :
  appends (v_prefit (resolve c) self Y T args).
Proof.
  assert (Hbase : appends (BaseCateEstimator._prefit self Y T args)).
  { apply appends_bind; [apply appends_setattr|]. intros _.
    apply appends_setattr. }
  unfold resolve; simpl. destruct (treatment_expansion c); [|done].
  apply appends_bind; [done|]. intros _.
  apply appends_bind; [apply appends_getattr|]. intros d.
  apply appends_setattr.
Qed.

Lemma appends_hook hook name ev l self (Y T : ndarray R) args :
  appends (BaseCateEstimator.call_inference_hook hook name ev l self Y T args).
Proof.
  apply appends_bind; [apply appends_load|]. intros [e0|i];
    [apply appends_raise|].
  apply appends_bind; [apply appends_load_estimator|]. intros e.
  apply appends_bind; [apply appends_emit|]. intros _.
  destruct (hook i e Y T args) as [[i' e'] raised].
  apply appends_bind; [apply appends_store|]. intros _.
  apply appends_bind; [apply appends_store|]. intros _.
  destruct raised; [apply appends_raise|apply appends_ret].
Qed.

Lemma appends_fit_body self (Y T : ndarray R) args :
  appends (BaseCateEstimator.call_fit_body self Y T args).
Proof.
  apply appends_bind; [apply appends_load_estimator|]. intros e.
  apply appends_bind; [apply appends_emit|]. intros _.
  destruct (fit_body e Y T args) as [e' raised].
  apply appends_bind; [apply appends_store|]. intros _.
  destruct raised; [apply appends_raise|apply appends_ret].
Qed.

(** The registry of a class, by its keys. *)
Lemma options_of_keys (c : pyclass) (s : string) :
  dict_keys (options_of (R:=R) c) = inference_keys c ∧
  dict_get s (options_of (R:=R) c)
  = if decide (s ∈ inference_keys c) then Some (inference_class s) else None.
Proof.
  unfold options_of, resolve, inference_keys, inference_class; simpl.
  destruct (statsmodels_mixin c); (split; [reflexivity|]); cbn.
  - destruct (String.eqb_spec s "bootstrap") as [->|Hb].
    { rewrite decide_True by (by left). by rewrite decide_False by done. }
    destruct (String.eqb_spec s "statsmodels") as [->|Hs].
    { rewrite decide_True by (by right; left). by rewrite decide_True by done. }
    rewrite decide_False; [done|]. intros Hin.
    repeat (apply elem_of_cons in Hin as [?|Hin]; [done|]).
    by apply elem_of_nil in Hin.
  - destruct (String.eqb_spec s "bootstrap") as [->|Hb].
    { rewrite decide_True by (by left). by rewrite decide_False by done. }
    rewrite decide_False; [done|]. intros Hin.
    repeat (apply elem_of_cons in Hin as [?|Hin]; [done|]).
    by apply elem_of_nil in Hin.
Qed.

(** X15 -- the strings a wrapped [fit] accepts as [inference].  Every
    class accepts ['bootstrap'], a class with the
    [StatsModelsCateEstimatorMixin] also ['statsmodels'].  For a key of the
    class, whatever happens later in the fit, the first two events are the
    construction of an instance of the class the key stands for
    ([StatsModelsInference] for ['statsmodels'], [BootstrapInference] for
    ['bootstrap']) and its deep copy, both at new places; for any other
    string the call raises the [ValueError] that lists the keys of the
    class and nothing has happened. *)
Theorem fit_accepts_registry_keys self (Y T : ndarray R) args (s : string)
    w e :
  is_estimator w self e →
  if decide (s ∈ inference_keys (cls e)) then
    ∀ r w', fit self Y T args (ArgStr s) w = (r, w') →
      ∃ src l' done,
        (src ∉ dom (heap w)) ∧ (l' ∉ dom (heap w)) ∧ src ≠ l' ∧
        trace w' = trace w ++
          [Construct (inference_class s) src; Deepcopy src l'] ++ done
  else
    fit self Y T args (ArgStr s) w
    = (Err (ValueError ("Inference option '" +:+ s +:+
                        "' not recognized; valid values are " +:+
                        repr_list (inference_keys (cls e)))), w).
Proof.
  intros He.
  destruct (options_of_keys (cls e) s) as [Hkeys Hget].
  destruct (decide (s ∈ inference_keys (cls e))) as [Hin|Hin].
  - intros r w' Hfit. unfold fit in Hfit.
    rewrite (bind_Ok _ _ _ _ _ (vtable_of_is _ _ _ He)) in Hfit.
    unfold BaseCateEstimator._wrap_fit in Hfit.
    rewrite (bind_Ok _ _ _ _ _
               (get_inference_str (resolve (cls e)) s _ w Hget)) in Hfit.
    match type of Hfit with
    | ?m ?w1 = _ => assert (Hm : appends (R:=R) m)
    end.
    { apply appends_bind; [apply appends_prefit|]. intros _.
      apply appends_bind; [apply appends_hook|]. intros _.
      apply appends_bind; [apply appends_fit_body|]. intros _.
      apply appends_bind; [apply appends_hook|]. intros _.
      apply appends_bind; [apply appends_setattr|]. intros _.
      apply appends_ret. }
    destruct (Hm _ _ _ Hfit) as [done Hdone]. simpl in Hdone.
    eexists _, _, done. split_and!; [apply is_fresh| | |].
    + intros Hl'.
      apply (is_fresh
               (dom (<[fresh (dom (heap w))
                       := ObjInference (construct (inference_class s))]>
                       (heap w)))).
      eapply (subseteq_dom (heap w)); [|exact Hl'].
      apply insert_subseteq, not_elem_of_dom, is_fresh.
    + intros Heq.
      apply (is_fresh
               (dom (<[fresh (dom (heap w))
                       := ObjInference (construct (inference_class s))]>
                       (heap w)))).
      rewrite <- Heq. apply elem_of_dom. rewrite lookup_insert_eq. by eexists.
    + by rewrite Hdone, <- app_assoc.
  - rewrite <- Hkeys. unfold fit.
    rewrite (bind_Ok _ _ _ _ _ (vtable_of_is _ _ _ He)).
    unfold BaseCateEstimator._wrap_fit, BaseCateEstimator._get_inference.
    unfold options_of in Hget. rewrite Hget. done.
Qed.

End RegistryOfFit.

Section RegistryOfFitWitnesses.
#[local] Existing Instance Demo.types.
#[local] Existing Instance Demo.collaborators.
Import Demo.

(** ['statsmodels'] for a class without the mixin. *)
Example fit_statsmodels_without_mixin_demo :
  fit 1 Y T no_args (ArgStr "statsmodels") w0
  = (Err (ValueError
            "Inference option 'statsmodels' not recognized; valid values are ['bootstrap']"),
     w0).
Proof. by vm_compute. Qed.

Lemma fit_accepts_registry_keys_witness :
  is_estimator w0 0 (new dml) ∧
  ∀ r w', fit 0 Y T no_args (ArgStr "statsmodels") w0 = (r, w') →
    ∃ src l' done,
      (src ∉ dom (heap w0)) ∧ (l' ∉ dom (heap w0)) ∧ src ≠ l' ∧
      trace w' = trace w0 ++
        [Construct (inference_class "statsmodels") src; Deepcopy src l'] ++
        done.
Proof.
  split; [by vm_compute|].
  apply (fit_accepts_registry_keys 0 Y T no_args "statsmodels" w0 (new dml)).
  by vm_compute.
Defined.

End RegistryOfFitWitnesses.

(** ** Scalar treatments after a fit *)

Section ScalarsAfterFit.
Context {R : Type} `{Scalar R} `{Collaborators R}.
Implicit Types (w : world R) (self l : loc) (e : estimator).

(** What the collaborators keep is, after a fit that returns, what
    [_prefit] recorded. *)
Lemma fit_Ok_keeps {A} (f : estimator → A) self Y T args inference w e r w' :
  is_estimator w self e →
  hooks_keep f →
  (∀ x e0, f (set_inference x e0) = f e0) →
  fit self Y T args inference w = (Ok r, w') →
  ∃ e', is_estimator w' self e' ∧ f e' = f (recorded (cls e) Y T e).
Proof.
  intros He (Hb & Hp & Hf) Hset Hfit.
  destruct (fit_Ok_inv _ _ _ _ _ _ _ _ _ He Hfit)
    as (x & w1 & e4 & _ & _ & _ & He4 & _ & Hx).
  exists (set_inference x e4). split; [done|]. rewrite Hset.
  destruct x as [l'|].
  - destruct Hx as (i0 & i1 & e2 & e3 & i2 & _ & _ & Hpre & Hbody & Hfit' & _).
    specialize (Hp i0 (recorded (cls e) Y T e) Y T args).
    specialize (Hb e2 Y T args). specialize (Hf i1 e3 Y T args).
    rewrite Hpre in Hp. rewrite Hbody in Hb. rewrite Hfit' in Hf.
    simpl in Hp, Hb, Hf. congruence.
  - specialize (Hb (recorded (cls e) Y T e) Y T args).
    rewrite Hx in Hb. done.
Qed.

Lemma result_mapM_broadcast (n : nat) (d : list nat) (Ts : list (ndarray R)) :
  result_mapM (λ T, apply_transformer None (broadcast_scalar n d T)) Ts
  = Ok (broadcast_scalar n d <$> Ts).
Proof.
  induction Ts as [|T Ts IH]; [done|]. cbn [result_mapM]. by rewrite IH.
Qed.

(** X16 -- scalar treatments after a fit.  When a wrapped [fit] of a class
    with the treatment expansion has returned, [_d_t_in] is [shape(T)[1:]]
    of the treatment of that fit, and [_expand_treatments] (hence [effect]
    and [marginal_effect]) turns every scalar treatment into an array of
    shape [(n_rows,) + shape(T)[1:]] filled with the scalar, keeps the
    arrays, and warns once for each scalar when [shape(T)[1] > 1]: also
    when the body of the fit has overwritten [_d_t].  (For collaborators
    that do not assign [_d_t_in] or the class themselves, and an estimator
    without transformer.) *)
Theorem scalars_expand_to_fitted_treatment self Y T args inference w e r w' :
  is_estimator w self e →
  treatment_expansion (cls e) = true →
  hooks_keep _d_t_in → hooks_keep cls →
  fit self Y T args inference w = (Ok r, w') →
  ∃ e', is_estimator w' self e' ∧
        _d_t_in e' = Some (drop 1 (shape T)) ∧
        ∀ X n Ts,
          n_rows_of X = Ok n → transformer e' = None →
          _expand_treatments self X Ts w'
          = (Ok (X, broadcast_scalar n (drop 1 (shape T)) <$> Ts),
             World (heap w')
                   (trace w' ++ warnings_for (drop 1 (shape T)) Ts)).
Proof.
  intros He Hc Hd Hcls Hfit.
  assert (Hboth : hooks_keep (λ e0 : estimator, (_d_t_in e0, cls e0))).
  { destruct Hd as (Hd1 & Hd2 & Hd3), Hcls as (Hc1 & Hc2 & Hc3).
    split_and!; intros; f_equal; auto. }
  destruct (fit_Ok_keeps (λ e0, (_d_t_in e0, cls e0)) _ _ _ _ _ _ _ _ _ He
              Hboth (λ _ _, eq_refl) Hfit) as (e' & He' & Hkept).
  assert (Hd' : _d_t_in e' = Some (drop 1 (shape T)) ∧ cls e' = cls e).
  { unfold recorded in Hkept. rewrite Hc in Hkept. by simplify_eq. }
  destruct Hd' as [Hd' Hcls'].
  exists e'. split_and!; [done..|]. intros X n Ts Hn Htr.
  apply (expand_treatments_is self X Ts w' e' (drop 1 (shape T)) n);
    [done|congruence|done|done|].
  rewrite Htr. apply result_mapM_broadcast.
Qed.

End ScalarsAfterFit.

Section ScalarsAfterFitWitnesses.
#[local] Existing Instance Demo.types.
#[local] Existing Instance Encoding.collaborators.

Lemma encoding_hooks_keep_d_t_in : hooks_keep (_d_t_in (H:=Demo.types)).
Proof. split_and!; by intros. Qed.

Lemma encoding_hooks_keep_cls : hooks_keep (cls (H:=Demo.types)).
Proof. split_and!; by intros. Qed.

Lemma scalars_expand_to_fitted_treatment_witness :
  (is_estimator Demo.w0 0 (Demo.new Demo.dml) ∧
   treatment_expansion (cls (Demo.new Demo.dml)) = true ∧
   hooks_keep (_d_t_in (H:=Demo.types)) ∧
   hooks_keep (cls (H:=Demo.types)) ∧
   fit 0 Demo.Y Encoding.T Demo.no_args ArgNone Demo.w0
   = (Ok 0, Encoding.w_encoded)) ∧
  ∃ e', is_estimator Encoding.w_encoded 0 e' ∧
        _d_t_in e' = Some (drop 1 (shape Encoding.T)) ∧
        ∀ X n Ts,
          n_rows_of X = Ok n → transformer e' = None →
          _expand_treatments 0 X Ts Encoding.w_encoded
          = (Ok (X, broadcast_scalar n (drop 1 (shape Encoding.T)) <$> Ts),
             World (heap Encoding.w_encoded)
                   (trace Encoding.w_encoded ++
                    warnings_for (drop 1 (shape Encoding.T)) Ts)).
Proof.
  split.
  { split_and!; [by vm_compute|by vm_compute|apply encoding_hooks_keep_d_t_in
                |apply encoding_hooks_keep_cls|by vm_compute]. }
  apply (scalars_expand_to_fitted_treatment 0 Demo.Y Encoding.T Demo.no_args
           ArgNone Demo.w0 (Demo.new Demo.dml) 0 Encoding.w_encoded);
    [by vm_compute|by vm_compute|apply encoding_hooks_keep_d_t_in
    |apply encoding_hooks_keep_cls|by vm_compute].
Defined.

End ScalarsAfterFitWitnesses.

(** ** Floating-point entries *)

Section FloatFacts.
#[local] Existing Instance number_scalar.
#[local] Existing Instance Floats.types.
#[local] Existing Instance Floats.collaborators.

Lemma number_scalar_negation : @ScalarNegation number number_scalar.
Proof.
  split; simpl.
  - intros [a| | |] [b| | |]; simpl; try done. f_equal. lia.
  - intros [a| | |] [b| | |]; simpl; try done;
      try (f_equal; lia); try (by destruct a); by destruct b.
  - intros [a| | |] [b| | |]; simpl; try done. f_equal. lia.
  - done.
Qed.


(** The sign of the effect changes with the difference also there. *)
Example effect_changes_sign_with_infinity :
  effect 0 None Floats.T (NDArray [1; 2] [Finite 3; Finite 1]) Floats.w
  = (Ok (NDArray [1] [NegInf]), Floats.w) ∧
  effect 0 None (NDArray [1; 2] [Finite 3; Finite 1]) Floats.T Floats.w
  = (Ok (NDArray [1] [PosInf]), Floats.w).
Proof. by vm_compute. Qed.

End FloatFacts.
